(** * Adaptive Tool Orchestration Core: retry policy, cache manager,
      health monitor, learning batch processor and expert gating.

    A shallow embedding of the Python components described in
    [docs/MCP_OPTIMIZATION_RECOMMENDATIONS.md],
    [docs/guides/mcp-a2a-integration.md] and the MoE section of the
    release notes, with the properties the design specification states
    about them.

    Conventions.  A finite Python [float] is held as the rational it
    equals ([Q]); [Float.round] is the rounding of binary64 arithmetic, with
    its infinities.  The rolling average of the health monitor and the
    running total of the A/B test are computed with it, as is the
    [OverflowError] of the power in the retry delay; the products of the
    retry delay, the hit rate and the gating scores are taken exactly.
    Python [int] is [Z]; awaited coroutines pass a world state explicitly;
    exceptions are sum types. *)

From stdpp Require Import base gmap strings list sorting pretty.
From Stdlib Require Import Ascii ZArith QArith Qminmax Qpower Qround Lqa Lia.

Local Open Scope Z_scope.

(** ** Python helpers *)

(** [range(n)] for an [int] n: the empty sequence when [n <= 0]. *)
Definition py_range (n : Z) : list Z := map Z.of_nat (seq 0 (Z.to_nat n)).

(* ====================================================================== *)
(** ** Python's [float] arithmetic *)
(* ====================================================================== *)
Module Float.

(** A Python [float]: a finite value, held as the rational it equals, an
    infinity or a NaN.  The sign of a zero, which none of the operations
    below observes, is not kept. *)
Inductive float := Finite (q : Q) | PosInf | NegInf | NaN.

(** [2 ** e] *)
Definition pow2 (e : Z) : Q := (2 ^ e)%Q.

(** The integer nearest to [x], the even one of two equally near. *)
Definition rne (x : Q) : Z :=
  let f := Qfloor x in
  match (x - inject_Z f ?= 1 # 2)%Q with
  | Lt => f
  | Gt => f + 1
  | Eq => if Z.even f then f else f + 1
  end.

(** The binary exponent of a positive [x]: [2 ** e <= x < 2 ** (e + 1)]. *)
Definition expo (x : Q) : Z :=
  let e := Z.log2 (Qnum x) - Z.log2 (Zpos (Qden x)) in
  if Qle_bool (pow2 e) x then e else e - 1.

(** A non-negative [x] rounded to 53 significant bits, or to a multiple
    of [2 ** -1074] below [2 ** -1022]. *)
Definition round_abs (x : Q) : Q :=
  let e := Z.max (expo x) (-1022) in
  let ulp := pow2 (e - 52) in
  (inject_Z (rne (x / ulp)) * ulp)%Q.

(** The float an exact result [x] is rounded to (binary64, round to
    nearest, ties to even): an infinity from [2 ** 1024 - 2 ** 970] on. *)
Definition round (x : Q) : float :=
  if Qle_bool 0 x then
    let y := round_abs x in
    if Qle_bool (pow2 1024) y then PosInf else Finite (Qred y)
  else
    let y := round_abs (- x) in
    if Qle_bool (pow2 1024) y then NegInf else Finite (Qred (- y)).

(** The order of the floats; nothing compares with [NaN]. *)
Definition le (a b : float) : Prop :=
  match a, b with
  | NaN, _ | _, NaN => False
  | NegInf, _ | _, PosInf => True
  | Finite x, Finite y => (x <= y)%Q
  | _, _ => False
  end.

(** [a < b] *)
Definition ltb (a b : float) : bool :=
  match a, b with
  | NaN, _ | _, NaN => false
  | Finite x, Finite y => negb (Qle_bool y x)
  | NegInf, NegInf | PosInf, _ => false
  | NegInf, _ | Finite _, PosInf => true
  | Finite _, NegInf => false
  end.

(** [a + b] *)
Definition add (a b : float) : float :=
  match a, b with
  | NaN, _ | _, NaN => NaN
  | Finite x, Finite y => round (x + y)
  | PosInf, NegInf | NegInf, PosInf => NaN
  | PosInf, _ | _, PosInf => PosInf
  | NegInf, _ | _, NegInf => NegInf
  end.

(** [-a] *)
Definition opp (a : float) : float :=
  match a with
  | Finite x => Finite (- x)
  | PosInf => NegInf
  | NegInf => PosInf
  | NaN => NaN
  end.

(** [a * b] *)
Definition mul (a b : float) : float :=
  match a, b with
  | NaN, _ | _, NaN => NaN
  | Finite x, Finite y => round (x * y)
  | Finite x, inf | inf, Finite x =>
      match (x ?= 0)%Q with
      | Eq => NaN
      | Gt => inf
      | Lt => opp inf
      end
  | PosInf, PosInf | NegInf, NegInf => PosInf
  | PosInf, NegInf | NegInf, PosInf => NegInf
  end.

(** The value of a finite float. *)
Definition value (a : float) : Q :=
  match a with
  | Finite q => q
  | _ => 0
  end.

(** The values a Python [float] can hold. *)
Definition is_float (a : float) : Prop :=
  match a with
  | Finite q => round q = Finite q
  | _ => True
  end.

End Float.

(* ====================================================================== *)
(** ** app/mcp/retry_policy.py *)
(* ====================================================================== *)
Module Retry.

Record RetryPolicy := {
  max_retries : Z;
  base_delay : Q;
  max_delay : Q;
  exponential_base : Q;
  jitter : bool
}.

(** The defaults of [RetryPolicy.__init__]. *)
Definition default_policy : RetryPolicy :=
  {| max_retries := 3; base_delay := 1; max_delay := 60;
     exponential_base := 2; jitter := true |}.

(** [min(self.base_delay * (self.exponential_base ** attempt), self.max_delay)] *)
Definition capped_backoff (self : RetryPolicy) (attempt : Z) : Q :=
  Qmin (base_delay self * exponential_base self ^ attempt) (max_delay self).

(** [self.exponential_base ** attempt] raises [OverflowError] when the
    power is beyond the range of a float (2.0 ** 1024, 1e200 ** 2).  The
    products and the sum of [get_delay] raise nothing; they are taken
    exactly here, their rounding moving a delay by a unit in the last place
    at most. *)
Definition power_overflows (self : RetryPolicy) (attempt : Z) : bool :=
  match Float.round (exponential_base self ^ attempt) with
  | Float.Finite _ => false
  | _ => true
  end.

(** How a run of [execute_with_retry] ends.  [RaiseTypeError] is Python's
    answer to [raise None]; [ReturnNone] is falling off the end of the
    function body; [RaiseOverflowError] is the error of [get_delay], raised
    while the error of the callable is being handled. *)
Inductive completion (R E : Type) :=
  | Return (r : R)
  | Raise (e : E)
  | RaiseTypeError
  | ReturnNone
  | RaiseOverflowError.
Arguments Return {R E} r.
Arguments Raise {R E} e.
Arguments RaiseTypeError {R E}.
Arguments ReturnNone {R E}.
Arguments RaiseOverflowError {R E}.

(** [if should_retry and not should_retry(e): raise] -- with no predicate
    supplied every exception is retried. *)
Definition retryable {E} (should_retry : option (E -> bool)) (e : E) : bool :=
  match should_retry with
  | Some p => p e
  | None => true
  end.

Section WithWorld.
(** The world the coroutine runs in: [func] is the awaited callable with
    its arguments already bound, returning a value ([inl]) or raising an
    [Exception] ([inr]); [random] is [random.random()]; [sleep] is
    [asyncio.sleep]. *)
Context {World R E : Type}.
Variable func : World -> (R + E) * World.
Variable random : World -> Q * World.
Variable sleep : Q -> World -> World.

(** [get_delay]: the delay, or [None] for the [OverflowError] of the
    power, raised before anything else is done. *)
Definition get_delay (self : RetryPolicy) (attempt : Z) (w : World) : option Q * World :=
  if power_overflows self attempt then (None, w)
  else
    let delay := capped_backoff self attempt in
    if jitter self then
      let '(r, w') := random w in
      (Some (delay * ((1 # 2) + r))%Q, w')
    else (Some delay, w).

(** The body of [for attempt in range(self.max_retries + 1)], with the
    statement that follows the loop as [after_loop].  The call of
    [logger.warning] before the sleep is left out. *)
Fixpoint retry_loop (self : RetryPolicy) (should_retry : option (E -> bool))
    (after_loop : option E -> completion R E)
    (attempts : list Z) (last_exception : option E) (w : World)
    : completion R E * World :=
  match attempts with
  | [] => (after_loop last_exception, w)
  | attempt :: rest =>
      let '(o, w1) := func w in
      match o with
      | inl r => (Return r, w1)
      | inr e =>
          if negb (retryable should_retry e) then (Raise e, w1)
          else if attempt >=? max_retries self then (Raise e, w1)
          else
            let '(delay, w2) := get_delay self attempt w1 in
            match delay with
            | Some delay =>
                retry_loop self should_retry after_loop rest (Some e) (sleep delay w2)
            | None => (RaiseOverflowError, w2)
            end
      end
  end.

(** [docs/MCP_OPTIMIZATION_RECOMMENDATIONS.md]: the loop is followed by
    [raise last_exception]. *)
Definition execute_with_retry (self : RetryPolicy)
    (should_retry : option (E -> bool)) (w : World) : completion R E * World :=
  retry_loop self should_retry
    (fun last => match last with Some e => Raise e | None => RaiseTypeError end)
    (py_range (max_retries self + 1)) None w.

(** [docs/guides/mcp-a2a-integration.md]: nothing follows the loop. *)
Definition execute_with_retry_guide (self : RetryPolicy)
    (should_retry : option (E -> bool)) (w : World) : completion R E * World :=
  retry_loop self should_retry (fun _ => ReturnNone)
    (py_range (max_retries self + 1)) None w.

(** Instrumentation: the same world with a log of what each call of
    [func] produced, in call order. *)
Definition logged_func (wl : World * list (R + E)) : (R + E) * (World * list (R + E)) :=
  let '(o, w') := func wl.1 in (o, (w', wl.2 ++ [o])).
Definition logged_random (wl : World * list (R + E)) : Q * (World * list (R + E)) :=
  let '(r, w') := random wl.1 in (r, (w', wl.2)).
Definition logged_sleep (d : Q) (wl : World * list (R + E)) : World * list (R + E) :=
  (sleep d wl.1, wl.2).
End WithWorld.

(** From the specification: an error for which the caller's
    [should_retry] returns false.  With no predicate no error is. *)
Definition rejected {E} (should_retry : option (E -> bool)) (e : E) : Prop :=
  exists p, should_retry = Some p /\ p e = false.


(** A small concrete world for running the policy: the world is the number
    of calls made so far, the callable raises its call number on the first
    [failures] calls and returns it afterwards, [random.random()] is a fixed
    draw and sleeping changes nothing. *)
Definition flaky (failures : nat) (w : nat) : (nat + nat) * nat :=
  (if (w <? failures)%nat then inr w else inl w, S w).
Definition fixed_draw {W} (r : Q) (w : W) : Q * W := (r, w).
Definition no_sleep {W} (d : Q) (w : W) : W := w.

End Retry.

(* ====================================================================== *)
(** ** Python's [json.dumps] *)
(* ====================================================================== *)
Module Json.

(** JSON-serialisable Python values.  A [dict] is kept as the list of its
    items in insertion order, which is the order [json.dumps] emits them
    in when [sort_keys] is off; its keys are strings.  Characters are code
    points below 256. *)
Unset Elimination Schemes.
Inductive json :=
  | JNone
  | JBool (b : bool)
  | JInt (n : Z)
  | JStr (s : string)
  | JList (l : list json)
  | JDict (d : list (string * json)).
Set Elimination Schemes.

(** Induction over a value with the hypotheses for the members of lists
    and dicts. *)
Fixpoint json_nested_ind (P : json -> Prop)
    (HNone : P JNone) (HBool : forall b, P (JBool b)) (HInt : forall n, P (JInt n))
    (HStr : forall s, P (JStr s))
    (HList : forall l, Forall P l -> P (JList l))
    (HDict : forall d, Forall (fun kv => P kv.2) d -> P (JDict d))
    (j : json) : P j :=
  match j with
  | JNone => HNone
  | JBool b => HBool b
  | JInt n => HInt n
  | JStr s => HStr s
  | JList l =>
      HList l ((fix go (l : list json) : Forall P l :=
                  match l with
                  | [] => List.Forall_nil P
                  | x :: r => @List.Forall_cons _ P x r
                      (json_nested_ind P HNone HBool HInt HStr HList HDict x) (go r)
                  end) l)
  | JDict d =>
      HDict d ((fix go (d : list (string * json)) : Forall (fun kv => P kv.2) d :=
                  match d with
                  | [] => List.Forall_nil _
                  | kv :: r => @List.Forall_cons _ (fun kv => P kv.2) kv r
                      (json_nested_ind P HNone HBool HInt HStr HList HDict kv.2) (go r)
                  end) d)
  end.

(** A Python [dict] holds each key once. *)
Fixpoint wf (j : json) : Prop :=
  match j with
  | JList l => fold_right (fun x acc => wf x /\ acc) True l
  | JDict d => NoDup (map fst d) /\ fold_right (fun kv acc => wf kv.2 /\ acc) True d
  | _ => True
  end.

Definition dquote : string := String "034"%char EmptyString.

Definition hex_digit (n : N) : ascii :=
  if (n <? 10)%N then ascii_of_N (48 + n) else ascii_of_N (87 + n).

(** [ESCAPE_DCT] and the [\uXXXX] fallback of [py_encode_basestring_ascii]:
    everything outside the printable range [' '..'~'] is escaped. *)
Definition escape_char (c : ascii) : string :=
  let n := N_of_ascii c in
  if (n =? 34)%N then "\" +:+ dquote
  else if (n =? 92)%N then "\\"
  else if (n =? 8)%N then "\b"
  else if (n =? 12)%N then "\f"
  else if (n =? 10)%N then "\n"
  else if (n =? 13)%N then "\r"
  else if (n =? 9)%N then "\t"
  else if ((32 <=? n) && (n <=? 126))%N then String c EmptyString
  else "\u00" +:+ String (hex_digit (n / 16)) (String (hex_digit (n mod 16)) EmptyString).

Fixpoint escape (s : string) : string :=
  match s with
  | EmptyString => EmptyString
  | String c rest => escape_char c +:+ escape rest
  end.

Definition encode_string (s : string) : string := dquote +:+ escape s +:+ dquote.

(** [", ".join(parts)] *)
Fixpoint join (sep : string) (parts : list string) : string :=
  match parts with
  | [] => EmptyString
  | [x] => x
  | x :: rest => x +:+ sep +:+ join sep rest
  end.

(** [sorted(dct.items())] on items with distinct string keys: a stable
    insertion sort on the key, compared code point by code point. *)
Fixpoint insert_item {A} (kv : string * A) (l : list (string * A)) : list (string * A) :=
  match l with
  | [] => [kv]
  | kv' :: rest =>
      if String.leb kv.1 kv'.1 then kv :: l else kv' :: insert_item kv rest
  end.

Definition sort_items {A} (l : list (string * A)) : list (string * A) :=
  fold_right insert_item [] l.

(** The order [sorted] puts items in. *)
Definition key_le {A} (x y : string * A) : Prop := String.leb x.1 y.1 = true.

(** [json.dumps(j, sort_keys=sort_keys)] with the default separators and
    [ensure_ascii=True].  The values of a dict are encoded before the items
    are put in key order; the order of the two steps does not matter, as
    the sort looks at keys only. *)
Fixpoint dumps (sort_keys : bool) (j : json) : string :=
  match j with
  | JNone => "null"
  | JBool true => "true"
  | JBool false => "false"
  | JInt n => pretty n
  | JStr s => encode_string s
  | JList l => "[" +:+ join ", " (map (dumps sort_keys) l) +:+ "]"
  | JDict d =>
      let items := map (fun kv => (kv.1, dumps sort_keys kv.2)) d in
      let items := if sort_keys then sort_items items else items in
      "{" +:+ join ", " (map (fun kv => encode_string kv.1 +:+ ": " +:+ kv.2) items) +:+ "}"
  end.

(** Two values that differ only in the order in which dicts, at any depth,
    list their items. *)
Unset Elimination Schemes.
Inductive reordered : json -> json -> Prop :=
  | reordered_refl j : reordered j j
  | reordered_list l1 l2 :
      Forall2 reordered l1 l2 -> reordered (JList l1) (JList l2)
  | reordered_dict d1 d d2 :
      Forall2 (fun a b => a.1 = b.1 /\ reordered a.2 b.2) d1 d ->
      Permutation d d2 ->
      reordered (JDict d1) (JDict d2).
Set Elimination Schemes.

End Json.

(* ====================================================================== *)
(** ** [hashlib.sha256] (FIPS 180-4) *)
(* ====================================================================== *)
Module Sha256.

Definition w32 (x : Z) : Z := Z.land x 0xffffffff.
Definition rotr (n x : Z) : Z := w32 (Z.lor (Z.shiftr x n) (Z.shiftl x (32 - n))).
Definition add32 (x y : Z) : Z := w32 (x + y).

Definition Ch (x y z : Z) : Z := Z.lxor (Z.land x y) (Z.land (w32 (Z.lnot x)) z).
Definition Maj (x y z : Z) : Z := Z.lxor (Z.lxor (Z.land x y) (Z.land x z)) (Z.land y z).
Definition Sigma0 (x : Z) : Z := Z.lxor (Z.lxor (rotr 2 x) (rotr 13 x)) (rotr 22 x).
Definition Sigma1 (x : Z) : Z := Z.lxor (Z.lxor (rotr 6 x) (rotr 11 x)) (rotr 25 x).
Definition sigma0 (x : Z) : Z := Z.lxor (Z.lxor (rotr 7 x) (rotr 18 x)) (Z.shiftr x 3).
Definition sigma1 (x : Z) : Z := Z.lxor (Z.lxor (rotr 17 x) (rotr 19 x)) (Z.shiftr x 10).

(** The round constants and the initial hash value are the first 32 bits
    of the fractional parts of the cube roots of the first 64 primes and of
    the square roots of the first 8 primes. *)
Definition is_prime (n : Z) : bool :=
  forallb (fun d => negb (n mod d =? 0)) (map Z.of_nat (seq 2 (Z.to_nat n - 2))).

Definition primes : list Z :=
  Eval vm_compute in filter (fun n => is_prime n = true) (map Z.of_nat (seq 2 310)).

(** The largest [x] below [2^bits] with [x^3 <= n]. *)
Fixpoint cube_root (bits : nat) (n : Z) (x : Z) : Z :=
  match bits with
  | O => x
  | S b =>
      let y := x + 2 ^ Z.of_nat b in
      cube_root b n (if y * y * y <=? n then y else x)
  end.

Definition K : list Z :=
  Eval vm_compute in map (fun p => w32 (cube_root 36 (Z.shiftl p 96) 0)) primes.

Definition H0 : list Z :=
  Eval vm_compute in map (fun p => w32 (Z.sqrt (Z.shiftl p 64))) (take 8 primes).

(** Big-endian bytes of [x], [n] of them. *)
Fixpoint be_bytes (n : nat) (x : Z) : list Z :=
  match n with
  | O => []
  | S n' => be_bytes n' (Z.shiftr x 8) ++ [Z.land x 0xff]
  end.

Definition pad (msg : list Z) : list Z :=
  let len := Z.of_nat (length msg) in
  msg ++ [0x80] ++ repeat 0 (Z.to_nat ((55 - len) mod 64)) ++ be_bytes 8 (8 * len).

(** The message as 32-bit big-endian words. *)
Fixpoint words (bytes : list Z) : list Z :=
  match bytes with
  | b0 :: b1 :: b2 :: b3 :: rest =>
      (Z.shiftl b0 24 + Z.shiftl b1 16 + Z.shiftl b2 8 + b3) :: words rest
  | _ => []
  end.

(** Message schedule, most recent word first: [rev_w] holds
    [W(t-1), W(t-2), ...]. *)
Definition next_w (rev_w : list Z) : Z :=
  add32 (add32 (sigma1 (nth 1 rev_w 0)) (nth 6 rev_w 0))
        (add32 (sigma0 (nth 14 rev_w 0)) (nth 15 rev_w 0)).

Fixpoint extend (n : nat) (rev_w : list Z) : list Z :=
  match n with
  | O => rev_w
  | S n' => extend n' (next_w rev_w :: rev_w)
  end.

Definition schedule (block : list Z) : list Z := rev (extend 48 (rev block)).

Definition round (st : list Z) (kw : Z * Z) : list Z :=
  match st with
  | [a; b; c; d; e; f; g; h] =>
      let t1 := add32 (add32 (add32 h (Sigma1 e)) (add32 (Ch e f g) kw.1)) kw.2 in
      let t2 := add32 (Sigma0 a) (Maj a b c) in
      [add32 t1 t2; a; b; c; add32 d t1; e; f; g]
  | _ => st
  end.

Definition compress (h : list Z) (block : list Z) : list Z :=
  zip_with add32 h (fold_left round (zip K (schedule block)) h).

Fixpoint blocks (fuel : nat) (ws : list Z) : list (list Z) :=
  match fuel, ws with
  | S fuel', _ :: _ => take 16 ws :: blocks fuel' (drop 16 ws)
  | _, _ => []
  end.

Definition digest (msg : list Z) : list Z :=
  let ws := words (pad msg) in
  fold_left compress (blocks (length ws) ws) H0.

Definition hex_word (x : Z) : string :=
  fold_right (fun b acc =>
      String (Json.hex_digit (Z.to_N (b / 16)))
        (String (Json.hex_digit (Z.to_N (b mod 16))) acc))
    EmptyString (be_bytes 4 x).

(** [s.encode()] for a string of code points below 128 (which is what
    [json.dumps] produces). *)
Fixpoint encode (s : string) : list Z :=
  match s with
  | EmptyString => []
  | String c rest => Z.of_N (N_of_ascii c) :: encode rest
  end.

(** [hashlib.sha256(s.encode()).hexdigest()] *)
Definition hexdigest (s : string) : string :=
  fold_right (fun w acc => hex_word w +:+ acc) EmptyString (digest (encode s)).

End Sha256.

(* ====================================================================== *)
(** ** app/mcp/cache_manager.py *)
(* ====================================================================== *)
Module Cache.
Import Json.

(** The Redis server as the cache manager uses it (its [GET] and [SETEX]
    commands): a key holds a string and the instant, in milliseconds, at
    which it expires.  Time is an input of every command. *)
Record entry := { value : string; expires_at : Z }.

(** [GET key]: an expired key is removed on access and reported absent. *)
Definition redis_get (db : gmap string entry) (now : Z) (key : string)
    : option string * gmap string entry :=
  match db !! key with
  | Some e => if now <? expires_at e then (Some (value e), db) else (None, delete key db)
  | None => (None, db)
  end.

(** [SETEX key seconds value]: the server rejects a non-positive expire
    time ([None]); otherwise the key is overwritten, value and expiry. *)
Definition redis_setex (db : gmap string entry) (now : Z) (key : string)
    (seconds : Z) (v : string) : option (gmap string entry) :=
  if seconds <=? 0 then None
  else Some (<[key := {| value := v; expires_at := now + 1000 * seconds |}]> db).

Record MCPCacheManager := {
  default_ttl : Z;
  hit_count : Z;
  miss_count : Z
}.

(** [MCPCacheManager(redis_client)] with [default_ttl=3600]. *)
Definition new_manager : MCPCacheManager :=
  {| default_ttl := 3600; hit_count := 0; miss_count := 0 |}.

(** The string that is hashed:
    [json.dumps({"tool": .., "params": .., "context": ..}, sort_keys=True)]. *)
Definition cache_str (tool_name : string) (parameters context : list (string * json)) : string :=
  dumps true (JDict [("tool", JStr tool_name);
                     ("params", JDict parameters);
                     ("context", JDict context)]).

Definition _generate_cache_key (tool_name : string)
    (parameters context : list (string * json)) : string :=
  "mcp:cache:" +:+ Sha256.hexdigest (cache_str tool_name parameters context).

(** Python truthiness of a [str]. *)
Definition truthy (s : string) : bool :=
  match s with EmptyString => false | _ => true end.

(** What [get] hands back: the decoded payload, [None], or the
    [JSONDecodeError] of [json.loads]. *)
Inductive lookup := Found (payload : json) | NotFound | DecodeError.

Definition count_hit (self : MCPCacheManager) : MCPCacheManager :=
  {| default_ttl := default_ttl self; hit_count := hit_count self + 1;
     miss_count := miss_count self |}.
Definition count_miss (self : MCPCacheManager) : MCPCacheManager :=
  {| default_ttl := default_ttl self; hit_count := hit_count self;
     miss_count := miss_count self + 1 |}.

(** [ttl or self.default_ttl] *)
Definition effective_ttl (self : MCPCacheManager) (ttl : option Z) : Z :=
  match ttl with
  | Some t => if t =? 0 then default_ttl self else t
  | None => default_ttl self
  end.

Section WithDecoder.
(** [json.loads], with [None] for a text it rejects. *)
Variable json_loads : string -> option json.

Definition get (self : MCPCacheManager) (db : gmap string entry) (now : Z)
    (tool_name : string) (parameters context : list (string * json))
    : lookup * MCPCacheManager * gmap string entry :=
  let key := _generate_cache_key tool_name parameters context in
  let '(cached, db') := redis_get db now key in
  match cached with
  | Some text =>
      if truthy text then
        match json_loads text with
        | Some payload => (Found payload, count_hit self, db')
        | None => (DecodeError, count_hit self, db')
        end
      else (NotFound, count_miss self, db')
  | None => (NotFound, count_miss self, db')
  end.
End WithDecoder.

(** [set]: [None] when [SETEX] raises. *)
Definition set (self : MCPCacheManager) (db : gmap string entry) (now : Z)
    (tool_name : string) (parameters context : list (string * json))
    (result : json) (ttl : option Z) : option (gmap string entry) :=
  let key := _generate_cache_key tool_name parameters context in
  redis_setex db now key (effective_ttl self ttl) (dumps false result).

(** A decoder that knows one document, for running examples. *)
Definition loads_only (doc : json) (text : string) : option json :=
  if decide (text = dumps false doc) then Some doc else None.

End Cache.

(* ====================================================================== *)
(** ** app/mcp/service_mesh.py *)
(* ====================================================================== *)
Module Mesh.

Inductive NodeStatus := ONLINE | DEGRADED | OFFLINE.

#[export] Instance NodeStatus_eq_dec : EqDecision NodeStatus.
Proof. solve_decision. Defined.

Record NodeMetrics := { avg_latency : Float.float }.
Record MCPNode := { status : NodeStatus; metrics : NodeMetrics }.

(** What one [await self._ping_node(node)] does: it returns [is_healthy]
    after [latency] seconds, or it raises. *)
Inductive ping :=
  | Pong (is_healthy : bool) (latency : Q)
  | PingRaised.

(** The literals [0.9] and [0.1]: the floats nearest to 9/10 and 1/10. *)
Definition float_0_9 : Float.float := Eval vm_compute in Float.round (9 # 10).
Definition float_0_1 : Float.float := Eval vm_compute in Float.round (1 # 10).

(** The body of the [for] loop of [_check_all_nodes] for one node. *)
Definition check_node (p : ping) (node : MCPNode) : MCPNode :=
  match p with
  | Pong true latency =>
      let avg := Float.add (Float.mul float_0_9 (avg_latency (metrics node)))
                           (Float.mul float_0_1 (Float.Finite latency)) in
      {| status := if decide (status node = DEGRADED) then ONLINE else status node;
         metrics := {| avg_latency := avg |} |}
  | Pong false _ =>
      if decide (status node = ONLINE)
      then {| status := DEGRADED; metrics := metrics node |}
      else node
  | PingRaised =>
      if decide (status node <> OFFLINE)
      then {| status := OFFLINE; metrics := metrics node |}
      else node
  end.

(** What one probe does to the status of the node it probes. *)
Definition next_status (p : ping) (s : NodeStatus) : NodeStatus :=
  match p, s with
  | Pong true _, DEGRADED => ONLINE
  | Pong true _, _ => s
  | Pong false _, ONLINE => DEGRADED
  | Pong false _, _ => s
  | PingRaised, _ => OFFLINE
  end.

(** [_check_all_nodes]: every node of [self.nodes] is probed once;
    [pings] says how the probe of each node goes in this round. *)
Definition _check_all_nodes (pings : string -> ping)
    (nodes : gmap string MCPNode) : gmap string MCPNode :=
  map_imap (fun node_id node => Some (check_node (pings node_id) node)) nodes.

(** [_health_check_loop], one element of [rounds] per iteration. *)
Definition _health_check_loop (rounds : list (string -> ping))
    (nodes : gmap string MCPNode) : gmap string MCPNode :=
  fold_left (fun ns pings => _check_all_nodes pings ns) rounds nodes.

(** A probe that failed, one way or the other. *)
Definition failed (p : ping) : bool :=
  match p with
  | Pong true _ => false
  | _ => true
  end.

End Mesh.

(* ====================================================================== *)
(** ** The batch processor of app/mcp/learning_engine.py and
       app/mcp/orchestrator_enhanced.py *)
(* ====================================================================== *)
Module Learning.

(** Why a batch was handed to [_process_batch]. *)
Inductive trigger := BatchFull | IdleTimeout.

Section Processor.
Context {Rec : Type}.
(** [self.batch_size], [self.flush_interval] (in milliseconds) and the time
    [await self._process_batch(batch)] takes. *)
Variable batch_size : Z.
Variable flush_interval : Z.
Variable process_time : list Rec -> Z.

(** One call of [_process_batch]: when, on which records (each with the
    instant the processor took it from the queue), and why. *)
Record flush := {
  at_time : Z;
  records : list (Z * Rec);
  why : trigger
}.

(** The coroutine between two iterations of [while True]: the clock, the
    local [batch], the records put or still to be put on the queue, each
    with the instant of its [put], and the calls of [_process_batch] made
    so far. *)
Record state := {
  now : Z;
  batch : list (Z * Rec);
  queue : list (Z * Rec);
  processed : list flush
}.

(** [await self._process_batch(batch); batch = []] *)
Definition process (t : Z) (b : list (Z * Rec)) (reason : trigger)
    (q : list (Z * Rec)) (done : list flush) : state :=
  {| now := t + process_time (map snd b);
     batch := [];
     queue := q;
     processed := done ++ [{| at_time := t; records := b; why := reason |}] |}.

(** One iteration of the loop.  [wait_for(self.record_queue.get(),
    timeout=self.flush_interval)] yields the next record if it is put
    before the deadline, and raises [TimeoutError] at the deadline
    otherwise. *)
Definition iteration (st : state) : state :=
  let deadline := now st + flush_interval in
  match queue st with
  | (put_at, record) :: rest =>
      if put_at <? deadline then
        let t := Z.max (now st) put_at in
        let batch' := batch st ++ [(t, record)] in
        if Z.of_nat (length batch') >=? batch_size
        then process t batch' BatchFull rest (processed st)
        else {| now := t; batch := batch'; queue := rest; processed := processed st |}
      else
        match batch st with
        | [] => {| now := deadline; batch := []; queue := queue st;
                   processed := processed st |}
        | _ => process deadline (batch st) IdleTimeout (queue st) (processed st)
        end
  | [] =>
      match batch st with
      | [] => {| now := deadline; batch := []; queue := []; processed := processed st |}
      | _ => process deadline (batch st) IdleTimeout [] (processed st)
      end
  end.

(** [_batch_processor] after [n] iterations, started at [start] with the
    given schedule of [put]s. *)
Definition _batch_processor (n : nat) (start : Z) (puts : list (Z * Rec)) : state :=
  Nat.iter n iteration {| now := start; batch := []; queue := puts; processed := [] |}.

(** Instants at which the records of a batch were taken from the queue. *)
Definition taken_at (b : list (Z * Rec)) : list Z := map fst b.

(** Each record of the batch was taken less than [flush_interval] after
    the one before it. *)
Fixpoint closely_spaced (ts : list Z) : Prop :=
  match ts with
  | t1 :: ((t2 :: _) as rest) => t1 <= t2 < t1 + flush_interval /\ closely_spaced rest
  | _ => True
  end.

(** What holds of a call of [_process_batch]. *)
Definition flush_ok (f : flush) : Prop :=
  closely_spaced (taken_at (records f))
  /\ exists earlier t_last r_last,
       records f = earlier ++ [(t_last, r_last)]
       /\ match why f with
          | BatchFull =>
              at_time f = t_last
              /\ batch_size <= Z.of_nat (length (records f))
              /\ (Z.of_nat (length earlier) < batch_size \/ earlier = [])
          | IdleTimeout =>
              at_time f = t_last + flush_interval
              /\ Z.of_nat (length (records f)) < batch_size
          end.

(** What holds between two iterations: every batch processed so far is
    accounted for, and a pending batch is short of the batch size, closely
    spaced, and ends with the record taken at the current instant. *)
Definition pending_ok (st : state) : Prop :=
  batch st = []
  \/ (closely_spaced (taken_at (batch st))
      /\ Z.of_nat (length (batch st)) < batch_size
      /\ exists earlier r, batch st = earlier ++ [(now st, r)]).

Definition invariant (st : state) : Prop :=
  Forall flush_ok (processed st) /\ pending_ok st.

(** The records processed, those in the pending batch and those not yet
    taken from the queue, in this order. *)
Definition all_records (st : state) : list Rec :=
  map snd (concat (map records (processed st))) ++ map snd (batch st) ++ map snd (queue st).

End Processor.

Arguments flush : clear implicits.
Arguments state : clear implicits.

End Learning.

(* ====================================================================== *)
(** ** app/infra/llm/moe/moe_router.py: the gating network *)
(* ====================================================================== *)
Module Gating.

Section Network.
(** PyTorch, as far as [GatingNetwork.forward] uses it.  Tensors and the
    layers' arithmetic are left open; what is fixed is how each module
    depends on the [training] flag and on the random generator:
    [nn.BatchNorm1d] normalises with its running statistics in evaluation
    mode and with the batch's own (updating the running ones) in training
    mode; [nn.Dropout] is the identity in evaluation mode and draws a mask
    in training mode; [torch.randn_like] draws from the generator. *)
Context {Tensor Stats Rng : Type}.
Variables fc1 fc2 fc3 : Tensor -> Tensor.
Variable relu : Tensor -> Tensor.
Variable softmax : Tensor -> Tensor.
Variable add : Tensor -> Tensor -> Tensor.
Variable scale : Tensor -> Q -> Tensor.
Variable bn_running : Stats -> Tensor -> Tensor.
Variable bn_batch : Stats -> Tensor -> Tensor * Stats.
Variable dropout_mask : Rng -> Tensor -> Tensor * Rng.
Variable randn_like : Rng -> Tensor -> Tensor * Rng.

Record GatingNetwork := {
  training : bool;
  bn1 : Stats;
  bn2 : Stats
}.

(** [nn.Module.eval()] and [nn.Module.train()] *)
Definition eval (self : GatingNetwork) : GatingNetwork :=
  {| training := false; bn1 := bn1 self; bn2 := bn2 self |}.
Definition train (self : GatingNetwork) : GatingNetwork :=
  {| training := true; bn1 := bn1 self; bn2 := bn2 self |}.

Definition batch_norm (training : bool) (stats : Stats) (x : Tensor) : Tensor * Stats :=
  if training then bn_batch stats x else (bn_running stats x, stats).

Definition dropout (training : bool) (g : Rng) (x : Tensor) : Tensor * Rng :=
  if training then dropout_mask g x else (x, g).

(** The expert weights, the module after the call and the generator after
    the call. *)
Definition forward (self : GatingNetwork) (g : Rng) (context_embedding : Tensor)
    : Tensor * GatingNetwork * Rng :=
  (* Layer 1 *)
  let '(x, stats1) := batch_norm (training self) (bn1 self) (fc1 context_embedding) in
  let '(x, g) := dropout (training self) g (relu x) in
  (* Layer 2 *)
  let '(x, stats2) := batch_norm (training self) (bn2 self) (fc2 x) in
  let '(x, g) := dropout (training self) g (relu x) in
  (* Output *)
  let logits := fc3 x in
  (* Add exploration noise *)
  let '(logits, g) :=
    if training self then
      let '(noise, g') := randn_like g logits in
      (add logits (scale noise (1 # 10)), g')
    else (logits, g) in
  (* Softmax *)
  let weights := softmax logits in
  (weights, {| training := training self; bn1 := stats1; bn2 := stats2 |}, g).

End Network.

(** A network small enough to run: two experts, tensors are pairs of
    rationals, every layer but the last is the identity, the last
    normalises by the sum, and the generator is a stream of numbers.
    Only used in examples. *)
Definition toy_add (x y : Q * Q) : Q * Q := ((x.1 + y.1)%Q, (x.2 + y.2)%Q).
Definition toy_scale (x : Q * Q) (c : Q) : Q * Q := ((x.1 * c)%Q, (x.2 * c)%Q).
Definition toy_normalise (x : Q * Q) : Q * Q :=
  (Qred (x.1 / (x.1 + x.2)), Qred (x.2 / (x.1 + x.2))).
Definition toy_randn (g : list Q) (x : Q * Q) : (Q * Q) * list Q :=
  match g with
  | a :: b :: g' => ((a, b), g')
  | _ => ((0, 0)%Q, g)
  end.
Definition toy_forward (self : @GatingNetwork unit) (g : list Q) (x : Q * Q) :=
  forward id id id id toy_normalise toy_add toy_scale
    (fun _ x => x) (fun s x => (x, s)) (fun g x => (x, g)) toy_randn self g x.

End Gating.

(* ====================================================================== *)
(** ** app/infra/llm/moe/moe_router.py: top-K selection *)
(* ====================================================================== *)
Module Router.

Record Expert := { name : string; cost : Q }.

(** [a] is ranked before [b]: the higher score first, then the lower
    declared cost, then the alphabetically first name. *)
Definition before (a b : Expert * Q) : bool :=
  match (b.2 ?= a.2)%Q with
  | Lt => true
  | Gt => false
  | Eq =>
      match (cost a.1 ?= cost b.1)%Q with
      | Lt => true
      | Gt => false
      | Eq => String.leb (name a.1) (name b.1)
      end
  end.

Fixpoint insert_ranked (x : Expert * Q) (l : list (Expert * Q)) : list (Expert * Q) :=
  match l with
  | [] => [x]
  | y :: rest => if before x y then x :: l else y :: insert_ranked x rest
  end.

Definition rank (l : list (Expert * Q)) : list (Expert * Q) :=
  fold_right insert_ranked [] l.

Definition total (l : list Q) : Q := fold_right Qplus 0%Q l.

(** Modelled from the spec: [MixtureOfExpertsRouter] (the [Route]
    operation of section 4.2) is not among the sources, which only show
    how it is constructed and called.  The scores are the gating network's
    softmax output, one per candidate; the top [k] by rank are kept with
    their scores renormalised to sum to 1; the rest get weight zero.  The
    result lists the experts in rank order. *)
Definition Route (scores : list Q) (candidates : list Expert) (k : nat)
    : list (Expert * Q) :=
  let ranked := rank (zip candidates scores) in
  let selected := take k ranked in
  let sum := total (map snd selected) in
  map (fun es => (es.1, (es.2 / sum)%Q)) selected
  ++ map (fun es => (es.1, 0%Q)) (drop k ranked).

(** Modelled from the spec: the experts that are run for a request are
    those with a non-zero weight in the routing (the parallel expert calls
    of [route_and_generate], which is not among the sources either). *)
Definition invoked (routing : list (Expert * Q)) : list Expert :=
  map fst (filter (fun ew => negb (Qeq_bool ew.2 0)) routing).

End Router.

(* ====================================================================== *)
(** ** The retry policy at work: sleeps, and the orchestrator's use of it
       (app/mcp/orchestrator_enhanced.py) *)
(* ====================================================================== *)
Module Orchestrator.
Import Retry.

Section Traced.
(** Instrumentation of [asyncio.sleep]: the same world with the list of
    the delays slept so far. *)
Context {World R E : Type}.
Variable func : World -> (R + E) * World.
Variable random : World -> Q * World.
Variable sleep : Q -> World -> World.

Definition traced_func (wt : World * list Q) : (R + E) * (World * list Q) :=
  let '(o, w') := func wt.1 in (o, (w', wt.2)).
Definition traced_random (wt : World * list Q) : Q * (World * list Q) :=
  let '(r, w') := random wt.1 in (r, (w', wt.2)).
Definition traced_sleep (d : Q) (wt : World * list Q) : World * list Q :=
  (sleep d wt.1, wt.2 ++ [d]).
End Traced.

(** Every call raises an error the caller's predicate does not reject. *)
Definition always_failing {World R E} (func : World -> (R + E) * World)
    (should_retry : option (E -> bool)) : Prop :=
  forall w, exists e, (func w).1 = inr e /\ ~ rejected should_retry e.

Record ToolCall := {
  tool_name : string;
  parameters : list (string * Json.json);
  timeout : Q;
  retry_on_failure : bool
}.

(** What [execute_tool] raises: the [TimeoutError] it makes of
    [asyncio.TimeoutError], or what the tool executor raised. *)
Inductive tool_error (E : Type) :=
  | ToolTimedOut (after : Q)
  | ToolRaised (e : E).
Arguments ToolTimedOut {E} after.
Arguments ToolRaised {E} e.

Section Enhanced.
(** [executor] is [self.tool_executor.execute(name=.., payload=..,
    caller_role="orchestrator")]: it takes some time and returns or
    raises.  [is_retryable_error] is the orchestrator's classifier. *)
Context {World R E : Type}.
Variable executor : ToolCall -> World -> (Q * (R + E)) * World.
Variable random : World -> Q * World.
Variable sleep : Q -> World -> World.
Variable is_retryable_error : tool_error E -> bool.

(** The inner [execute_tool]: [asyncio.wait_for(.., timeout=call.timeout)]
    gives up when the executor has not finished within the timeout. *)
Definition execute_tool (call : ToolCall) (w : World) : (R + tool_error E) * World :=
  let '((duration, outcome), w') := executor call w in
  if Qle_bool (timeout call) duration then (inr (ToolTimedOut (timeout call)), w')
  else match outcome with
       | inl r => (inl r, w')
       | inr e => (inr (ToolRaised e), w')
       end.

(** [should_retry=is_retryable_error if call.retry_on_failure else None] *)
Definition should_retry_of (call : ToolCall) : option (tool_error E -> bool) :=
  if retry_on_failure call then Some is_retryable_error else None.

Definition _execute_tool_call_enhanced (retry_policy : RetryPolicy) (call : ToolCall)
    (w : World) : completion R (tool_error E) * World :=
  execute_with_retry_guide (execute_tool call) random sleep retry_policy
    (should_retry_of call) w.
(** The executor did not deliver: it overran the timeout or raised. *)
Definition tool_fails (call : ToolCall) (w : World) : Prop :=
  (timeout call <= (executor call w).1.1)%Q \/ exists e, (executor call w).1.2 = inr e.

(** Instrumentation: the same world with the number of times the executor
    has been invoked. *)
Definition counted_executor (call : ToolCall) (wn : World * nat)
    : (Q * (R + E)) * (World * nat) :=
  let '(res, w') := executor call wn.1 in (res, (w', S wn.2)).
Definition counted_random (wn : World * nat) : Q * (World * nat) :=
  let '(r, w') := random wn.1 in (r, (w', wn.2)).
Definition counted_sleep (d : Q) (wn : World * nat) : World * nat :=
  (sleep d wn.1, wn.2).
End Enhanced.

End Orchestrator.

(* ====================================================================== *)
(** ** The cache manager in use: statistics, sequences of calls *)
(* ====================================================================== *)
Module CacheOps.
Import Json Cache.

(** [get_stats]: the two counters and the hit rate,
    [self.hit_count / total if total > 0 else 0]. *)
Record stats := { stat_hits : Z; stat_misses : Z; hit_rate : Q }.

Definition get_stats (self : MCPCacheManager) : stats :=
  let total := hit_count self + miss_count self in
  {| stat_hits := hit_count self;
     stat_misses := miss_count self;
     hit_rate := if total >? 0 then (inject_Z (hit_count self) / inject_Z total)%Q else 0%Q |}.

(** A call of the cache manager, at some instant. *)
Inductive call :=
  | CallGet (now : Z) (tool_name : string) (parameters context : list (string * json))
  | CallSet (now : Z) (tool_name : string) (parameters context : list (string * json))
            (result : json) (ttl : option Z).

Definition is_get (c : call) : bool :=
  match c with CallGet _ _ _ _ => true | _ => false end.

Section WithDecoder.
Variable json_loads : string -> option json.

(** One call; a [set] that Redis rejects raises and changes nothing. *)
Definition perform (st : MCPCacheManager * gmap string entry) (c : call)
    : MCPCacheManager * gmap string entry :=
  match c with
  | CallGet now tool_name parameters context =>
      let '(_, self', db') := get json_loads st.1 st.2 now tool_name parameters context in
      (self', db')
  | CallSet now tool_name parameters context result ttl =>
      match set st.1 st.2 now tool_name parameters context result ttl with
      | Some db' => (st.1, db')
      | None => st
      end
  end.

Definition perform_all (st : MCPCacheManager * gmap string entry) (calls : list call)
    : MCPCacheManager * gmap string entry :=
  fold_left perform calls st.
End WithDecoder.

End CacheOps.

(* ====================================================================== *)
(** ** app/mcp/learning_engine.py: the keys of the persisted metrics *)
(* ====================================================================== *)
Module LearningStore.

(** [s.split(sep)] for a one-character separator. *)
Fixpoint split (sep : ascii) (s : string) : list string :=
  match s with
  | EmptyString => [EmptyString]
  | String c rest =>
      if Ascii.eqb c sep then EmptyString :: split sep rest
      else match split sep rest with
           | part :: parts => String c part :: parts
           | [] => [String c EmptyString]
           end
  end.

(** [l[-1]] for a non-empty list. *)
Definition last_part (l : list string) : string := List.last l EmptyString.

(** [f"mcp:learning:tool:{tool_name}"] and
    [f"mcp:learning:context:{context_key}"] of [_persist_to_redis]. *)
Definition tool_key (tool_name : string) : string := "mcp:learning:tool:" +:+ tool_name.
Definition context_key (context : string) : string := "mcp:learning:context:" +:+ context.

(** [tool_name = key.split(":")[-1]] of [_load_from_redis]. *)
Definition tool_name_of_key (key : string) : string := last_part (split ":" key).

(** The character does not occur in the string. *)
Fixpoint free_of (c : ascii) (s : string) : Prop :=
  match s with
  | EmptyString => True
  | String c' rest => c' <> c /\ free_of c rest
  end.

End LearningStore.

(* ====================================================================== *)
(** ** app/ai_core/constitutional/constitutional_ai.py: the generation
       loop as given in the release notes *)
(* ====================================================================== *)
Module Constitutional.

Section Generate.
(** The language model is a pair of stateful operations, [llm.critique]
    and [llm.revise]; [weighted_average] scores a round of critiques and
    [aligned] reads the [aligned] attribute of a critique. *)
Context {World Response Principle Critique : Type}.
Variable critique : Response -> Principle -> World -> Critique * World.
Variable revise : Response -> list Critique -> World -> Response * World.
Variable weighted_average : list Critique -> Q.
Variable aligned : Critique -> bool.

(** [constitution.principles], [max_iterations] and [threshold]. *)
Record settings := {
  principles : list Principle;
  max_iterations : Z;
  threshold : Q
}.

(** [for principle in constitution.principles: critiques.append(
    llm.critique(response, principle))] *)
Fixpoint critique_all (response : Response) (ps : list Principle) (w : World)
    : list Critique * World :=
  match ps with
  | [] => ([], w)
  | p :: rest =>
      let '(c, w1) := critique response p w in
      let '(cs, w2) := critique_all response rest w1 in
      (c :: cs, w2)
  end.

(** The body of [for iteration in range(max_iterations)], followed by the
    final [return response]. *)
Fixpoint generate_loop (cfg : settings) (iterations : list Z) (response : Response)
    (w : World) : Response * World :=
  match iterations with
  | [] => (response, w)
  | _ :: rest =>
      let '(critiques, w1) := critique_all response (principles cfg) w in
      let alignment_score := weighted_average critiques in
      if Qle_bool (threshold cfg) alignment_score then (response, w1)
      else
        let violations := filter (fun c => aligned c = false) critiques in
        let '(response', w2) := revise response violations w1 in
        generate_loop cfg rest response' w2
  end.

Definition constitutional_generate (cfg : settings) (initial_response : Response)
    (w : World) : Response * World :=
  generate_loop cfg (py_range (max_iterations cfg)) initial_response w.

(** Instrumentation: the same world with the number of critiques and of
    revisions asked of the model so far. *)
Definition counted_critique (response : Response) (p : Principle)
    (wn : World * (nat * nat)) : Critique * (World * (nat * nat)) :=
  let '(c, w') := critique response p wn.1 in (c, (w', (S wn.2.1, wn.2.2))).
Definition counted_revise (response : Response) (violations : list Critique)
    (wn : World * (nat * nat)) : Response * (World * (nat * nat)) :=
  let '(r, w') := revise response violations wn.1 in (r, (w', (wn.2.1, S wn.2.2))).

(** The score the model would give [response] in world [w]. *)
Definition score_of (cfg : settings) (response : Response) (w : World) : Q :=
  weighted_average (critique_all response (principles cfg) w).1.
End Generate.

End Constitutional.

(* ====================================================================== *)
(** ** app/mcp/ab_testing.py *)
(* ====================================================================== *)
Module ABTesting.

(** An entry of [self.experiments]: the variants with their share of the
    traffic and the values recorded per variant, both in the order of the
    [variants] dict. *)
Record experiment := {
  variants : list (string * Q);
  metric : string;
  results : list (string * list Q)
}.

(** What a method returns or raises. *)
Inductive outcome (A : Type) :=
  | Ok (a : A)
  | KeyError
  | IndexError.
Arguments Ok {A} a.
Arguments KeyError {A}.
Arguments IndexError {A}.

Definition create_experiment (experiments : gmap string experiment)
    (experiment_id : string) (vs : list (string * Q)) (m : string)
    : gmap string experiment :=
  <[experiment_id := {| variants := vs; metric := m;
                        results := map (fun v => (v.1, [])) vs |}]> experiments.

(** The loop of [get_variant]: the first variant whose running total of
    traffic exceeds [percentage].  The total is kept as the code keeps it,
    a float that each [cumulative += traffic] rounds. *)
Fixpoint first_above (percentage cumulative : Float.float) (vs : list (string * Q))
    : option string :=
  match vs with
  | [] => None
  | (variant, traffic) :: rest =>
      let cumulative := Float.add cumulative (Float.Finite traffic) in
      if Float.ltb percentage cumulative then Some variant
      else first_above percentage cumulative rest
  end.

Section WithHash.
(** [int(hashlib.md5(user_id.encode()).hexdigest(), 16)] *)
Variable md5_int : string -> Z.

(** [(hash_value % 100) / 100.0] *)
Definition percentage_of (user_id : string) : Float.float :=
  Float.round (inject_Z (md5_int user_id mod 100) / 100).

Definition get_variant (experiments : gmap string experiment)
    (experiment_id user_id : string) : outcome string :=
  let percentage := percentage_of user_id in
  match experiments !! experiment_id with
  | None => KeyError
  | Some e =>
      match first_above percentage (Float.Finite 0) (variants e) with
      | Some variant => Ok variant
      | None =>
          match variants e with
          | (variant, _) :: _ => Ok variant
          | [] => IndexError
          end
      end
  end.
End WithHash.

(** What [cumulative] holds after the loop has passed the variants [vs]:
    the shares added up from the left, each sum rounded. *)
Definition running_total (vs : list (string * Q)) : Float.float :=
  fold_left (fun cumulative v => Float.add cumulative (Float.Finite v.2)) vs (Float.Finite 0).

End ABTesting.

(* ====================================================================== *)
(** ** app/mcp/dynamic_tools.py: the security check of generated code *)
(* ====================================================================== *)
Module DynamicTools.

(** The part of Python's syntax tree the check looks at.  [Other] stands
    for every other kind of node, with its child nodes; [Import] and
    [ImportFrom] carry the [name] of each alias. *)
Unset Elimination Schemes.
Inductive node :=
  | Call (func : node) (args : list node)
  | Name (id : string)
  | Attribute (value : node) (attr : string)
  | Import (names : list string)
  | ImportFrom (module : option string) (names : list string)
  | Other (children : list node).
Set Elimination Schemes.

Definition dangerous_operations : list string :=
  ["open"; "file"; "read"; "write";
   "os"; "sys"; "subprocess"; "eval"; "exec"; "compile";
   "socket"; "urllib"; "requests"; "http";
   "__import__"; "importlib";
   "getattr"; "setattr"; "delattr"; "globals"; "locals"].

Definition allowed_imports : list string :=
  ["math"; "datetime"; "json"; "typing"; "dataclasses"; "enum"; "collections"].

(** [s.split(".")[0]] *)
Fixpoint first_part (s : string) : string :=
  match s with
  | EmptyString => EmptyString
  | String c rest => if Ascii.eqb c "." then EmptyString else String c (first_part rest)
  end.

(** [s.startswith("_")] *)
Definition starts_with_underscore (s : string) : bool :=
  match s with
  | String c _ => Ascii.eqb c "_"
  | EmptyString => false
  end.

Definition member (s : string) (l : list string) : bool :=
  existsb (String.eqb s) l.

(** [module or alias.name] *)
Definition import_name (module : option string) (alias : string) : string :=
  match module with
  | Some m => if String.eqb m EmptyString then alias else m
  | None => alias
  end.

(** The three checks of the loop body on one node; [false] is the
    [return False]. *)
Definition node_ok (n : node) : bool :=
  match n with
  | Call (Name id) _ => negb (member id dangerous_operations)
  | Import names =>
      forallb (fun alias => member (first_part (import_name None alias)) allowed_imports) names
  | ImportFrom module names =>
      forallb (fun alias => member (first_part (import_name module alias)) allowed_imports) names
  | Attribute _ attr => negb (starts_with_underscore attr)
  | _ => true
  end.

(** [ast.walk(tree)]: the node and all its descendants (listed depth
    first here, breadth first by [ast.walk]; the check looks at every node
    and its answer does not depend on the order). *)
Fixpoint walk (n : node) : list node :=
  n :: match n with
       | Call func args => walk func ++ flat_map walk args
       | Attribute value _ => walk value
       | Other children => flat_map walk children
       | _ => []
       end.

Section WithParser.
(** [ast.parse], with [None] for a [SyntaxError]. *)
Variable parse : string -> option node.

Definition _validate_code_security (code : string) : bool :=
  match parse code with
  | None => false
  | Some tree => forallb node_ok (walk tree)
  end.
End WithParser.

End DynamicTools.

(* ====================================================================== *)
(** ** The cache in front of a tool call (app/mcp/cache_manager.py and
       app/mcp/orchestrator_enhanced.py as given in the guide) *)
(* ====================================================================== *)
Module CachedCall.
Import Json Cache.

(** Python truthiness of a decoded JSON value. *)
Definition py_truthy (j : json) : bool :=
  match j with
  | JNone => false
  | JBool b => b
  | JInt n => negb (n =? 0)
  | JStr s => truthy s
  | JList l => match l with [] => false | _ => true end
  | JDict d => match d with [] => false | _ => true end
  end.

(** How a cached tool call went. *)
Inductive served (E : Type) :=
  | FromCache (payload : json)
  | Executed (result : json)
  | ToolFailed (e : E)
  | CacheUnreadable.
Arguments FromCache {E} payload.
Arguments Executed {E} result.
Arguments ToolFailed {E} e.
Arguments CacheUnreadable {E}.

Section WithDecoder.
Variable json_loads : string -> option json.

(** [get_tool_result]: as [get], but only hits are counted. *)
Definition get_tool_result (self : MCPCacheManager) (db : gmap string entry) (now : Z)
    (tool_name : string) (parameters context : list (string * json))
    : lookup * MCPCacheManager * gmap string entry :=
  let key := _generate_cache_key tool_name parameters context in
  let '(cached, db') := redis_get db now key in
  match cached with
  | Some text =>
      if truthy text then
        match json_loads text with
        | Some payload => (Found payload, count_hit self, db')
        | None => (DecodeError, count_hit self, db')
        end
      else (NotFound, self, db')
  | None => (NotFound, self, db')
  end.

(** [set_tool_result]: the [ttl] goes to [SETEX] as it is. *)
Definition set_tool_result (db : gmap string entry) (now : Z)
    (tool_name : string) (parameters context : list (string * json))
    (result : json) (ttl : Z) : option (gmap string entry) :=
  let key := _generate_cache_key tool_name parameters context in
  redis_setex db now key ttl (dumps false result).

(** [_execute_tool_call_enhanced] with a cache manager: look the call up,
    [if cached_result: return cached_result], otherwise run the tool and
    store its result with [ttl=600]. *)
Definition _execute_tool_call_cached {World E : Type}
    (execute_tool : World -> (json + E) * World)
    (self : MCPCacheManager) (db : gmap string entry) (w : World) (now : Z)
    (tool_name : string) (parameters context : list (string * json))
    : served E * (MCPCacheManager * gmap string entry * World) :=
  let '(cached_result, self1, db1) :=
    get_tool_result self db now tool_name parameters context in
  let run_tool :=
    let '(outcome, w1) := execute_tool w in
    match outcome with
    | inl result =>
        match set_tool_result db1 now tool_name parameters context result 600 with
        | Some db2 => (Executed result, (self1, db2, w1))
        | None => (Executed result, (self1, db1, w1))
        end
    | inr e => (ToolFailed e, (self1, db1, w1))
    end in
  match cached_result with
  | Found payload =>
      if py_truthy payload then (FromCache payload, (self1, db1, w)) else run_tool
  | NotFound => run_tool
  | DecodeError => (CacheUnreadable, (self1, db1, w))
  end.
End WithDecoder.

End CachedCall.

(* ====================================================================== *)
(** ** Sample data for the examples *)
(* ====================================================================== *)

Definition sample_params : list (string * Json.json) :=
  [("q", Json.JStr ("a" +:+ Json.dquote +:+ "b\c" +:+
                    String "010" (String "127" (String "233" EmptyString))));
   ("n", Json.JInt (-12));
   ("deep", Json.JDict [("z", Json.JList [Json.JInt 1; Json.JBool true; Json.JNone]);
                        ("a", Json.JDict [])])].
Definition sample_params' : list (string * Json.json) :=
  [("deep", Json.JDict [("a", Json.JDict []);
                        ("z", Json.JList [Json.JInt 1; Json.JBool true; Json.JNone])]);
   ("n", Json.JInt (-12));
   ("q", Json.JStr ("a" +:+ Json.dquote +:+ "b\c" +:+
                    String "010" (String "127" (String "233" EmptyString))))].
Definition sample_context : list (string * Json.json) :=
  [("user", Json.JStr "u1"); ("flags", Json.JList [])].
Definition sample_context' : list (string * Json.json) :=
  [("flags", Json.JList []); ("user", Json.JStr "u1")].

Definition sample_result : Json.json :=
  Json.JDict [("ok", Json.JBool true); ("rows", Json.JList [Json.JInt 1; Json.JInt 2])].

Definition sample_entry : Cache.entry :=
  {| Cache.value := Json.dumps false sample_result; Cache.expires_at := 0 + 1000 * 600 |}.

Definition sample_db : gmap string Cache.entry :=
  <[Cache._generate_cache_key "search" sample_params sample_context := sample_entry]> ∅.

Definition sample_node : Mesh.MCPNode :=
  {| Mesh.status := Mesh.ONLINE;
     Mesh.metrics := {| Mesh.avg_latency := Mesh.float_0_1 |} |}.
Definition sample_nodes : gmap string Mesh.MCPNode := {[ "node-a" := sample_node ]}.

(** The six experts of the release notes, at unit cost, with weights as a
    softmax might give them. *)
Definition sample_experts : list Router.Expert :=
  map (fun n => {| Router.name := n; Router.cost := 1 |})
    ["discovery"; "objection"; "closing"; "rapport"; "technical"; "pricing"].
Definition sample_scores : list Q :=
  [(1 # 10)%Q; (3 # 10)%Q; (1 # 20)%Q; (1 # 4)%Q; (1 # 5)%Q; (1 # 10)%Q].

(** Every code point from 0 to 255, in order. *)
Definition all_chars : string :=
  String.string_of_list_ascii (map ascii_of_nat (seq 0 256)).

(** A policy that allows 1100 retries, the rest as the defaults. *)
Definition patient_policy : Retry.RetryPolicy :=
  {| Retry.max_retries := 1100; Retry.base_delay := 1; Retry.max_delay := 60;
     Retry.exponential_base := 2; Retry.jitter := true |}.

(** A policy without jitter, a callable that raises at every call and a
    tool executor that raises at every call after 2 seconds. *)
Definition plain_policy : Retry.RetryPolicy :=
  {| Retry.max_retries := 3; Retry.base_delay := 1; Retry.max_delay := 5;
     Retry.exponential_base := 2; Retry.jitter := false |}.
Definition broken (w : nat) : (nat + nat) * nat := (inr w, S w).
Definition sample_call : Orchestrator.ToolCall :=
  {| Orchestrator.tool_name := "search"; Orchestrator.parameters := [];
     Orchestrator.timeout := 30; Orchestrator.retry_on_failure := false |}.
Definition broken_executor (call : Orchestrator.ToolCall) (w : nat)
    : (Q * (nat + nat)) * nat := ((2%Q, inr w), S w).

(** A second call of the cache, with another tool name. *)
Definition other_entry : Cache.entry :=
  {| Cache.value := Json.dumps false Json.JNone; Cache.expires_at := 0 + 1000 * 60 |}.

(** Rounds of probes for the sample node: healthy in 0.3 s, and failing. *)
Definition healthy_round (node_id : string) : Mesh.ping := Mesh.Pong true (3 # 10).
Definition unhealthy_round (node_id : string) : Mesh.ping := Mesh.Pong false (1 # 5).
Definition slow_round (node_id : string) : Mesh.ping := Mesh.Pong true (1 # 2).
Definition offline_node : Mesh.MCPNode :=
  {| Mesh.status := Mesh.OFFLINE;
     Mesh.metrics := {| Mesh.avg_latency := Mesh.float_0_1 |} |}.

(** An experiment with three variants and a hash that gives 42 for every
    user. *)
Definition sample_experiment : ABTesting.experiment :=
  {| ABTesting.variants := [("control", (1 # 2)%Q); ("conservative", (3 # 10)%Q);
                            ("aggressive", (1 # 5)%Q)];
     ABTesting.metric := "quality";
     ABTesting.results := [("control", []); ("conservative", []); ("aggressive", [])] |}.
Definition sample_hash (user_id : string) : Z := 42.

(** An experiment whose shares are the floats 0.1, 0.2 and 0.7. *)
Definition rounded_experiment : ABTesting.experiment :=
  {| ABTesting.variants := [("a", Float.value (Float.round (1 # 10)));
                            ("b", Float.value (Float.round (2 # 10)));
                            ("c", Float.value (Float.round (7 # 10)))];
     ABTesting.metric := "quality";
     ABTesting.results := [("a", []); ("b", []); ("c", [])] |}.

(* ====================================================================== *)
(** * Properties *)
(* ====================================================================== *)

(** ** Float arithmetic: rounding keeps the order and its own results *)
Section FloatFacts.
Import Float.

Lemma pow2_pos e : (0 < pow2 e)%Q.
Proof. by apply Qpower_0_lt. Qed.

Lemma pow2_add a b : (pow2 (a + b) == pow2 a * pow2 b)%Q.
Proof. by apply Qpower_plus. Qed.

Lemma pow2_succ a : (pow2 (a + 1) == 2 * pow2 a)%Q.
Proof. rewrite pow2_add. unfold pow2 at 2. simpl. ring. Qed.

Lemma pow2_le a b : a <= b -> (pow2 a <= pow2 b)%Q.
Proof. intros H. by apply Qpower_le_compat_l. Qed.

Lemma pow2_lt a b : a < b -> (pow2 a < pow2 b)%Q.
Proof. intros H. by apply Qpower_lt_compat_l. Qed.

Lemma pow2_lt_inv a b : (pow2 a < pow2 b)%Q -> a < b.
Proof. intros H. by apply (Qpower_lt_compat_l_inv 2). Qed.

Lemma pow2_inject n : 0 <= n -> (inject_Z (2 ^ n) == pow2 n)%Q.
Proof. intros H. by rewrite Zpower_Qpower. Qed.

Lemma rne_bounds x : Qfloor x <= rne x <= Qfloor x + 1.
Proof.
  unfold rne. destruct (Qcompare _ _); [destruct (Z.even _)| |]; lia.
Qed.

Lemma rne_Z n : rne (inject_Z n) = n.
Proof.
  unfold rne. rewrite Qfloor_Z.
  destruct (Qcompare_spec (inject_Z n - inject_Z n) (1 # 2)) as [H|H|H]; [|done|]; exfalso; lra.
Qed.

Lemma rne_monotone x y : (x <= y)%Q -> rne x <= rne y.
Proof.
  intros Hxy. pose proof (Qfloor_resp_le x y Hxy) as Hf.
  destruct (decide (Qfloor x = Qfloor y)) as [Heq|Hne].
  - unfold rne. rewrite <- Heq.
    destruct (Qcompare_spec (x - inject_Z (Qfloor x)) (1 # 2)) as [Hx|Hx|Hx];
      destruct (Qcompare_spec (y - inject_Z (Qfloor x)) (1 # 2)) as [Hy|Hy|Hy];
      try destruct (Z.even (Qfloor x)); try lia; exfalso; lra.
  - pose proof (rne_bounds x). pose proof (rne_bounds y). lia.
Qed.

Lemma rne_le_Z x n : (x <= inject_Z n)%Q -> rne x <= n.
Proof. intros H. rewrite <- (rne_Z n). by apply rne_monotone. Qed.

Lemma rne_ge_Z x n : (inject_Z n <= x)%Q -> n <= rne x.
Proof. intros H. rewrite <- (rne_Z n). by apply rne_monotone. Qed.

Lemma expo_spec x : (0 < x)%Q -> (pow2 (expo x) <= x < pow2 (expo x + 1))%Q.
Proof.
  intros Hx. destruct x as [n d]. assert (Hn : 0 < n) by (unfold Qlt in Hx; simpl in Hx; lia).
  unfold expo. cbn [Qnum Qden].
  set (ln := Z.log2 n). set (ld := Z.log2 (Z.pos d)).
  destruct (Z.log2_spec n Hn) as [Hn1 Hn2]. fold ln in Hn1, Hn2.
  destruct (Z.log2_spec (Z.pos d) ltac:(lia)) as [Hd1 Hd2]. fold ld in Hd1, Hd2.
  assert (Hln : 0 <= ln) by apply Z.log2_nonneg.
  assert (Hld : 0 <= ld) by apply Z.log2_nonneg.
  assert (HN1 : (pow2 ln <= inject_Z n)%Q).
  { rewrite <- pow2_inject; [|done]. by rewrite <- Zle_Qle. }
  assert (HN2 : (inject_Z n < 2 * pow2 ln)%Q).
  { rewrite <- pow2_succ, <- pow2_inject; [|lia]. rewrite <- Zlt_Qlt. by rewrite <- Z.add_1_r in Hn2. }
  assert (HD1 : (pow2 ld <= inject_Z (Z.pos d))%Q).
  { rewrite <- pow2_inject; [|done]. by rewrite <- Zle_Qle. }
  assert (HD2 : (inject_Z (Z.pos d) < 2 * pow2 ld)%Q).
  { rewrite <- pow2_succ, <- pow2_inject; [|lia]. rewrite <- Zlt_Qlt. by rewrite <- Z.add_1_r in Hd2. }
  assert (Hx' : ((n # d) * inject_Z (Z.pos d) == inject_Z n)%Q).
  { rewrite (Qmake_Qdiv n d). field. intros H. unfold Qeq in H. simpl in H. lia. }
  pose proof (pow2_pos ln) as Pln. pose proof (pow2_pos ld) as Pld.
  pose proof (pow2_pos (ln - ld)) as Pe.
  assert (He : (pow2 (ln - ld) * pow2 ld == pow2 ln)%Q).
  { rewrite <- pow2_add. by replace (ln - ld + ld) with ln by lia. }
  set (X := (n # d)%Q) in *. set (D := inject_Z (Z.pos d)) in *. set (N := inject_Z n) in *.
  set (A := pow2 ln) in *. set (B := pow2 ld) in *. set (P := pow2 (ln - ld)) in *.
  assert (Hup : (X < 2 * P)%Q) by nra.
  assert (Hlo : (P < 2 * X)%Q) by nra.
  destruct (Qle_bool P X) eqn:Hc.
  - apply Qle_bool_iff in Hc. split; [done|]. rewrite pow2_succ. by fold P.
  - assert (Hlt : (X < P)%Q).
    { apply Qnot_le_lt. intros H. apply Qle_bool_iff in H. congruence. }
    replace (ln - ld - 1 + 1) with (ln - ld) by lia. fold P. split; [|done].
    assert (Hh : (2 * pow2 (ln - ld - 1) == P)%Q).
    { rewrite <- pow2_succ. by replace (ln - ld - 1 + 1) with (ln - ld) by lia. }
    lra.
Qed.

Lemma expo_unique x e : (pow2 e <= x < pow2 (e + 1))%Q -> expo x = e.
Proof.
  intros [H1 H2]. assert (Hx : (0 < x)%Q) by (pose proof (pow2_pos e); lra).
  destruct (expo_spec x Hx) as [H3 H4].
  assert (e < expo x + 1) by (apply pow2_lt_inv; lra).
  assert (expo x < e + 1) by (apply pow2_lt_inv; lra).
  lia.
Qed.

Lemma expo_monotone x y : (0 < x)%Q -> (x <= y)%Q -> expo x <= expo y.
Proof.
  intros Hx Hxy. destruct (expo_spec x Hx) as [H1 _].
  destruct (expo_spec y ltac:(lra)) as [_ H2].
  assert (expo x < expo y + 1) by (apply pow2_lt_inv; lra). lia.
Qed.


Lemma pow2_scale e k : 0 <= k -> (pow2 e == inject_Z (2 ^ k) * pow2 (e - k))%Q.
Proof.
  intros Hk. rewrite pow2_inject by done. rewrite <- pow2_add.
  by replace (k + (e - k)) with e by lia.
Qed.

Lemma scaled_le x u n :
  (0 < u)%Q -> (x <= inject_Z n * u)%Q -> (inject_Z (rne (x / u)) * u <= inject_Z n * u)%Q.
Proof.
  intros Hu Hx. apply Qmult_le_compat_r; [|lra].
  rewrite <- Zle_Qle. apply rne_le_Z. by apply Qle_shift_div_r.
Qed.

Lemma scaled_ge x u n :
  (0 < u)%Q -> (inject_Z n * u <= x)%Q -> (inject_Z n * u <= inject_Z (rne (x / u)) * u)%Q.
Proof.
  intros Hu Hx. apply Qmult_le_compat_r; [|lra].
  rewrite <- Zle_Qle. apply rne_ge_Z. by apply Qle_shift_div_l.
Qed.

Lemma round_abs_nonneg x : (0 <= x)%Q -> (0 <= round_abs x)%Q.
Proof.
  intros Hx. unfold round_abs.
  set (u := pow2 _). pose proof (pow2_pos (Z.max (expo x) (-1022) - 52)) as Hu. fold u in Hu.
  pose proof (scaled_ge x u 0 Hu) as H. simpl in H.
  assert (H0 : (inject_Z 0 * u == 0)%Q) by ring.
  rewrite H0 in H. apply H. done.
Qed.

Lemma round_abs_zero x : (x == 0)%Q -> (round_abs x == 0)%Q.
Proof.
  intros Hx. unfold round_abs.
  set (u := pow2 _). pose proof (pow2_pos (Z.max (expo x) (-1022) - 52)) as Hu. fold u in Hu.
  pose proof (scaled_ge x u 0 Hu) as H1. pose proof (scaled_le x u 0 Hu) as H2.
  assert (H0 : (inject_Z 0 * u == 0)%Q) by ring.
  rewrite H0 in H1, H2. apply Qle_antisym; [apply H2|apply H1]; lra.
Qed.

Lemma round_abs_monotone x y :
  (0 <= x)%Q -> (x <= y)%Q -> (round_abs x <= round_abs y)%Q.
Proof.
  intros Hx Hxy.
  destruct (Qlt_le_dec 0 x) as [Hpos|Hzero].
  2: { rewrite (round_abs_zero x) by lra. apply round_abs_nonneg. lra. }
  pose proof (expo_monotone x y Hpos Hxy) as He.
  destruct (expo_spec x Hpos) as [_ Hxu]. destruct (expo_spec y ltac:(lra)) as [Hyl _].
  unfold round_abs.
  set (ex := Z.max (expo x) (-1022)). set (ey := Z.max (expo y) (-1022)).
  pose proof (pow2_pos (ex - 52)) as Hux. pose proof (pow2_pos (ey - 52)) as Huy.
  destruct (decide (ex = ey)) as [Heq|Hne].
  - rewrite <- Heq. apply Qmult_le_compat_r; [|lra].
    rewrite <- Zle_Qle. apply rne_monotone.
    apply Qle_shift_div_l; [done|].
    assert (H : (x / pow2 (ex - 52) * pow2 (ex - 52) == x)%Q) by (field; lra).
    by rewrite H.
  - assert (Hlt : ex < ey) by lia. assert (Hey : ey = expo y) by lia.
    assert (H53 : (pow2 (ex + 1) == inject_Z (2 ^ 53) * pow2 (ex - 52))%Q).
    { rewrite (pow2_scale (ex + 1) 53) by lia. by replace (ex + 1 - 53) with (ex - 52) by lia. }
    assert (H52 : (pow2 ey == inject_Z (2 ^ 52) * pow2 (ey - 52))%Q)
      by (apply pow2_scale; lia).
    pose proof (pow2_le (expo x + 1) (ex + 1) ltac:(lia)) as Hxe.
    pose proof (pow2_le (ex + 1) ey ltac:(lia)) as Hxy'.
    pose proof (scaled_le x (pow2 (ex - 52)) (2 ^ 53) Hux ltac:(lra)) as H1.
    pose proof (scaled_ge y (pow2 (ey - 52)) (2 ^ 52) Huy) as H2.
    rewrite <- H52 in H2. rewrite <- Hey in Hyl. specialize (H2 Hyl). lra.
Qed.

Lemma round_not_nan x : round x <> NaN.
Proof. unfold round. by repeat case_match. Qed.

Lemma round_monotone x y : (x <= y)%Q -> le (round x) (round y).
Proof.
  intros Hxy. unfold round.
  destruct (Qle_bool 0 x) eqn:Hx0; destruct (Qle_bool 0 y) eqn:Hy0.
  - apply Qle_bool_iff in Hx0. pose proof (round_abs_monotone x y Hx0 Hxy) as Hm.
    destruct (Qle_bool (pow2 1024) (round_abs y)) eqn:Hoy; [by case_match|].
    assert (Hfy : ~ (pow2 1024 <= round_abs y)%Q) by (rewrite <- Qle_bool_iff; congruence).
    destruct (Qle_bool (pow2 1024) (round_abs x)) eqn:Hox.
    + apply Qle_bool_iff in Hox. exfalso. apply Hfy. lra.
    + simpl. by rewrite !Qred_correct.
  - apply Qle_bool_iff in Hx0.
    assert (~ (0 <= y)%Q) by (rewrite <- Qle_bool_iff; congruence). exfalso; lra.
  - assert (Hx : ~ (0 <= x)%Q) by (rewrite <- Qle_bool_iff; congruence).
    apply Qle_bool_iff in Hy0.
    pose proof (round_abs_nonneg (- x) ltac:(lra)). pose proof (round_abs_nonneg y Hy0).
    repeat case_match; simpl; try done. rewrite !Qred_correct. lra.
  - assert (Hx : ~ (0 <= x)%Q) by (rewrite <- Qle_bool_iff; congruence).
    assert (Hy : ~ (0 <= y)%Q) by (rewrite <- Qle_bool_iff; congruence).
    pose proof (round_abs_monotone (- y) (- x) ltac:(lra) ltac:(lra)) as Hm.
    destruct (Qle_bool (pow2 1024) (round_abs (- x))) eqn:Hox; [by case_match|].
    assert (Hfx : ~ (pow2 1024 <= round_abs (- x))%Q) by (rewrite <- Qle_bool_iff; congruence).
    destruct (Qle_bool (pow2 1024) (round_abs (- y))) eqn:Hoy.
    + apply Qle_bool_iff in Hoy. exfalso. apply Hfx. lra.
    + simpl. rewrite !Qred_correct. lra.
Qed.


Lemma rne_proper x y : (x == y)%Q -> rne x = rne y.
Proof.
  intros H. apply Z.le_antisymm; apply rne_monotone; lra.
Qed.

Lemma rne_scaled m u : (0 < u)%Q -> rne (inject_Z m * u / u) = m.
Proof.
  intros Hu. rewrite <- (rne_Z m) at 2. apply rne_proper. field. lra.
Qed.

Lemma round_abs_at y e m :
  Z.max (expo y) (-1022) = e ->
  (y == inject_Z m * pow2 (e - 52))%Q ->
  (round_abs y == y)%Q.
Proof.
  intros He Hy. unfold round_abs. rewrite He.
  pose proof (pow2_pos (e - 52)) as Hu.
  rewrite (rne_proper _ (inject_Z m * pow2 (e - 52) / pow2 (e - 52))).
  - rewrite rne_scaled by done. by rewrite Hy.
  - by rewrite Hy.
Qed.

Lemma round_abs_idempotent x : (0 <= x)%Q -> (round_abs (round_abs x) == round_abs x)%Q.
Proof.
  intros Hx0.
  destruct (Qlt_le_dec 0 (round_abs x)) as [Hy|Hy].
  2: { pose proof (round_abs_nonneg x Hx0).
       assert (Hz : (round_abs x == 0)%Q) by lra.
       rewrite (round_abs_zero _ Hz). lra. }
  assert (Hx : (0 < x)%Q).
  { destruct (Qlt_le_dec 0 x) as [H|H]; [done|].
    rewrite (round_abs_zero x) in Hy by lra. lra. }
  destruct (expo_spec x Hx) as [Hxl Hxu].
  revert Hy. unfold round_abs at 1 3 4.
  remember (Z.max (expo x) (-1022)) as e eqn:Ee.
  remember (pow2 (e - 52)) as u eqn:Eu. remember (rne (x / u)) as m eqn:Em.
  intros Hy. pose proof (pow2_pos (e - 52)) as Hu. rewrite <- Eu in Hu.
  assert (H53 : (pow2 (e + 1) == inject_Z (2 ^ 53) * u)%Q).
  { rewrite (pow2_scale (e + 1) 53) by lia. rewrite Eu.
    by replace (e + 1 - 53) with (e - 52) by lia. }
  assert (H52 : (pow2 e == inject_Z (2 ^ 52) * u)%Q) by (rewrite Eu; apply pow2_scale; lia).
  assert (Hm53 : m <= 2 ^ 53).
  { rewrite Em. apply rne_le_Z. apply Qle_shift_div_r; [done|].
    pose proof (pow2_le (expo x + 1) (e + 1) ltac:(lia)). lra. }
  assert (Hm0 : 0 < m).
  { rewrite Zlt_Qlt. apply (Qmult_lt_r _ _ u Hu). change (inject_Z 0) with 0%Q. lra. }
  destruct (decide (m = 2 ^ 53)) as [Htop|Hntop].
  - apply (round_abs_at _ (e + 1) (2 ^ 52)).
    + rewrite (expo_unique _ (e + 1)); [lia|].
      rewrite Htop, <- H53. split; [lra|]. apply pow2_lt. lia.
    + rewrite Htop, <- H53. apply pow2_scale. lia.
  - apply (round_abs_at _ e m); [|by rewrite Eu].
    assert (Hyu : (inject_Z m * u < pow2 (e + 1))%Q).
    { rewrite H53. apply Qmult_lt_compat_r; [done|]. rewrite <- Zlt_Qlt. lia. }
    destruct (Z_lt_le_dec m (2 ^ 52)) as [Hsub|Hnorm].
    + assert (He : e = -1022).
      { destruct (Z_lt_le_dec (expo x) (-1022)) as [H|H]; [lia|]. exfalso.
        assert (2 ^ 52 <= m); [|lia].
        rewrite Em. apply rne_ge_Z. apply Qle_shift_div_l; [done|].
        assert (Hee : e = expo x) by lia. rewrite Hee in H52. lra. }
      destruct (expo_spec _ Hy) as [Hl _].
      assert (Hlt : (inject_Z m * u < pow2 e)%Q).
      { rewrite H52. apply Qmult_lt_compat_r; [done|]. by rewrite <- Zlt_Qlt. }
      assert (expo (inject_Z m * u) < e) by (apply pow2_lt_inv; lra). lia.
    + rewrite (expo_unique _ e); [lia|]. split; [|done].
      rewrite H52. apply Qmult_le_compat_r; [|lra]. by rewrite <- Zle_Qle.
Qed.

Lemma round_is_float x : is_float (round x).
Proof.
  assert (Hfix : forall z, (0 <= z)%Q -> Qle_bool (pow2 1024) (round_abs z) = false ->
            round (Qred (round_abs z)) = Finite (Qred (round_abs z))
            /\ round (Qred (- round_abs z)) = Finite (Qred (- round_abs z))).
  { intros z Hz Hfin. pose proof (round_abs_nonneg z Hz) as Hn.
    pose proof (round_abs_idempotent z Hz) as Hi.
    assert (Hp : forall a b, (0 <= a)%Q -> (a == b)%Q -> (round_abs a == round_abs b)%Q).
    { intros a b Ha Hab. apply Qle_antisym; apply round_abs_monotone; lra. }
    split; unfold round.
    - assert (H0 : Qle_bool 0 (Qred (round_abs z)) = true)
        by (apply Qle_bool_iff; by rewrite Qred_correct).
      rewrite H0.
      assert (He : (round_abs (Qred (round_abs z)) == round_abs z)%Q).
      { rewrite <- Hi at 2. apply Hp; [by rewrite Qred_correct|apply Qred_correct]. }
      assert (Hc : Qle_bool (pow2 1024) (round_abs (Qred (round_abs z))) = false).
      { apply not_true_is_false. rewrite Qle_bool_iff, He, <- Qle_bool_iff. congruence. }
      rewrite Hc. f_equal. by apply Qred_complete.
    - destruct (Qle_bool 0 (Qred (- round_abs z))) eqn:H0.
      + apply Qle_bool_iff in H0. rewrite Qred_correct in H0.
        assert (Hz0 : (round_abs z == 0)%Q) by lra.
        assert (Hr : (round_abs (Qred (- round_abs z)) == 0)%Q).
        { apply round_abs_zero. rewrite Qred_correct. lra. }
        assert (Hc : Qle_bool (pow2 1024) (round_abs (Qred (- round_abs z))) = false).
        { apply not_true_is_false. rewrite Qle_bool_iff, Hr. pose proof (pow2_pos 1024). lra. }
        rewrite Hc. f_equal. apply Qred_complete. rewrite Hr. lra.
      + assert (He : (round_abs (- Qred (- round_abs z)) == round_abs z)%Q).
        { rewrite <- Hi at 2. apply Hp.
          - rewrite Qred_correct. lra.
          - rewrite Qred_correct. ring. }
        assert (Hc : Qle_bool (pow2 1024) (round_abs (- Qred (- round_abs z))) = false).
        { apply not_true_is_false. rewrite Qle_bool_iff, He, <- Qle_bool_iff. congruence. }
        rewrite Hc. f_equal. apply Qred_complete. by rewrite He. }
  unfold round. destruct (Qle_bool 0 x) eqn:Hx.
  - apply Qle_bool_iff in Hx.
    destruct (Qle_bool (pow2 1024) (round_abs x)) eqn:Ho; [done|].
    simpl. by apply Hfix.
  - assert (Hx' : ~ (0 <= x)%Q) by (rewrite <- Qle_bool_iff; congruence).
    destruct (Qle_bool (pow2 1024) (round_abs (- x))) eqn:Ho; [done|].
    simpl. apply Hfix; [lra|done].
Qed.

(** The rounding agrees with CPython: the literals 0.1 and 0.3, the sum
    0.1 + 0.2, a tie that goes to the even neighbour, the smallest positive
    float and the tie below it, and the first value that becomes an
    infinity. *)
Example round_vectors :
  round (1 # 10) = Finite (3602879701896397 # 36028797018963968)
  /\ round (3 # 10) = Finite (5404319552844595 # 18014398509481984)
  /\ round ((3602879701896397 # 36028797018963968) + (3602879701896397 # 18014398509481984))
     = Finite (1351079888211149 # 4503599627370496)
  /\ round (1 + pow2 (-53)) = Finite 1
  /\ round (1 + 3 * pow2 (-53)) = Finite (Qred (1 + pow2 (-51)))
  /\ round (- ((1 # 2) + 1 - pow2 (-53))) = Finite (- (3 # 2))
  /\ round (pow2 (-1074)) = Finite (Qred (pow2 (-1074)))
  /\ round (pow2 (-1075)) = Finite 0
  /\ round (3 * pow2 (-1075)) = Finite (Qred (pow2 (-1073)))
  /\ round (pow2 1024 - pow2 970 - 1) = Finite (Qred (pow2 1024 - pow2 971))
  /\ round (pow2 1024 - pow2 970) = PosInf
  /\ round (- pow2 1024) = NegInf.
Proof. vm_compute. repeat split; reflexivity. Qed.

Lemma float_le_not_nan a b : le a b -> a <> NaN /\ b <> NaN.
Proof. by destruct a, b. Qed.

Lemma float_le_refl a : a <> NaN -> le a a.
Proof. destruct a; simpl; try done. intros _. lra. Qed.

Lemma float_le_trans a b c : le a b -> le b c -> le a c.
Proof. destruct a, b, c; simpl; try done. intros; lra. Qed.

Lemma float_le_pos_inf a : a <> NaN -> le a PosInf.
Proof. by destruct a. Qed.

Lemma float_le_neg_inf a : a <> NaN -> le NegInf a.
Proof. by destruct a. Qed.

Lemma float_ltb_le a b : le b a -> ltb a b = false.
Proof.
  destruct a, b; simpl; try done. intros H. apply Qle_bool_iff in H. by rewrite H.
Qed.

Lemma float_ltb_not_le a b : a <> NaN -> b <> NaN -> ltb a b = false -> le b a.
Proof.
  destruct a, b; simpl; try done. intros _ _ H.
  apply negb_false_iff in H. by apply Qle_bool_iff.
Qed.

Lemma round_nonneg x : (0 <= x)%Q -> le (Finite 0) (round x).
Proof.
  intros Hx. unfold round. apply Qle_bool_iff in Hx as Hb. rewrite Hb.
  destruct (Qle_bool (pow2 1024) (round_abs x)); simpl; [done|].
  rewrite Qred_correct. by apply round_abs_nonneg.
Qed.

(** Multiplying by a positive constant keeps the order. *)
Lemma float_mul_monotone c x y :
  (0 < c)%Q -> le x y -> le (mul (Finite c) x) (mul (Finite c) y).
Proof.
  intros Hc Hxy. apply Qgt_alt in Hc as Hcmp.
  destruct x as [a| | |], y as [b| | |]; simpl in *; try done; rewrite ?Hcmp; simpl; try done.
  - apply round_monotone. nra.
  - apply float_le_pos_inf, round_not_nan.
  - apply float_le_neg_inf, round_not_nan.
Qed.

(** So does adding, among values that are not negative. *)
Lemma float_add_monotone x1 y1 x2 y2 :
  le (Finite 0) x1 -> le (Finite 0) y1 -> le x1 x2 -> le y1 y2 ->
  le (Finite 0) (add x1 y1) /\ le (add x1 y1) (add x2 y2).
Proof.
  destruct x1 as [a1| | |], y1 as [b1| | |], x2 as [a2| | |], y2 as [b2| | |];
    simpl; try done; intros H1 H2 H3 H4.
  - split; [apply round_nonneg; lra|apply round_monotone; lra].
  - split; [apply round_nonneg; lra|apply float_le_pos_inf, round_not_nan].
  - split; [apply round_nonneg; lra|apply float_le_pos_inf, round_not_nan].
  - split; [apply round_nonneg; lra|apply float_le_pos_inf, round_not_nan].
Qed.

(** Adding a value that is not negative to a float does not give less. *)
Lemma float_add_nonneg c p :
  is_float c -> c <> NaN -> (0 <= p)%Q ->
  le c (add c (Finite p)) /\ is_float (add c (Finite p)) /\ add c (Finite p) <> NaN.
Proof.
  intros Hc Hnan Hp. destruct c as [q| | |]; [|done..].
  cbn [add]. split; [|split; [apply round_is_float|apply round_not_nan]].
  pose proof (round_monotone q (q + p) ltac:(lra)) as Hm.
  cbn [is_float] in Hc. by rewrite Hc in Hm.
Qed.

End FloatFacts.

(** ** Retry policy *)
Section RetryFacts.
Import Retry.
Context {World R E : Type}.
Variable func : World -> (R + E) * World.
Variable random : World -> Q * World.
Variable sleep : Q -> World -> World.

Local Abbreviation lfunc := (logged_func func).
Local Abbreviation lrandom := (@logged_random World R E random).
Local Abbreviation lsleep := (@logged_sleep World R E sleep).

Lemma logged_func_eq w log :
  lfunc (w, log) = ((func w).1, ((func w).2, log ++ [(func w).1])).
Proof. unfold logged_func; simpl. by destruct (func w). Qed.

Lemma get_delay_logged self attempt w log :
  get_delay lrandom self attempt (w, log) =
  ((get_delay random self attempt w).1, ((get_delay random self attempt w).2, log)).
Proof.
  unfold get_delay, logged_random; simpl.
  destruct (power_overflows self attempt); [done|].
  destruct (jitter self); [destruct (random w)|]; reflexivity.
Qed.

(** [get_delay] raises exactly when the power overflows, and then it has
    drawn no random number. *)
Lemma get_delay_cases self attempt w :
  (power_overflows self attempt = true /\ get_delay random self attempt w = (None, w))
  \/ (power_overflows self attempt = false
      /\ exists d w', get_delay random self attempt w = (Some d, w')).
Proof.
  unfold get_delay. destruct (power_overflows self attempt); [by left|right].
  split; [done|]. destruct (jitter self); [destruct (random w)|]; by eauto.
Qed.

Lemma retryable_rejected (should_retry : option (E -> bool)) (e : E) :
  retryable should_retry e = false <-> rejected should_retry e.
Proof.
  unfold retryable, rejected. destruct should_retry as [p|].
  - split; [by eauto|]. by intros (p' & [= <-] & Hp).
  - split; [done|]. by intros (p' & [=] & _).
Qed.

Lemma retryable_accepted (should_retry : option (E -> bool)) (e : E) :
  retryable should_retry e = true <-> ~ rejected should_retry e.
Proof.
  rewrite <- retryable_rejected. by destruct (retryable should_retry e).
Qed.

(** The log is pure instrumentation: erasing it gives back the run of the
    uninstrumented loop. *)
Lemma retry_loop_erase self should_retry after attempts :
  forall last w log,
    let run := retry_loop lfunc lrandom lsleep self should_retry after attempts last (w, log) in
    (run.1, run.2.1) = retry_loop func random sleep self should_retry after attempts last w.
Proof.
  induction attempts as [|a rest IH]; intros last w log; cbn [retry_loop]; [reflexivity|].
  rewrite logged_func_eq.
  destruct (func w) as [[r|e] w1]; cbn [fst snd]; [reflexivity|].
  destruct (negb (retryable should_retry e)); [reflexivity|].
  destruct (a >=? max_retries self); [reflexivity|].
  rewrite get_delay_logged.
  destruct (get_delay random self a w1) as [[d|] w2]; unfold logged_sleep; cbn [fst snd];
    [apply IH|reflexivity].
Qed.

(** Each iteration of the loop calls [func] exactly once, so the log grows
    by at most the number of iterations left. *)
Lemma retry_loop_calls self should_retry after attempts :
  forall last w log,
    (length (retry_loop lfunc lrandom lsleep self should_retry after attempts last (w, log)).2.2
     <= length log + length attempts)%nat.
Proof.
  induction attempts as [|a rest IH]; intros last w log; cbn [retry_loop]; [simpl; lia|].
  rewrite logged_func_eq.
  assert (Hstop : (length (log ++ [(func w).1]) <= length log + length (a :: rest))%nat)
    by (rewrite List.length_app; simpl; lia).
  destruct (func w) as [[r|e] w1]; cbn [fst snd] in *; [exact Hstop|].
  destruct (negb (retryable should_retry e)); [exact Hstop|].
  destruct (a >=? max_retries self); [exact Hstop|].
  rewrite get_delay_logged.
  destruct (get_delay random self a w1) as [[d|] w2]; unfold logged_sleep; cbn [fst snd];
    [|exact Hstop].
  etransitivity; [apply IH|]. rewrite List.length_app in *; simpl in *; lia.
Qed.

Lemma length_py_range n : length (py_range n) = Z.to_nat n.
Proof. unfold py_range. by rewrite List.length_map, List.length_seq. Qed.

(** C1.  For every callable, every [max_retries >= 0] and every
    [should_retry] predicate (or none), one run of [execute_with_retry]
    calls the callable at most [max_retries + 1] times, counting the first
    attempt and all retries.  Both published versions of the function are
    covered. *)
Theorem execute_with_retry_attempts_bounded
    (self : RetryPolicy) (should_retry : option (E -> bool)) (w : World) :
  0 <= max_retries self ->
  Z.of_nat (length (execute_with_retry lfunc lrandom lsleep self should_retry (w, [])).2.2)
    <= max_retries self + 1
  /\ Z.of_nat (length (execute_with_retry_guide lfunc lrandom lsleep self should_retry (w, [])).2.2)
    <= max_retries self + 1.
Proof.
  intros Hmax. unfold execute_with_retry, execute_with_retry_guide.
  split.
  all: match goal with |- context [retry_loop _ _ _ _ _ ?after ?att ?last (?w, ?l)] =>
         pose proof (retry_loop_calls self should_retry after att last w l) as Hlen end.
  all: rewrite length_py_range in Hlen; simpl in Hlen; lia.
Qed.



(** With a negative [max_retries] the loop body never runs: the callable
    is not called, and the two versions end differently. *)
Lemma execute_with_retry_negative
    (self : RetryPolicy) (should_retry : option (E -> bool)) (w : World) :
  max_retries self < 0 ->
  execute_with_retry func random sleep self should_retry w = (RaiseTypeError, w)
  /\ execute_with_retry_guide func random sleep self should_retry w = (ReturnNone, w).
Proof.
  intros Hneg. unfold execute_with_retry, execute_with_retry_guide, py_range.
  replace (Z.to_nat (max_retries self + 1)) with 0%nat by lia. done.
Qed.

(** Without jitter the delay is the capped exponential backoff itself and
    no random number is drawn. *)
Lemma get_delay_no_jitter (self : RetryPolicy) (attempt : Z) (w : World) :
  jitter self = false ->
  power_overflows self attempt = false ->
  get_delay random self attempt w = (Some (capped_backoff self attempt), w).
Proof. intros Hj Hov. unfold get_delay. by rewrite Hov, Hj. Qed.



End RetryFacts.

Example execute_with_retry_flaky_run :
  Retry.execute_with_retry
    (Retry.logged_func (Retry.flaky 2))
    (@Retry.logged_random nat nat nat (Retry.fixed_draw (3 # 4)))
    (@Retry.logged_sleep nat nat nat Retry.no_sleep)
    Retry.default_policy None (0%nat, [])
  = (Retry.Return 2%nat, (3%nat, [inr 0%nat; inr 1%nat; inl 2%nat])).
Proof. vm_compute. reflexivity. Qed.

Lemma execute_with_retry_attempts_bounded_witness :
  0 <= Retry.max_retries Retry.default_policy
  /\ (Z.of_nat (length (Retry.execute_with_retry
         (Retry.logged_func (Retry.flaky 9))
         (@Retry.logged_random nat nat nat (Retry.fixed_draw (3 # 4)))
         (@Retry.logged_sleep nat nat nat Retry.no_sleep)
         Retry.default_policy None (0%nat, [])).2.2)
       <= Retry.max_retries Retry.default_policy + 1
     /\ Z.of_nat (length (Retry.execute_with_retry_guide
         (Retry.logged_func (Retry.flaky 9))
         (@Retry.logged_random nat nat nat (Retry.fixed_draw (3 # 4)))
         (@Retry.logged_sleep nat nat nat Retry.no_sleep)
         Retry.default_policy None (0%nat, [])).2.2)
       <= Retry.max_retries Retry.default_policy + 1).
Proof.
  assert (H : 0 <= Retry.max_retries Retry.default_policy) by (vm_compute; discriminate).
  split; [exact H|].
  exact (execute_with_retry_attempts_bounded (Retry.flaky 9)
           (Retry.fixed_draw (3 # 4)) Retry.no_sleep Retry.default_policy None 0%nat H).
Defined.


Example execute_with_retry_rejected_error_run :
  Retry.execute_with_retry
    (Retry.logged_func (Retry.flaky 9))
    (@Retry.logged_random nat nat nat (Retry.fixed_draw (3 # 4)))
    (@Retry.logged_sleep nat nat nat Retry.no_sleep)
    Retry.default_policy (Some (fun e : nat => (e <? 1)%nat)) (0%nat, [])
  = (Retry.Raise 1%nat, (2%nat, [inr 0%nat; inr 1%nat])).
Proof. vm_compute. reflexivity. Qed.

Example execute_with_retry_exhausted_run :
  Retry.execute_with_retry
    (Retry.logged_func (Retry.flaky 9))
    (@Retry.logged_random nat nat nat (Retry.fixed_draw (3 # 4)))
    (@Retry.logged_sleep nat nat nat Retry.no_sleep)
    Retry.default_policy None (0%nat, [])
  = (Retry.Raise 3%nat, (4%nat, [inr 0%nat; inr 1%nat; inr 2%nat; inr 3%nat])).
Proof. vm_compute. reflexivity. Qed.

(** C7.  The claim fails where the power of a delay overflows.  At a
    policy with [max_retries = 1100] and the defaults otherwise, and a
    callable that raises on every call, the run does not end with the
    callable's last error: handling the error of the 1025th call it computes
    the delay of attempt 1024, [2.0 ** 1024] is beyond the floats, and the
    run ends with [OverflowError], 76 attempts short of the bound.  Both
    published versions of the function do so. *)
Theorem execute_with_retry_overflow_replaces_last_error :
  let run := Retry.execute_with_retry
               (Retry.logged_func (Retry.flaky 2000))
               (@Retry.logged_random nat nat nat (Retry.fixed_draw (3 # 4)))
               (@Retry.logged_sleep nat nat nat Retry.no_sleep)
               patient_policy None (0%nat, []) in
  let run_guide := Retry.execute_with_retry_guide
               (Retry.logged_func (Retry.flaky 2000))
               (@Retry.logged_random nat nat nat (Retry.fixed_draw (3 # 4)))
               (@Retry.logged_sleep nat nat nat Retry.no_sleep)
               patient_policy None (0%nat, []) in
  Retry.max_retries patient_policy = 1100
  /\ Retry.power_overflows patient_policy 1023 = false
  /\ Retry.power_overflows patient_policy 1024 = true
  /\ run.1 = Retry.RaiseOverflowError
  /\ length run.2.2 = 1025%nat
  /\ last run.2.2 = Some (inr 1024%nat)
  /\ run.1 <> Retry.Raise 1024%nat
  /\ run_guide = run.
Proof. vm_compute. repeat split; done. Qed.



(** ** SHA-256 and JSON encoding: test vectors *)

Example sha256_constants :
  length Sha256.primes = 64%nat
  /\ head Sha256.K = Some 0x428a2f98 /\ last Sha256.K = Some 0xc67178f2
  /\ head Sha256.H0 = Some 0x6a09e667 /\ last Sha256.H0 = Some 0x5be0cd19.
Proof. repeat split; reflexivity. Qed.

Example sha256_abc :
  Sha256.hexdigest "abc"
  = "ba7816bf8f01cfea414140de5dae2223b00361a396177a9cb410ff61f20015ad".
Proof. vm_compute. reflexivity. Qed.

Example sha256_empty :
  Sha256.hexdigest ""
  = "e3b0c44298fc1c149afbf4c8996fb92427ae41e4649b934ca495991b7852b855".
Proof. vm_compute. reflexivity. Qed.

(** The encoder agrees with CPython on the escaping of every code point
    below 256 and on the printing of integers; the texts (1045 and 59
    characters) are compared through their SHA-256. *)
Example dumps_escapes_all_chars :
  String.length (Json.dumps false (Json.JStr all_chars)) = 1045%nat
  /\ Sha256.hexdigest (Json.dumps false (Json.JStr all_chars))
     = "26bdc3088cc7be1e609313d49183b218c778d93eda343dc5c777156fea7656f5".
Proof. vm_compute. done. Qed.

Example dumps_integers :
  Json.dumps false
    (Json.JList [Json.JInt 0; Json.JInt (-1); Json.JInt 10;
                 Json.JInt 1234567890123456789012345678901234567890; Json.JInt (-907)])
  = "[0, -1, 10, 1234567890123456789012345678901234567890, -907]".
Proof. vm_compute. reflexivity. Qed.

(** ** Key order of serialised dicts *)
Section JsonFacts.
Import Json.

Lemma ascii_compare_trans_le (a b c : ascii) :
  Ascii.compare a b <> Gt -> Ascii.compare b c <> Gt -> Ascii.compare a c <> Gt.
Proof.
  unfold Ascii.compare. intros H1 H2. change (N_of_ascii a <= N_of_ascii c)%N.
  change (N_of_ascii a <= N_of_ascii b)%N in H1.
  change (N_of_ascii b <= N_of_ascii c)%N in H2. lia.
Qed.

Lemma string_compare_refl (s : string) : String.compare s s = Eq.
Proof.
  induction s as [|a s IH]; simpl; [done|].
  unfold Ascii.compare. by rewrite N.compare_refl.
Qed.

Lemma string_compare_trans_le (s1 s2 s3 : string) :
  String.compare s1 s2 <> Gt -> String.compare s2 s3 <> Gt -> String.compare s1 s3 <> Gt.
Proof.
  revert s2 s3. induction s1 as [|a s1 IH]; intros [|b s2] [|c s3]; simpl; try done.
  destruct (Ascii.compare a b) eqn:Hab; [|clear IH|done].
  - apply Ascii.compare_eq_iff in Hab as ->.
    destruct (Ascii.compare b c); [apply IH|done|done].
  - destruct (Ascii.compare b c) eqn:Hbc; [| |done]; intros _ _.
    + apply Ascii.compare_eq_iff in Hbc as <-. by rewrite Hab.
    + assert (Hac : Ascii.compare a c <> Gt).
      { apply (ascii_compare_trans_le a b c); congruence. }
      destruct (Ascii.compare a c) eqn:Hac'; [|done|done].
      apply Ascii.compare_eq_iff in Hac' as ->.
      rewrite Ascii.compare_antisym, Hbc in Hab. done.
Qed.

Lemma key_le_alt {A} (x y : string * A) : key_le x y <-> String.compare x.1 y.1 <> Gt.
Proof. unfold key_le, String.leb. destruct (String.compare x.1 y.1); naive_solver. Qed.

#[local] Instance key_le_trans {A} : Transitive (@key_le A).
Proof. intros x y z. rewrite !key_le_alt. apply string_compare_trans_le. Qed.

Lemma key_le_total {A} (x y : string * A) : key_le x y \/ key_le y x.
Proof. apply String.leb_total. Qed.

Lemma insert_item_perm {A} (kv : string * A) l : insert_item kv l ≡ₚ kv :: l.
Proof.
  induction l as [|kv' l IH]; simpl; [done|].
  destruct (String.leb kv.1 kv'.1); [done|].
  rewrite IH. apply Permutation_swap.
Qed.

Lemma sort_items_perm {A} (l : list (string * A)) : sort_items l ≡ₚ l.
Proof.
  induction l as [|kv l IH]; simpl; [done|].
  unfold sort_items in *. simpl. by rewrite insert_item_perm, IH.
Qed.

Lemma insert_item_sorted {A} (kv : string * A) l :
  Sorted key_le l -> Sorted key_le (insert_item kv l).
Proof.
  induction 1 as [|kv' l Hl IH Hhd]; simpl; [by repeat constructor|].
  destruct (String.leb kv.1 kv'.1) eqn:Hle.
  - constructor; [by constructor|]. by constructor.
  - constructor; [done|].
    assert (key_le kv' kv) by (destruct (key_le_total kv kv'); [unfold key_le in *; congruence|done]).
    destruct Hhd as [|kv'' l' Hle']; simpl; [by constructor|].
    destruct (String.leb kv.1 kv''.1); by constructor.
Qed.

Lemma sort_items_sorted {A} (l : list (string * A)) : Sorted key_le (sort_items l).
Proof.
  induction l as [|kv l IH]; [constructor|].
  unfold sort_items in *. simpl. by apply insert_item_sorted.
Qed.

(** Items with distinct keys have one sorted arrangement. *)
Lemma sort_items_unique {A} (l1 l2 : list (string * A)) :
  NoDup (map fst l1) -> l1 ≡ₚ l2 -> sort_items l1 = sort_items l2.
Proof.
  intros Hnd Hperm.
  apply (Sorted_unique_strong key_le); [|apply sort_items_sorted..|].
  - intros x1 x2 Hx1 Hx2 H12 H21.
    rewrite sort_items_perm in Hx1. rewrite sort_items_perm, <- Hperm in Hx2.
    assert (Hk : x1.1 = x2.1) by (by apply String.leb_antisym).
    apply list_elem_of_lookup in Hx1 as [i1 Hi1]. apply list_elem_of_lookup in Hx2 as [i2 Hi2].
    assert (i1 = i2) as ->.
    { eapply NoDup_lookup; [exact Hnd|..]; rewrite list_lookup_fmap.
      - by rewrite Hi1.
      - by rewrite Hi2, Hk. }
    congruence.
  - by rewrite !sort_items_perm.
Qed.

Lemma wf_list l : wf (JList l) <-> Forall wf l.
Proof.
  simpl. induction l as [|x l IH]; simpl.
  - split; [constructor|done].
  - rewrite Forall_cons. by rewrite IH.
Qed.

Lemma wf_dict d : wf (JDict d) <-> NoDup (map fst d) /\ Forall (fun kv => wf kv.2) d.
Proof.
  simpl. apply and_iff_compat_l. induction d as [|kv d IH]; simpl.
  - split; [constructor|done].
  - rewrite Forall_cons. by rewrite IH.
Qed.

(** With [sort_keys=True] the text does not depend on the order in which
    dicts list their items, at any depth. *)
Lemma dumps_reordered (j1 : json) :
  forall j2, wf j1 -> reordered j1 j2 -> dumps true j1 = dumps true j2.
Proof.
  induction j1 as [| | | |l IH|d IH] using json_nested_ind; intros j2 Hwf Hr; inversion Hr; subst; try done.
  - (* lists: member by member *)
    apply wf_list in Hwf. cbn [dumps]. do 3 f_equal.
    match goal with H : Forall2 reordered _ _ |- _ => rename H into Hl end.
    induction Hl as [|x y l l' Hxy Hl IHl]; [done|].
    apply Forall_cons in IH as [IHx IH]. apply Forall_cons in Hwf as [Hx Hwf].
    simpl. f_equal; [by apply IHx|]. apply IHl; [done..|]. by constructor.
  - (* dicts: the same keys with reordered values, then a permutation *)
    apply wf_dict in Hwf as [Hnd Hwf].
    match goal with H : Forall2 _ d ?d' |- _ => rename H into Hd; rename d' into dm end.
    match goal with H : Permutation dm ?d' |- _ => rename H into Hperm; rename d' into d2 end.
    assert (Hmap : map (fun kv => (kv.1, dumps true kv.2)) d
                   = map (fun kv => (kv.1, dumps true kv.2)) dm).
    { clear Hperm Hnd Hr. induction Hd as [|x y l l' [Hk Hxy] Hl IHl]; [done|].
      apply Forall_cons in IH as [IHx IH]. apply Forall_cons in Hwf as [Hx Hwf].
      simpl. f_equal; [|by apply IHl]. f_equal; [done|]. by apply IHx. }
    cbn [dumps]. do 4 f_equal. rewrite Hmap.
    apply sort_items_unique.
    + rewrite <- Hmap, map_map. simpl. exact Hnd.
    + by apply Permutation_map.
Qed.

End JsonFacts.

(** ** Cache manager *)
Section CacheFacts.
Import Json Cache.

Lemma pretty_N_go_length (x : N) : forall s,
  (String.length s <= String.length (pretty_N_go x s))%nat.
Proof.
  induction (N.lt_wf_0 x) as [x _ IH]; intros s.
  destruct (decide (x = 0)%N) as [->|Hx]; [by rewrite pretty_N_go_0|].
  rewrite pretty_N_go_step by lia.
  etransitivity; [|apply IH; apply N.div_lt; lia]. simpl. lia.
Qed.

Lemma pretty_Z_truthy (n : Z) : truthy (pretty n) = true.
Proof.
  assert (Hpos : forall p, truthy (pretty (Npos p)) = true).
  { intros p. unfold pretty, pretty_N. rewrite decide_False by done.
    rewrite pretty_N_go_step by lia.
    pose proof (pretty_N_go_length (N.pos p `div` 10)
                  (String (pretty_N_char (N.pos p `mod` 10)) "")) as Hlen.
    destruct (pretty_N_go _ _); [simpl in Hlen; lia|done]. }
  destruct n as [|p|p]; [done|apply Hpos|done].
Qed.

(** [json.dumps] never produces the empty string, so a stored text is
    always truthy. *)
Lemma dumps_truthy (sort_keys : bool) (j : json) : truthy (dumps sort_keys j) = true.
Proof. destruct j as [|[|]| | | |]; try done. apply pretty_Z_truthy. Qed.



Variable json_loads : string -> option json.


(** C10.  A [set] whose [ttl] is [None] or [0] is the [set] with
    [default_ttl]: for a positive [default_ttl] the entry is stored with
    expiry [now + default_ttl] seconds, it is not expired on arrival and
    the next lookup of the key in Redis finds it. *)
Theorem cache_set_falsy_ttl_uses_default
    (self : MCPCacheManager) (db : gmap string entry) (now : Z)
    (tool_name : string) (parameters context : list (string * json))
    (result : json) (ttl : option Z) :
  ttl = None \/ ttl = Some 0 ->
  0 < default_ttl self ->
  let key := _generate_cache_key tool_name parameters context in
  let stored := {| value := dumps false result;
                   expires_at := now + 1000 * default_ttl self |} in
  effective_ttl self ttl = default_ttl self
  /\ set self db now tool_name parameters context result ttl = Some (<[key := stored]> db)
  /\ now < expires_at stored
  /\ redis_get (<[key := stored]> db) now key = (Some (dumps false result), <[key := stored]> db).
Proof.
  intros Httl Hpos key stored.
  assert (Heff : effective_ttl self ttl = default_ttl self) by (by destruct Httl as [->| ->]).
  unfold set, redis_setex, redis_get. fold key. rewrite Heff, lookup_insert_eq.
  replace (default_ttl self <=? 0) with false by lia. simpl.
  replace (now <? now + 1000 * default_ttl self) with true by lia.
  repeat split; lia.
Qed.

End CacheFacts.

(** X24.  The cache key does not depend on the order of dict items: it
    is computed from the tool name, the parameters and the context
    serialised with sorted keys, so two calls whose parameters and context
    differ only in the order of their items, at any depth, get the same
    key. *)
Theorem cache_key_order_independent
    (tool_name : string) (p1 p2 c1 c2 : list (string * Json.json)) :
  Json.wf (Json.JDict p1) -> Json.wf (Json.JDict c1) ->
  Json.reordered (Json.JDict p1) (Json.JDict p2) ->
  Json.reordered (Json.JDict c1) (Json.JDict c2) ->
  Cache._generate_cache_key tool_name p1 c1 = Cache._generate_cache_key tool_name p2 c2.
Proof.
  intros Hp Hc Hrp Hrc. unfold Cache._generate_cache_key, Cache.cache_str.
  do 2 f_equal. apply dumps_reordered.
  - apply wf_dict. split; [simpl; compute_done|].
    constructor; [done|]. constructor; [exact Hp|]. constructor; [exact Hc|constructor].
  - eapply Json.reordered_dict; [|reflexivity].
    constructor; [split; [done|apply Json.reordered_refl]|].
    constructor; [by split|]. constructor; [by split|constructor].
Qed.

(** The key CPython computes for the same call. *)
Example cache_key_sample :
  Cache._generate_cache_key "search" sample_params sample_context
  = "mcp:cache:8de01f8299db5cbe1f5f87f74bd26cd941b9ac29a66f00cfdd642c8f587f0850".
Proof. vm_compute. reflexivity. Qed.

Lemma sample_params_wf : Json.wf (Json.JDict sample_params).
Proof.
  simpl. repeat split; compute_done.
Qed.

Lemma sample_context_wf : Json.wf (Json.JDict sample_context).
Proof.
  simpl. repeat split; compute_done.
Qed.

Lemma sample_params_reordered :
  Json.reordered (Json.JDict sample_params) (Json.JDict sample_params').
Proof.
  apply Json.reordered_dict with
    (d := [("q", Json.JStr ("a" +:+ Json.dquote +:+ "b\c" +:+
                    String "010" (String "127" (String "233" EmptyString))));
           ("n", Json.JInt (-12));
           ("deep", Json.JDict [("a", Json.JDict []);
                        ("z", Json.JList [Json.JInt 1; Json.JBool true; Json.JNone])])]).
  - repeat constructor; simpl; try apply Json.reordered_refl.
    apply Json.reordered_dict with
      (d := [("z", Json.JList [Json.JInt 1; Json.JBool true; Json.JNone]);
             ("a", Json.JDict [])]).
    + repeat constructor; simpl; apply Json.reordered_refl.
    + apply Permutation_swap.
  - apply (Permutation_rev [_; _; _]).
Qed.

Lemma sample_context_reordered :
  Json.reordered (Json.JDict sample_context) (Json.JDict sample_context').
Proof.
  apply Json.reordered_dict with (d := sample_context).
  - repeat constructor; simpl; apply Json.reordered_refl.
  - apply Permutation_swap.
Qed.

Lemma cache_key_order_independent_witness :
  Cache._generate_cache_key "search" sample_params sample_context
  = Cache._generate_cache_key "search" sample_params' sample_context'.
Proof.
  exact (cache_key_order_independent "search" sample_params sample_params'
           sample_context sample_context' sample_params_wf sample_context_wf
           sample_params_reordered sample_context_reordered).
Defined.

(** C8.  The code at the failing input: the comment above the key says
    that only the parameters that affect the result are used, but the whole
    [parameters] and [context] are serialised and no field is left out.
    Two calls that differ only in the context's [timestamp] get different
    keys (the ones CPython computes), where the claim has them share one. *)
Lemma cache_key_depends_on_timestamp :
  Cache._generate_cache_key "crm_lookup"
    [("customer", Json.JStr "acme")] [("timestamp", Json.JInt 1700000000)]
  = "mcp:cache:16dc39d18c800052e1bac530a5731725bb9d12b95beac31976e3bc180d0ff583"
  /\ Cache._generate_cache_key "crm_lookup"
    [("customer", Json.JStr "acme")] [("timestamp", Json.JInt 1700000001)]
  = "mcp:cache:c8bdfe5ad0372b8b1db3eb78dd5ec5ec73c2e465c3f3510191f0c48de0ff3b54"
  /\ Cache._generate_cache_key "crm_lookup"
    [("customer", Json.JStr "acme")] [("timestamp", Json.JInt 1700000000)]
  <> Cache._generate_cache_key "crm_lookup"
    [("customer", Json.JStr "acme")] [("timestamp", Json.JInt 1700000001)].
Proof. vm_compute. repeat split; discriminate. Qed.


Lemma cache_set_falsy_ttl_uses_default_witness :
  Cache.effective_ttl Cache.new_manager (Some 0) = 3600
  /\ Cache.set Cache.new_manager ∅ 5000 "search" sample_params sample_context
       sample_result (Some 0)
     = Some (<[Cache._generate_cache_key "search" sample_params sample_context :=
                 {| Cache.value := Json.dumps false sample_result;
                    Cache.expires_at := 5000 + 1000 * 3600 |}]> ∅).
Proof.
  pose proof (cache_set_falsy_ttl_uses_default Cache.new_manager ∅ 5000 "search"
                sample_params sample_context sample_result (Some 0)
                (or_intror eq_refl) eq_refl) as H.
  split; [exact (proj1 H) | exact (proj1 (proj2 H))].
Defined.

(** The text stored for the sample payload is the 28 characters CPython's
    [json.dumps] gives, here identified by their SHA-256. *)
Example sample_result_text :
  String.length (Json.dumps false sample_result) = 28%nat
  /\ Sha256.hexdigest (Json.dumps false sample_result)
     = "aae56c4b149e4a2ae1f9e5a575c222344c1a9e15dbe74053560ccf341f3853e0".
Proof. vm_compute. done. Qed.

(** ** Health monitor *)
Section MeshFacts.
Import Mesh.

Lemma check_all_nodes_lookup (pings : string -> ping) (nodes : gmap string MCPNode)
    (node_id : string) :
  _check_all_nodes pings nodes !! node_id = check_node (pings node_id) <$> nodes !! node_id.
Proof.
  unfold _check_all_nodes. rewrite map_lookup_imap.
  by destruct (nodes !! node_id).
Qed.

Lemma check_node_status (p : ping) (node : MCPNode) :
  status (check_node p node) = next_status p (status node).
Proof.
  destruct p as [[|] latency|], node as [[| |] m]; reflexivity.
Qed.

Lemma health_check_loop_lookup (rounds : list (string -> ping)) :
  forall (nodes : gmap string MCPNode) (node_id : string) (node : MCPNode),
    nodes !! node_id = Some node ->
    exists node',
      _health_check_loop rounds nodes !! node_id = Some node'
      /\ status node' = fold_left (fun s pings => next_status (pings node_id) s)
                          rounds (status node).
Proof.
  induction rounds as [|pings rounds IH]; intros nodes node_id node Hnode; simpl.
  - by exists node.
  - destruct (IH (_check_all_nodes pings nodes) node_id (check_node (pings node_id) node))
      as (node' & Hl & Hs).
    { by rewrite check_all_nodes_lookup, Hnode. }
    exists node'. split; [done|]. by rewrite Hs, check_node_status.
Qed.

(** C5 (amended).  In one round of probes a node's status changes as
    follows: a probe that reports unhealthy takes [ONLINE] to [DEGRADED]
    and leaves [DEGRADED] and [OFFLINE] as they are; a probe that raises
    takes the node to [OFFLINE] whatever its status; a healthy probe takes
    [DEGRADED] to [ONLINE].  No count of consecutive failures is kept:
    over any number of rounds a node that is not offline stays so as long
    as none of its probes raises. *)
Theorem health_probe_transitions
    (rounds : list (string -> ping)) (pings : string -> ping)
    (nodes : gmap string MCPNode) (node_id : string) (node : MCPNode) :
  nodes !! node_id = Some node ->
  (exists node',
     _check_all_nodes pings nodes !! node_id = Some node'
     /\ status node' = next_status (pings node_id) (status node))
  /\ (status node <> OFFLINE ->
      Forall (fun ps => ps node_id <> PingRaised) rounds ->
      exists node',
        _health_check_loop rounds nodes !! node_id = Some node'
        /\ status node' <> OFFLINE).
Proof.
  intros Hnode. split.
  - exists (check_node (pings node_id) node).
    rewrite check_all_nodes_lookup, Hnode. split; [done|apply check_node_status].
  - intros Hon Hrounds.
    destruct (health_check_loop_lookup rounds nodes node_id node Hnode) as (node' & Hl & Hs).
    exists node'. split; [done|]. rewrite Hs. clear Hs Hl Hnode.
    revert Hon. generalize (status node).
    induction Hrounds as [|ps rounds Hps _ IH]; intros s Hs; simpl; [done|].
    apply IH. destruct (ps node_id) as [[|] ?|], s; done.
Qed.

End MeshFacts.

Lemma health_probe_transitions_witness :
  (exists node',
     Mesh._check_all_nodes (fun _ => Mesh.Pong false (1 # 5)) sample_nodes !! "node-a"
     = Some node'
     /\ Mesh.status node' = Mesh.DEGRADED)
  /\ (exists node',
        Mesh._health_check_loop
          [fun _ => Mesh.Pong false (1 # 5); fun _ => Mesh.Pong false (1 # 5);
           fun _ => Mesh.Pong false (1 # 5); fun _ => Mesh.Pong false (1 # 5)]
          sample_nodes !! "node-a" = Some node'
        /\ Mesh.status node' <> Mesh.OFFLINE).
Proof.
  pose proof (health_probe_transitions
    [fun _ => Mesh.Pong false (1 # 5); fun _ => Mesh.Pong false (1 # 5);
     fun _ => Mesh.Pong false (1 # 5); fun _ => Mesh.Pong false (1 # 5)]
    (fun _ => Mesh.Pong false (1 # 5)) sample_nodes "node-a" sample_node eq_refl) as [H1 H2].
  split; [exact H1|]. apply H2; [discriminate|].
  repeat constructor; discriminate.
Defined.

(** C5 as stated fails: one probe that fails by raising takes an online
    node straight to offline, and four unhealthy probes in a row leave a
    node degraded, whatever threshold one has in mind. *)
Lemma single_raising_probe_takes_online_to_offline :
  Mesh.failed Mesh.PingRaised = true
  /\ Mesh.status sample_node = Mesh.ONLINE
  /\ Mesh.status <$> (Mesh._check_all_nodes (fun _ => Mesh.PingRaised) sample_nodes !! "node-a")
     = Some Mesh.OFFLINE
  /\ Mesh.failed (Mesh.Pong false (1 # 5)) = true
  /\ Mesh.status <$> (Mesh._health_check_loop
          [fun _ => Mesh.Pong false (1 # 5); fun _ => Mesh.Pong false (1 # 5);
           fun _ => Mesh.Pong false (1 # 5); fun _ => Mesh.Pong false (1 # 5)]
          sample_nodes !! "node-a")
     = Some Mesh.DEGRADED.
Proof. repeat split; reflexivity. Qed.

(** ** Batch processor *)
Section LearningFacts.
Import Learning.
Context {Rec : Type}.
Variable batch_size : Z.
Variable flush_interval : Z.
Variable process_time : list Rec -> Z.
Hypothesis flush_interval_positive : 0 < flush_interval.

Local Abbreviation step := (iteration batch_size flush_interval process_time).
Local Abbreviation ok := (flush_ok batch_size flush_interval).
Local Abbreviation spaced := (closely_spaced flush_interval).
Local Abbreviation pend := (@pending_ok Rec batch_size flush_interval).
Local Abbreviation inv := (@invariant Rec batch_size flush_interval).

Lemma closely_spaced_snoc (b : list (Z * Rec)) (t t' : Z) (r r' : Rec) :
  spaced (taken_at (b ++ [(t, r)])) ->
  t <= t' < t + flush_interval ->
  spaced (taken_at ((b ++ [(t, r)]) ++ [(t', r')])).
Proof.
  unfold taken_at. induction b as [|[t0 r0] b IH]; simpl; intros Hsp Ht; [done|].
  destruct b as [|[t1 r1] b]; simpl in *; [tauto|].
  split; [tauto|]. apply IH; tauto.
Qed.

Lemma timeout_flush_ok (st : state Rec) :
  pend st -> batch st <> [] ->
  ok {| at_time := now st + flush_interval; records := batch st; why := IdleTimeout |}.
Proof.
  intros [Hnil|(Hsp & Hlen & earlier & r & Hb)] Hne; [done|].
  split; [done|]. exists earlier, (now st), r. simpl. done.
Qed.

Lemma iteration_invariant (st : state Rec) : inv st -> inv (step st).
Proof.
  intros [Hdone Hpend]. unfold iteration.
  destruct (queue st) as [|[put_at record] rest] eqn:Hq.
  - (* nothing is put any more: the wait times out *)
    destruct (batch st) as [|x b] eqn:Hb.
    + split; [done|by left].
    + split; [|by left]. simpl. apply Forall_app. split; [done|].
      constructor; [|constructor]. rewrite <- Hb. apply timeout_flush_ok; [done|by rewrite Hb].
  - destruct (put_at <? now st + flush_interval) eqn:Hput.
    + (* a record is taken before the deadline *)
      set (t := Z.max (now st) put_at).
      assert (Ht : now st <= t < now st + flush_interval)
        by (apply Z.ltb_lt in Hput; subst t; lia).
      assert (Hsp : spaced (taken_at (batch st ++ [(t, record)]))).
      { destruct Hpend as [->|(Hsp & _ & earlier & r & Hb)]; [done|].
        rewrite Hb. apply closely_spaced_snoc; [by rewrite <- Hb|done]. }
      assert (Hshort : Z.of_nat (length (batch st)) < batch_size \/ batch st = []).
      { destruct Hpend as [->|(_ & Hlen & _)]; [by right|by left]. }
      destruct (Z.of_nat (length (batch st ++ [(t, record)])) >=? batch_size) eqn:Hfull.
      * split; [|by left]. simpl. apply Forall_app. split; [done|].
        constructor; [|constructor]. split; [done|].
        exists (batch st), t, record. simpl. repeat split; [lia|done].
      * split; [done|]. right. simpl. repeat split; [done|lia|by eexists _, _].
    + (* the deadline passes first *)
      destruct (batch st) as [|x b] eqn:Hb.
      * split; [done|by left].
      * split; [|by left]. simpl. apply Forall_app. split; [done|].
        constructor; [|constructor]. rewrite <- Hb.
        apply timeout_flush_ok; [done|by rewrite Hb].
Qed.

Lemma batch_processor_invariant (n : nat) (start : Z) (puts : list (Z * Rec)) :
  inv (_batch_processor batch_size flush_interval process_time n start puts).
Proof.
  unfold _batch_processor. induction n as [|n IH]; simpl.
  - split; [constructor|by left].
  - by apply iteration_invariant.
Qed.

(** No record is lost, duplicated or reordered. *)
Lemma iteration_conserves_records (st : state Rec) :
  all_records (step st) = all_records st.
Proof.
  assert (Hflush : forall t b why q,
    all_records (process process_time t b why q (processed st))
    = map snd (concat (map records (processed st))) ++ map snd b ++ map snd q).
  { intros. unfold all_records, process. simpl.
    rewrite map_app, concat_app, map_app. simpl. by rewrite !app_nil_r, <- app_assoc. }
  unfold iteration.
  destruct (queue st) as [|[put_at record] rest] eqn:Hq.
  - destruct (batch st) eqn:Hb.
    + unfold all_records. simpl. by rewrite Hq, Hb.
    + rewrite Hflush. unfold all_records. by rewrite Hq, Hb.
  - destruct (put_at <? now st + flush_interval).
    + destruct (_ >=? batch_size).
      * rewrite Hflush. unfold all_records. rewrite Hq, map_app. simpl.
        by rewrite <- !app_assoc.
      * unfold all_records. simpl. rewrite Hq, map_app. simpl. by rewrite <- !app_assoc.
    + destruct (batch st) eqn:Hb.
      * unfold all_records. simpl. by rewrite Hq, Hb.
      * rewrite Hflush. unfold all_records. by rewrite Hq, Hb.
Qed.

Lemma batch_processor_conserves_records (n : nat) (start : Z) (puts : list (Z * Rec)) :
  all_records (_batch_processor batch_size flush_interval process_time n start puts)
  = map snd puts.
Proof.
  unfold _batch_processor. induction n as [|n IH]; simpl; [done|].
  by rewrite iteration_conserves_records.
Qed.

(** A pending batch is handed to [_process_batch] within as many
    iterations as it is short of the batch size. *)
Lemma pending_batch_is_processed (m : nat) :
  forall st : state Rec,
    pend st -> batch st <> [] ->
    batch_size - Z.of_nat (length (batch st)) <= Z.of_nat m ->
    exists k f,
      (1 <= k <= m)%nat
      /\ processed (Nat.iter k step st) = processed st ++ [f]
      /\ batch st `prefix_of` records f.
Proof.
  induction m as [|m IH]; intros st Hpend Hne Hm.
  { destruct Hpend as [?|(_ & Hlen & _)]; [done|lia]. }
  assert (Htimeout : forall q,
    processed (process process_time (now st + flush_interval) (batch st) IdleTimeout q
                 (processed st))
    = processed st ++ [{| at_time := now st + flush_interval; records := batch st;
                          why := IdleTimeout |}]) by done.
  destruct (queue st) as [|[put_at record] rest] eqn:Hq.
  - exists 1%nat, {| at_time := now st + flush_interval; records := batch st;
                     why := IdleTimeout |}.
    split; [lia|]. simpl. unfold iteration. rewrite Hq.
    destruct (batch st) eqn:Hb; [done|]. by rewrite <- Hb.
  - destruct (put_at <? now st + flush_interval) eqn:Hput.
    + set (t := Z.max (now st) put_at).
      destruct (Z.of_nat (length (batch st ++ [(t, record)])) >=? batch_size) eqn:Hfull.
      * exists 1%nat, {| at_time := t; records := batch st ++ [(t, record)];
                         why := BatchFull |}.
        split; [lia|]. simpl. unfold iteration. rewrite Hq, Hput. fold t. rewrite Hfull.
        split; [done|]. by apply prefix_app_r.
      * pose proof (iteration_invariant st) as Hinv.
        assert (Hstep : step st = {| now := t; batch := batch st ++ [(t, record)];
                                     queue := rest; processed := processed st |}).
        { unfold iteration. rewrite Hq, Hput. fold t. by rewrite Hfull. }
        destruct (IH (step st)) as (k & f & Hk & Hproc & Hpre).
        -- rewrite Hstep. right. simpl.
           assert (Ht : now st <= t < now st + flush_interval)
        by (apply Z.ltb_lt in Hput; subst t; lia).
           repeat split; [|lia|by eexists _, _].
           destruct Hpend as [?|(Hsp & _ & earlier & r & Hb)]; [done|].
           rewrite Hb. apply closely_spaced_snoc; [by rewrite <- Hb|done].
        -- rewrite Hstep. simpl. by destruct (batch st).
        -- rewrite Hstep. simpl. rewrite List.length_app. simpl. lia.
        -- exists (S k), f. split; [lia|].
           rewrite Nat.iter_succ_r. rewrite Hproc. rewrite Hstep. simpl. split; [done|].
           rewrite Hstep in Hpre. simpl in Hpre.
           etransitivity; [|exact Hpre]. by apply prefix_app_r.
    + exists 1%nat, {| at_time := now st + flush_interval; records := batch st;
                       why := IdleTimeout |}.
      split; [lia|]. simpl. unfold iteration. rewrite Hq, Hput.
      destruct (batch st) eqn:Hb; [done|]. by rewrite <- Hb.
Qed.

(** C6 (amended).  Whatever records are put on the queue and whenever,
    every batch handed to [_process_batch] is non-empty and is handed over
    either at the instant its last record is taken, being the first record
    to bring it to the batch size, or [flush_interval] after its last
    record was taken, no further record having been put in between; within
    a batch each record was taken less than [flush_interval] after the
    one before.  A pending batch is always processed, after at most as many
    further records as it is short of the batch size. *)
Theorem batch_processor_flushes (n : nat) (start : Z) (puts : list (Z * Rec)) :
  let st := _batch_processor batch_size flush_interval process_time n start puts in
  Forall ok (processed st)
  /\ (batch st <> [] ->
      exists k f,
        (1 <= k)%nat /\ Z.of_nat k <= batch_size - Z.of_nat (length (batch st))
        /\ processed (Nat.iter k step st) = processed st ++ [f]
        /\ batch st `prefix_of` records f).
Proof.
  intros st. destruct (batch_processor_invariant n start puts) as [Hdone Hpend].
  split; [exact Hdone|]. intros Hne. fold st in Hpend.
  assert (Hshort : Z.of_nat (length (batch st)) < batch_size).
  { destruct Hpend as [?|(_ & Hlen & _)]; [done|exact Hlen]. }
  destruct (pending_batch_is_processed
              (Z.to_nat (batch_size - Z.of_nat (length (batch st)))) st Hpend Hne)
    as (k & f & Hk & Hproc & Hpre); [lia|].
  exists k, f. repeat split; [lia|lia|done|done].
Qed.

End LearningFacts.

(** C6 as stated fails for a batch counted from its first record: with
    batch size 10 and a flush interval of 5 seconds, records put at 0 s,
    4 s and 8 s are processed together at 13 s; the batch was pending,
    below the batch size, for 13 seconds. *)
Lemma batch_pending_longer_than_flush_interval :
  let st := Learning._batch_processor 10 5000 (fun _ => 0) 4 0
              [(0, "r1"); (4000, "r2"); (8000, "r3")] in
  Learning.processed st
  = [{| Learning.at_time := 13000;
        Learning.records := [(0, "r1"); (4000, "r2"); (8000, "r3")];
        Learning.why := Learning.IdleTimeout |}]
  /\ ~ (13000 <= 0 + 5000)
  /\ ~ (10 <= Z.of_nat (length [(0, "r1"); (4000, "r2"); (8000, "r3")])).
Proof. repeat split; (reflexivity || (vm_compute; intros H; apply H; reflexivity)). Qed.

Lemma batch_processor_flushes_witness :
  0 < 5000
  /\ Forall (Learning.flush_ok 10 5000)
       (Learning.processed
          (Learning._batch_processor 10 5000 (fun _ => 0) 4 0
             [(0, "r1"); (4000, "r2"); (8000, "r3")])).
Proof.
  split; [reflexivity|].
  exact (proj1 (batch_processor_flushes 10 5000 (fun _ : list string => 0) eq_refl 4 0
                  [(0, "r1"); (4000, "r2"); (8000, "r3")])).
Defined.

Example batch_processor_full_batch :
  Learning.processed
    (Learning._batch_processor 2 5000 (fun _ => 10) 3 0
       [(0, "r1"); (100, "r2"); (105, "r3")])
  = [{| Learning.at_time := 100;
        Learning.records := [(0, "r1"); (100, "r2")];
        Learning.why := Learning.BatchFull |}]
  /\ Learning.batch
       (Learning._batch_processor 2 5000 (fun _ => 10) 3 0
          [(0, "r1"); (100, "r2"); (105, "r3")])
     = [(110, "r3")].
Proof. split; reflexivity. Qed.

(** ** Gating network *)
Section GatingFacts.
Import Gating.
Context {Tensor Stats Rng : Type}.
Variables fc1 fc2 fc3 : Tensor -> Tensor.
Variable relu : Tensor -> Tensor.
Variable softmax : Tensor -> Tensor.
Variable add : Tensor -> Tensor -> Tensor.
Variable scale : Tensor -> Q -> Tensor.
Variable bn_running : Stats -> Tensor -> Tensor.
Variable bn_batch : Stats -> Tensor -> Tensor * Stats.
Variable dropout_mask : Rng -> Tensor -> Tensor * Rng.
Variable randn_like : Rng -> Tensor -> Tensor * Rng.

Local Abbreviation fwd :=
  (forward fc1 fc2 fc3 relu softmax add scale bn_running bn_batch dropout_mask randn_like).

(** In evaluation mode the forward pass is a function of the input and of
    the running statistics: it draws nothing from the generator and leaves
    the module as it was. *)
Lemma forward_eval (self : GatingNetwork) (g : Rng) (x : Tensor) :
  fwd (eval self) g x
  = (softmax (fc3 (relu (bn_running (bn2 self)
       (fc2 (relu (bn_running (bn1 self) (fc1 x))))))),
     eval self, g).
Proof. reflexivity. Qed.

(** In training mode the scores are perturbed: the softmax is taken of
    the logits plus 0.1 times a draw from the generator. *)
Lemma forward_train (self : GatingNetwork) (g : Rng) (x : Tensor) :
  let '(h1, s1) := bn_batch (bn1 self) (fc1 x) in
  let '(h1, g1) := dropout_mask g (relu h1) in
  let '(h2, s2) := bn_batch (bn2 self) (fc2 h1) in
  let '(h2, g2) := dropout_mask g1 (relu h2) in
  let '(noise, g3) := randn_like g2 (fc3 h2) in
  fwd (train self) g x
  = (softmax (add (fc3 h2) (scale noise (1 # 10))),
     {| training := true; bn1 := s1; bn2 := s2 |}, g3).
Proof.
  unfold forward, batch_norm, dropout. simpl.
  destruct (bn_batch (bn1 self) (fc1 x)) as [h1 s1].
  destruct (dropout_mask g (relu h1)) as [h1' g1].
  destruct (bn_batch (bn2 self) (fc2 h1')) as [h2 s2].
  destruct (dropout_mask g1 (relu h2)) as [h2' g2].
  destruct (randn_like g2 (fc3 h2')) as [noise g3]. reflexivity.
Qed.

(** C9.  With training disabled, two runs of [forward] on the same
    context embedding give the same expert weights, whatever the state of
    the random generator at each run: no random number is drawn, no
    perturbation is added to the logits and the module is not changed by
    a run.  The perturbation of the scores is tied to the training flag. *)
Theorem gating_forward_deterministic_in_eval
    (self : GatingNetwork) (g1 g2 : Rng) (x : Tensor) :
  let run1 := fwd (eval self) g1 x in
  let run2 := fwd run1.1.2 g2 x in
  run1.1.1 = run2.1.1
  /\ run1.1.1 = (fwd (eval self) g2 x).1.1
  /\ run1.1.2 = eval self
  /\ run1.2 = g1 /\ run2.2 = g2.
Proof.
  intros run1 run2. subst run2. subst run1.
  rewrite !(forward_eval self). cbn [fst snd]. rewrite ?(forward_eval self). done.
Qed.

End GatingFacts.

(** On the toy network: in training mode two states of the generator
    give different weights for the same input, in evaluation mode the same
    ones. *)
Example toy_gating_runs :
  let self := {| Gating.training := true; Gating.bn1 := tt; Gating.bn2 := tt |} in
  (Gating.toy_forward self [1%Q; 0%Q] (1%Q, 1%Q)).1.1 = ((11 # 21)%Q, (10 # 21)%Q)
  /\ (Gating.toy_forward self [0%Q; 1%Q] (1%Q, 1%Q)).1.1 = ((10 # 21)%Q, (11 # 21)%Q)
  /\ (Gating.toy_forward (Gating.eval self) [1%Q; 0%Q] (1%Q, 1%Q)).1.1 = ((1 # 2)%Q, (1 # 2)%Q)
  /\ (Gating.toy_forward (Gating.eval self) [0%Q; 1%Q] (1%Q, 1%Q)).1.1 = ((1 # 2)%Q, (1 # 2)%Q).
Proof. repeat split; reflexivity. Qed.

(** ** Top-K routing *)
Section RouterFacts.
Import Router.

Lemma insert_ranked_perm (x : Expert * Q) l : insert_ranked x l ≡ₚ x :: l.
Proof.
  induction l as [|y l IH]; simpl; [done|].
  destruct (before x y); [done|]. rewrite IH. apply Permutation_swap.
Qed.

Lemma rank_perm (l : list (Expert * Q)) : rank l ≡ₚ l.
Proof.
  induction l as [|x l IH]; [done|].
  unfold rank in *. simpl. by rewrite insert_ranked_perm, IH.
Qed.

(** [rank] puts higher scores first, so the first [k] of a ranking are [k]
    experts no other expert outscores. *)
Lemma before_false_score (x y : Expert * Q) : before x y = false -> (x.2 <= y.2)%Q.
Proof.
  unfold before. destruct (y.2 ?= x.2)%Q eqn:Hc; [|done|].
  - intros _. apply Qeq_alt in Hc. rewrite Hc. apply Qle_refl.
  - intros _. apply Qgt_alt in Hc. by apply Qlt_le_weak.
Qed.

Lemma before_true_score (x y : Expert * Q) : before x y = true -> (y.2 <= x.2)%Q.
Proof.
  unfold before. destruct (y.2 ?= x.2)%Q eqn:Hc; [| |done].
  - intros _. apply Qeq_alt in Hc. rewrite Hc. apply Qle_refl.
  - intros _. apply Qlt_alt in Hc. by apply Qlt_le_weak.
Qed.

Lemma insert_ranked_sorted (x : Expert * Q) l :
  Sorted (fun a b => (b.2 <= a.2)%Q) l ->
  Sorted (fun a b => (b.2 <= a.2)%Q) (insert_ranked x l).
Proof.
  induction 1 as [|y l Hl IH Hhd]; simpl; [by repeat constructor|].
  destruct (before x y) eqn:Hxy.
  - constructor; [by constructor|]. constructor. by apply before_true_score.
  - constructor; [done|]. apply before_false_score in Hxy.
    destruct Hhd as [|z l' Hyz]; simpl; [by constructor|].
    destruct (before x z); by constructor.
Qed.

Lemma rank_sorted (l : list (Expert * Q)) :
  Sorted (fun a b => (b.2 <= a.2)%Q) (rank l).
Proof.
  induction l as [|x l IH]; [constructor|].
  unfold rank in *. simpl. by apply insert_ranked_sorted.
Qed.

Lemma rank_top_k (l : list (Expert * Q)) (k : nat) (a b : Expert * Q) :
  a ∈ take k (rank l) -> b ∈ drop k (rank l) -> (b.2 <= a.2)%Q.
Proof.
  intros Ha Hb.
  assert (Htrans : Transitive (fun a b : Expert * Q => (b.2 <= a.2)%Q)).
  { intros x y z Hxy Hyz. by eapply Qle_trans. }
  pose proof (Sorted_StronglySorted _ _ (rank_sorted l)) as Hs.
  rewrite <- (take_drop k (rank l)) in Hs.
  by eapply (StronglySorted_app_1_elem_of _ _ _ a b Hs).
Qed.

Lemma total_nonneg (l : list Q) : Forall (fun s => 0 < s)%Q l -> (0 <= total l)%Q.
Proof.
  induction 1 as [|s l Hs _ IH]; simpl; [done|]. lra.
Qed.

Lemma total_pos (l : list Q) : Forall (fun s => 0 < s)%Q l -> l <> [] -> (0 < total l)%Q.
Proof.
  intros Hl Hne. destruct Hl as [|s l Hs Hl]; [done|].
  simpl. pose proof (total_nonneg l Hl). lra.
Qed.

Lemma total_div (l : list Q) (c : Q) :
  (total (map (fun s => s / c) l) == total l / c)%Q.
Proof.
  induction l as [|s l IH]; simpl.
  - unfold Qdiv. ring.
  - rewrite IH. unfold Qdiv. ring.
Qed.

Lemma snd_renormalised (l : list (Expert * Q)) (c : Q) :
  map snd (map (fun es => (es.1, (es.2 / c)%Q)) l) = map (fun s => (s / c)%Q) (map snd l).
Proof. induction l as [|es l IH]; simpl; [done|by f_equal]. Qed.

Lemma invoked_selected (l : list (Expert * Q)) (c : Q) :
  Forall (fun es => 0 < es.2)%Q l -> (0 < c)%Q ->
  invoked (map (fun es => (es.1, (es.2 / c)%Q)) l) = map fst l.
Proof.
  intros Hl Hc. unfold invoked.
  induction Hl as [|es l Hes _ IH]; [done|]. simpl.
  rewrite filter_cons_True; [simpl; by f_equal|]. simpl.
  apply negb_prop_intro. rewrite Is_true_true, Qeq_bool_iff.
  assert (0 < es.2 / c)%Q by (apply Qlt_shift_div_l; lra). lra.
Qed.

Lemma invoked_rest (l : list (Expert * Q)) :
  invoked (map (fun es => (es.1, 0%Q)) l) = [].
Proof.
  unfold invoked. induction l as [|es l IH]; [done|]. simpl.
  rewrite filter_cons_False; [done|]. simpl. by intros [].
Qed.

(** C2.  For a routing of [n] candidates, scored by positive weights (as
    a softmax gives), to [k] experts with [1 <= k < n]: exactly [k]
    experts get a non-zero weight, these are the [k] selected ones, their
    weights sum to 1, every other expert gets weight zero and is not among
    the invoked ones. *)
Theorem route_sparsity (scores : list Q) (candidates : list Expert) (k : nat) :
  length scores = length candidates ->
  Forall (fun s => 0 < s)%Q scores ->
  NoDup candidates ->
  (1 <= k < length candidates)%nat ->
  let routing := Route scores candidates k in
  length routing = length candidates
  /\ length (invoked routing) = k
  /\ invoked routing = map fst (take k routing)
  /\ (total (map snd (take k routing)) == 1)%Q
  /\ Forall (fun ew => ~ (ew.2 == 0)%Q) (take k routing)
  /\ Forall (fun ew => ew.2 = 0%Q) (drop k routing)
  /\ Forall (fun e => e ∉ invoked routing) (map fst (drop k routing)).
Proof.
  intros Hlen Hpos Hnd Hk routing. subst routing. unfold Route.
  set (ranked := rank (zip candidates scores)).
  set (selected := take k ranked).
  set (sum := total (map snd selected)).
  assert (Hrl : length ranked = length candidates).
  { unfold ranked. rewrite rank_perm, length_zip. lia. }
  assert (Hrpos : Forall (fun es => 0 < es.2)%Q ranked).
  { unfold ranked. rewrite rank_perm. apply Forall_forall. intros [e s] Hin.
    apply elem_of_zip_r in Hin. simpl. by eapply (proj1 (Forall_forall _ _) Hpos). }
  assert (Hsl : length selected = k) by (unfold selected; rewrite length_take; lia).
  assert (Hspos : Forall (fun es => 0 < es.2)%Q selected) by (by apply Forall_take).
  assert (Hsum : (0 < sum)%Q).
  { apply total_pos; [by apply Forall_fmap|]. destruct selected; simpl in *; [lia|done]. }
  set (chosen := map (fun es => (es.1, (es.2 / sum)%Q)) selected).
  set (rest := map (fun es => (es.1, 0%Q)) (drop k ranked)).
  assert (Hcl : length chosen = k) by (unfold chosen; by rewrite length_map).
  assert (Htake : take k (chosen ++ rest) = chosen) by (by apply take_app_length').
  assert (Hdrop : drop k (chosen ++ rest) = rest) by (by apply drop_app_length').
  assert (Hinv : invoked (chosen ++ rest) = map fst selected).
  { unfold invoked. rewrite filter_app, map_app. fold (invoked chosen) (invoked rest).
    unfold chosen, rest. rewrite invoked_selected, invoked_rest by done.
    by rewrite app_nil_r. }
  rewrite Htake, Hdrop, Hinv.
  assert (Hfst : map fst chosen = map fst selected).
  { unfold chosen. rewrite map_map. by apply map_ext. }
  split; [|split; [|split; [|split; [|split; [|split]]]]].
  - rewrite length_app. unfold chosen, rest. rewrite !length_map, length_drop. lia.
  - by rewrite length_map.
  - by rewrite Hfst.
  - unfold chosen. rewrite snd_renormalised, total_div. fold sum.
    field. lra.
  - unfold chosen. apply Forall_fmap. eapply Forall_impl; [exact Hspos|].
    intros es Hes. simpl.
    assert (Hw : (0 < es.2 / sum)%Q)
      by (apply Qlt_shift_div_l; [exact Hsum|rewrite Qmult_0_l; exact Hes]).
    intros Heq. rewrite Heq in Hw. by apply Qlt_irrefl in Hw.
  - unfold rest. apply Forall_fmap, Forall_true. done.
  - assert (Hnd' : NoDup (map fst (selected ++ drop k ranked))).
    { unfold selected. rewrite take_drop. unfold ranked. rewrite rank_perm.
      rewrite fst_zip by lia. done. }
    rewrite map_app in Hnd'. apply NoDup_app in Hnd' as (_ & Hdisj & _).
    apply Forall_forall. intros e He Hsel. apply (Hdisj e Hsel).
    unfold rest in He. by rewrite map_map in He.
Qed.

End RouterFacts.

Example route_top_2 :
  map (fun ew => (Router.name ew.1, Qred ew.2))
    (Router.Route sample_scores sample_experts 2)
  = [("objection", (6 # 11)%Q); ("rapport", (5 # 11)%Q); ("technical", 0%Q);
     ("discovery", 0%Q); ("pricing", 0%Q); ("closing", 0%Q)].
Proof. reflexivity. Qed.

Lemma sample_experts_distinct : NoDup sample_experts.
Proof. apply (NoDup_fmap_1 Router.name). compute_done. Qed.

Lemma sample_scores_positive : Forall (fun s => 0 < s)%Q sample_scores.
Proof. repeat constructor. Qed.

Lemma route_sparsity_witness :
  length (Router.invoked (Router.Route sample_scores sample_experts 2)) = 2%nat
  /\ (Router.total (map snd (take 2 (Router.Route sample_scores sample_experts 2))) == 1)%Q.
Proof.
  pose proof (route_sparsity sample_scores sample_experts 2 eq_refl
                sample_scores_positive sample_experts_distinct
                (conj (le_S _ _ (le_n 1)) (le_S _ _ (le_S _ _ (le_S _ _ (le_n 3)))))) as H.
  split; [exact (proj1 (proj2 H)) | exact (proj1 (proj2 (proj2 (proj2 H))))].
Defined.

(* ====================================================================== *)
(** * Further properties of the same components *)
(* ====================================================================== *)

(** ** Retry policy: the two versions, the sleeps, the bound is reached *)
Section RetryMore.
Import Retry Orchestrator.
Context {World R E : Type}.
Variable func : World -> (R + E) * World.
Variable random : World -> Q * World.
Variable sleep : Q -> World -> World.

(** Over the attempts [i, ..., max_retries] the statement after the loop
    is never reached, so it does not matter. *)
Lemma retry_loop_after_irrelevant self should_retry after1 after2 n :
  forall i last1 last2 w,
    Z.of_nat (i + n) = max_retries self ->
    retry_loop func random sleep self should_retry after1
      (map Z.of_nat (seq i (S n))) last1 w
    = retry_loop func random sleep self should_retry after2
      (map Z.of_nat (seq i (S n))) last2 w.
Proof.
  induction n as [|n IH]; intros i last1 last2 w Hi; cbn [seq map retry_loop].
  all: destruct (func w) as [[r|e] w1]; [reflexivity|].
  all: destruct (negb (retryable should_retry e)); [reflexivity|].
  - by replace (Z.of_nat i >=? max_retries self) with true by lia.
  - replace (Z.of_nat i >=? max_retries self) with false by lia.
    destruct (get_delay random self (Z.of_nat i) w1) as [[d|] w2]; [|reflexivity].
    apply (IH (S i) (Some e) (Some e) (sleep d w2)). lia.
Qed.

(** X1.  For a policy with [max_retries >= 0] the version of
    [execute_with_retry] that ends with [raise last_exception] and the
    version that ends with the loop do the same: same result or error,
    same calls, same sleeps. *)
Theorem execute_with_retry_versions_agree
    (self : RetryPolicy) (should_retry : option (E -> bool)) (w : World) :
  0 <= max_retries self ->
  execute_with_retry func random sleep self should_retry w
  = execute_with_retry_guide func random sleep self should_retry w.
Proof.
  intros Hmax. unfold execute_with_retry, execute_with_retry_guide, py_range.
  replace (Z.to_nat (max_retries self + 1)) with (S (Z.to_nat (max_retries self))) by lia.
  apply retry_loop_after_irrelevant. lia.
Qed.

End RetryMore.

Lemma execute_with_retry_versions_agree_witness :
  Retry.execute_with_retry (Retry.flaky 2) (Retry.fixed_draw (3 # 4)) Retry.no_sleep
    Retry.default_policy None 0%nat
  = Retry.execute_with_retry_guide (Retry.flaky 2) (Retry.fixed_draw (3 # 4)) Retry.no_sleep
    Retry.default_policy None 0%nat.
Proof.
  exact (execute_with_retry_versions_agree (Retry.flaky 2) (Retry.fixed_draw (3 # 4))
           Retry.no_sleep Retry.default_policy None 0%nat
           ltac:(vm_compute; discriminate)).
Defined.

Section RetrySleeps.
Import Retry Orchestrator.
Context {World R E : Type}.
Variable func : World -> (R + E) * World.
Variable random : World -> Q * World.
Variable sleep : Q -> World -> World.

Local Abbreviation tfunc := (logged_func (traced_func func)).
Local Abbreviation trandom := (@logged_random (World * list Q) R E (traced_random random)).
Local Abbreviation tsleep := (@logged_sleep (World * list Q) R E (traced_sleep sleep)).








Lemma retry_loop_all_fail self should_retry after n :
  always_failing func should_retry ->
  forall i last_exception w log,
    Z.of_nat (i + n) = max_retries self ->
    length log = i ->
    (forall a, Z.of_nat i <= a < max_retries self -> power_overflows self a = false) ->
    let run := retry_loop (logged_func func) (@logged_random World R E random)
                 (@logged_sleep World R E sleep) self should_retry after
                 (map Z.of_nat (seq i (S n))) last_exception (w, log) in
    Z.of_nat (length run.2.2) = max_retries self + 1
    /\ exists e, run.1 = Raise e /\ last run.2.2 = Some (inr e).
Proof.
  intros Hfail.
  induction n as [|n IH]; intros i last_exception w log Hi Hlen Hpow;
    cbn [seq map retry_loop]; rewrite logged_func_eq.
  all: destruct (Hfail w) as (e & He & Hre); apply retryable_accepted in Hre.
  all: destruct (func w) as [o w1]; cbn [fst snd] in *; subst o.
  all: rewrite Hre; cbn [negb].
  - replace (Z.of_nat i >=? max_retries self) with true by lia. cbn [fst snd].
    split; [rewrite List.length_app; simpl; lia|].
    exists e. split; [done|]. by rewrite last_snoc.
  - replace (Z.of_nat i >=? max_retries self) with false by lia.
    rewrite get_delay_logged.
    destruct (get_delay_cases random self (Z.of_nat i) w1) as [[Hov _]|(_ & d & w2 & ->)].
    { rewrite Hpow in Hov; [done|lia]. }
    unfold logged_sleep; cbn [fst snd].
    apply (IH (S i) (Some e) (sleep d w2) (log ++ [inr e])); [lia| |].
    + rewrite List.length_app; simpl; lia.
    + intros a Ha. apply Hpow. lia.
Qed.

Lemma retry_loop_all_fail_overflow self should_retry after n :
  always_failing func should_retry ->
  forall i last_exception w log a,
    Z.of_nat (i + n) = max_retries self ->
    length log = i ->
    Z.of_nat i <= a < max_retries self ->
    power_overflows self a = true ->
    (forall b, Z.of_nat i <= b < a -> power_overflows self b = false) ->
    let run := retry_loop (logged_func func) (@logged_random World R E random)
                 (@logged_sleep World R E sleep) self should_retry after
                 (map Z.of_nat (seq i (S n))) last_exception (w, log) in
    Z.of_nat (length run.2.2) = a + 1 /\ run.1 = RaiseOverflowError.
Proof.
  intros Hfail.
  induction n as [|n IH]; intros i last_exception w log a Hi Hlen Ha Hov Hpow; [lia|].
  cbn [seq map retry_loop]; rewrite logged_func_eq.
  destruct (Hfail w) as (e & He & Hre); apply retryable_accepted in Hre.
  destruct (func w) as [o w1]; cbn [fst snd] in *; subst o.
  rewrite Hre; cbn [negb].
  replace (Z.of_nat i >=? max_retries self) with false by lia.
  rewrite get_delay_logged.
  destruct (get_delay_cases random self (Z.of_nat i) w1) as [[Hi_ov ->]|(Hi_ok & d & w2 & ->)].
  - cbn [fst snd]. split; [|done].
    destruct (decide (a = Z.of_nat i)) as [->|Hne].
    + rewrite List.length_app; simpl; lia.
    + rewrite Hpow in Hi_ov; [done|lia].
  - unfold logged_sleep; cbn [fst snd].
    assert (Hne : a <> Z.of_nat i) by (intros ->; congruence).
    apply (IH (S i) (Some e) (sleep d w2) (log ++ [inr e]) a); [lia| |lia|done|].
    + rewrite List.length_app; simpl; lia.
    + intros b Hb. apply Hpow. lia.
Qed.

(** X4.  The bound on the attempts is reached: when every call raises an
    error that is retried and no power of a delay overflows, the run makes
    exactly [max_retries + 1] calls and raises the error of the last one.
    When the power first overflows at attempt [a] below [max_retries], the
    run makes [a + 1] calls and ends with [OverflowError]. *)
Theorem execute_with_retry_exhausts_attempts
    (self : RetryPolicy) (should_retry : option (E -> bool)) (w : World) :
  0 <= max_retries self ->
  always_failing func should_retry ->
  let run := execute_with_retry (logged_func func) (@logged_random World R E random)
               (@logged_sleep World R E sleep) self should_retry (w, []) in
  ((forall a, 0 <= a < max_retries self -> power_overflows self a = false) ->
   Z.of_nat (length run.2.2) = max_retries self + 1
   /\ exists e, run.1 = Raise e /\ last run.2.2 = Some (inr e))
  /\ (forall a, 0 <= a < max_retries self ->
        power_overflows self a = true ->
        (forall b, 0 <= b < a -> power_overflows self b = false) ->
        Z.of_nat (length run.2.2) = a + 1 /\ run.1 = RaiseOverflowError).
Proof.
  intros Hmax Hfail. unfold execute_with_retry, py_range.
  replace (Z.to_nat (max_retries self + 1)) with (S (Z.to_nat (max_retries self))) by lia.
  split.
  - intros Hpow.
    apply (retry_loop_all_fail self should_retry _ (Z.to_nat (max_retries self)) Hfail
             0%nat None w []); [lia|done|].
    intros a Ha. apply Hpow. lia.
  - intros a Ha Hov Hpow.
    apply (retry_loop_all_fail_overflow self should_retry _ (Z.to_nat (max_retries self)) Hfail
             0%nat None w [] a); [lia|done|lia|done|].
    intros b Hb. apply Hpow. lia.
Qed.


(** A check that can be run: no power overflows below attempt [n]. *)
Lemma no_overflow_below (self : RetryPolicy) (n : Z) :
  forallb (fun a => negb (power_overflows self a)) (py_range n) = true ->
  forall a, 0 <= a < n -> power_overflows self a = false.
Proof.
  intros Hall a Ha. rewrite forallb_forall in Hall.
  apply negb_true_iff, Hall.
  unfold py_range. apply in_map_iff. exists (Z.to_nat a).
  split; [lia|]. apply in_seq. lia.
Qed.

End RetrySleeps.

(** ** The orchestrator's retried tool call *)
Section ToolCallFacts.
Import Retry Orchestrator.
Context {World R E : Type}.
Variable executor : ToolCall -> World -> (Q * (R + E)) * World.
Variable random : World -> Q * World.
Variable sleep : Q -> World -> World.
Variable is_retryable_error : tool_error E -> bool.

Local Abbreviation cexec := (counted_executor executor).
Local Abbreviation crandom := (counted_random random).
Local Abbreviation csleep := (counted_sleep sleep).

Lemma execute_tool_counted call w n :
  execute_tool cexec call (w, n)
  = ((execute_tool executor call w).1, ((execute_tool executor call w).2, S n)).
Proof.
  unfold execute_tool, counted_executor; simpl.
  destruct (executor call w) as [[d o] w']; simpl.
  destruct (Qle_bool (timeout call) d); [done|]. by destruct o.
Qed.

Lemma execute_tool_fails call w :
  tool_fails executor call w -> exists e, (execute_tool executor call w).1 = inr e.
Proof.
  unfold tool_fails, execute_tool. destruct (executor call w) as [[d o] w']; simpl.
  intros [Hlate|[e ->]].
  - apply Qle_bool_iff in Hlate. rewrite Hlate. by eexists.
  - destruct (Qle_bool (timeout call) d); by eexists.
Qed.

Lemma get_delay_counted self attempt w n :
  get_delay crandom self attempt (w, n) =
  ((get_delay random self attempt w).1, ((get_delay random self attempt w).2, n)).
Proof.
  unfold get_delay, counted_random; simpl.
  destruct (power_overflows self attempt); [done|].
  destruct (jitter self); [destruct (random w)|]; reflexivity.
Qed.

Lemma retry_loop_counts_failures self call should_retry after k :
  (forall w, tool_fails executor call w) ->
  (forall e, retryable should_retry e = true) ->
  forall i last_exception w n,
    Z.of_nat (i + k) = max_retries self ->
    (forall a, Z.of_nat i <= a < max_retries self -> power_overflows self a = false) ->
    (retry_loop (execute_tool cexec call) crandom csleep self should_retry after
       (map Z.of_nat (seq i (S k))) last_exception (w, n)).2.2 = (n + S k)%nat.
Proof.
  intros Hfail Hretry.
  induction k as [|k IH]; intros i last_exception w n Hi Hpow;
    cbn [seq map retry_loop]; rewrite execute_tool_counted.
  all: destruct (execute_tool_fails call w (Hfail w)) as [e He].
  all: destruct (execute_tool executor call w) as [o w1]; cbn [fst snd] in *; subst o.
  all: rewrite Hretry; cbn [negb].
  - replace (Z.of_nat i >=? max_retries self) with true by lia. simpl. lia.
  - replace (Z.of_nat i >=? max_retries self) with false by lia.
    rewrite get_delay_counted.
    destruct (get_delay_cases random self (Z.of_nat i) w1) as [[Hov _]|(_ & d & w2 & ->)].
    { rewrite Hpow in Hov; [done|lia]. }
    unfold counted_sleep; cbn [fst snd].
    etransitivity; [apply (IH (S i) (Some e) (sleep d w2) (S n)); [lia|]|lia].
    intros a Ha. apply Hpow. lia.
Qed.

(** X6.  A tool call whose [retry_on_failure] flag is off is handed to
    the retry policy without a predicate, so every failure is retried: a
    tool that keeps failing (by raising or by overrunning its timeout) is
    invoked [max_retries + 1] times, as long as no power of a delay
    overflows.  With the flag on and a classifier that calls no error
    retryable, it is invoked once. *)
Theorem tool_call_retries_by_flag
    (retry_policy : RetryPolicy) (call : ToolCall) (w : World) :
  0 <= max_retries retry_policy ->
  (forall w', tool_fails executor call w') ->
  let invocations :=
    (_execute_tool_call_enhanced cexec crandom csleep is_retryable_error
       retry_policy call (w, 0%nat)).2.2 in
  (retry_on_failure call = false ->
   (forall a, 0 <= a < max_retries retry_policy ->
      power_overflows retry_policy a = false) ->
   Z.of_nat invocations = max_retries retry_policy + 1)
  /\ (retry_on_failure call = true ->
      (forall e, is_retryable_error e = false) ->
      invocations = 1%nat).
Proof.
  intros Hmax Hfail invocations. subst invocations.
  unfold _execute_tool_call_enhanced, execute_with_retry_guide, should_retry_of, py_range.
  replace (Z.to_nat (max_retries retry_policy + 1))
    with (S (Z.to_nat (max_retries retry_policy))) by lia.
  split.
  - intros -> Hpow.
    rewrite (retry_loop_counts_failures retry_policy call None _
               (Z.to_nat (max_retries retry_policy)) Hfail (fun _ => eq_refl)); [lia|lia|].
    intros a Ha. apply Hpow. lia.
  - intros -> Hnever. cbn [seq map retry_loop]. rewrite execute_tool_counted.
    destruct (execute_tool_fails call w (Hfail w)) as [e He].
    destruct (execute_tool executor call w) as [o w1]; cbn [fst snd] in *; subst o.
    simpl. by rewrite Hnever.
Qed.

End ToolCallFacts.

(** ** Cache manager: statistics, independence of keys, overwriting *)
Section CacheMore.
Import Json Cache CacheOps.
Variable json_loads : string -> option json.

Lemma get_counters self db now tool_name parameters context :
  let '(_, self', _) := get json_loads self db now tool_name parameters context in
  hit_count self' + miss_count self' = hit_count self + miss_count self + 1
  /\ hit_count self <= hit_count self' /\ miss_count self <= miss_count self'
  /\ default_ttl self' = default_ttl self.
Proof.
  unfold get. destruct (redis_get _ _ _) as [[text|] db'].
  - destruct (truthy text); [destruct (json_loads text)|]; simpl; lia.
  - simpl. lia.
Qed.

Lemma perform_all_counters calls : forall st,
  let st' := perform_all json_loads st calls in
  hit_count st'.1 + miss_count st'.1
  = hit_count st.1 + miss_count st.1 + Z.of_nat (length (filter is_get calls))
  /\ hit_count st.1 <= hit_count st'.1 /\ miss_count st.1 <= miss_count st'.1.
Proof.
  induction calls as [|c calls IH]; intros st; [simpl; lia|].
  specialize (IH (perform json_loads st c)). unfold perform_all in *.
  cbn [fold_left]. cbn zeta in *. destruct IH as (IH1 & IH2 & IH3).
  destruct c as [now t p c|now t p c r ttl].
  - rewrite filter_cons_True by done.
    pose proof (get_counters st.1 st.2 now t p c) as Hg.
    unfold perform in *.
    destruct (get json_loads st.1 st.2 now t p c) as [[res self'] db'].
    cbn [fst snd length] in *. lia.
  - rewrite filter_cons_False by (simpl; tauto).
    unfold perform in *.
    destruct (set st.1 st.2 now t p c r ttl); cbn [fst snd] in *; lia.
Qed.

(** X7.  Starting from a fresh manager, after any sequence of [get] and
    [set] calls the two counters add up to the number of [get] calls made,
    and [get_stats] reports a hit rate between 0 and 1; before the first
    [get] the hit rate is 0 (there is no division by zero). *)
Theorem cache_stats_account_for_gets
    (db : gmap string entry) (calls : list call) :
  let self := (perform_all json_loads (new_manager, db) calls).1 in
  let s := get_stats self in
  stat_hits s + stat_misses s = Z.of_nat (length (filter is_get calls))
  /\ (0 <= hit_rate s <= 1)%Q
  /\ (filter is_get calls = [] -> hit_rate s = 0%Q).
Proof.
  intros self s.
  destruct (perform_all_counters calls (new_manager, db)) as (Hsum & Hh & Hm).
  fold self in Hsum, Hh, Hm. simpl in Hsum, Hh, Hm.
  subst s. unfold get_stats. simpl. split; [lia|].
  destruct (hit_count self + miss_count self >? 0) eqn:Htot.
  - split.
    + split.
      * apply Qle_shift_div_l; [unfold Qlt; simpl; lia|]. unfold Qle; simpl; lia.
      * apply Qle_shift_div_r; [unfold Qlt; simpl; lia|]. unfold Qle; simpl; lia.
    + intros Hnil. rewrite Hnil in Hsum. simpl in Hsum. lia.
  - split; [split; discriminate|done].
Qed.

Lemma redis_get_insert_ne (db : gmap string entry) t k k' e :
  k <> k' -> (redis_get (<[k := e]> db) t k').1 = (redis_get db t k').1.
Proof.
  intros Hne. unfold redis_get. rewrite lookup_insert_ne by done.
  destruct (db !! k') as [e'|]; [|done]. by destruct (t <? expires_at e').
Qed.

(** X8.  A [set] for one call does not disturb the entry of a call with
    a different key: a later [get] for that other call returns the same
    payload (or miss) and counts the same as it would have without the
    [set]. *)
Theorem cache_set_leaves_other_keys
    (self : MCPCacheManager) (db db' : gmap string entry) (now t : Z)
    (tool1 tool2 : string) (p1 c1 p2 c2 : list (string * json))
    (result : json) (ttl : option Z) :
  _generate_cache_key tool1 p1 c1 <> _generate_cache_key tool2 p2 c2 ->
  set self db now tool1 p1 c1 result ttl = Some db' ->
  (get json_loads self db' t tool2 p2 c2).1
  = (get json_loads self db t tool2 p2 c2).1
  /\ db' !! _generate_cache_key tool2 p2 c2 = db !! _generate_cache_key tool2 p2 c2.
Proof.
  intros Hne Hset. unfold set, redis_setex in Hset.
  destruct (effective_ttl self ttl <=? 0); [done|]. injection Hset as <-.
  split; [|by rewrite lookup_insert_ne].
  pose proof (redis_get_insert_ne db t _ _
                {| value := dumps false result;
                   expires_at := now + 1000 * effective_ttl self ttl |} Hne) as Hget.
  unfold get.
  destruct (redis_get (<[_ := _]> db) t _) as [cached1 db1].
  destruct (redis_get db t _) as [cached2 db2]. simpl in Hget. subst cached2.
  destruct cached1 as [text|]; [|done].
  destruct (truthy text); [destruct (json_loads text)|]; done.
Qed.

(** X9.  The last [set] for a key wins: after two accepted [set]s for the
    same call the entry holds the second payload and expires as the second
    [set] says, even if the first one asked for a longer life. *)
Theorem cache_set_overwrites
    (self : MCPCacheManager) (db db1 db2 : gmap string entry) (t1 t2 : Z)
    (tool_name : string) (parameters context : list (string * json))
    (r1 r2 : json) (ttl1 ttl2 : option Z) :
  set self db t1 tool_name parameters context r1 ttl1 = Some db1 ->
  set self db1 t2 tool_name parameters context r2 ttl2 = Some db2 ->
  db2 !! _generate_cache_key tool_name parameters context
  = Some {| value := dumps false r2;
            expires_at := t2 + 1000 * effective_ttl self ttl2 |}
  /\ set self db t2 tool_name parameters context r2 ttl2 = Some db2.
Proof.
  unfold set, redis_setex.
  destruct (effective_ttl self ttl1 <=? 0); [done|]. intros [= <-].
  destruct (effective_ttl self ttl2 <=? 0); [done|]. intros [= <-].
  rewrite lookup_insert_eq, insert_insert_eq. done.
Qed.

End CacheMore.

(** ** Redis keys: shape of cache keys, names read back from keys *)
Section KeyFacts.
Import Json Cache LearningStore.

Lemma round_length st kw : length st = 8%nat -> length (Sha256.round st kw) = 8%nat.
Proof.
  intros H. do 9 (destruct st as [|? st]; try discriminate H). reflexivity.
Qed.

Lemma rounds_length kws : forall st,
  length st = 8%nat -> length (fold_left Sha256.round kws st) = 8%nat.
Proof.
  induction kws as [|kw kws IH]; intros st H; simpl; [done|].
  apply IH. by apply round_length.
Qed.

Lemma compress_length h block : length h = 8%nat -> length (Sha256.compress h block) = 8%nat.
Proof.
  intros H. unfold Sha256.compress. rewrite length_zip_with, rounds_length by done. lia.
Qed.

Lemma digest_length msg : length (Sha256.digest msg) = 8%nat.
Proof.
  unfold Sha256.digest. generalize (Sha256.blocks (length (Sha256.words (Sha256.pad msg)))
                                      (Sha256.words (Sha256.pad msg))).
  assert (H : length Sha256.H0 = 8%nat) by reflexivity. revert H.
  generalize Sha256.H0. intros h H l. revert h H.
  induction l as [|b l IH]; intros h H; simpl; [done|].
  apply IH. by apply compress_length.
Qed.

Lemma be_bytes_length n x : length (Sha256.be_bytes n x) = n.
Proof.
  revert x. induction n as [|n IH]; intros x; simpl; [done|].
  rewrite List.length_app, IH. simpl. lia.
Qed.

Lemma hex_word_length x : String.length (Sha256.hex_word x) = 8%nat.
Proof.
  unfold Sha256.hex_word. pose proof (be_bytes_length 4 x) as H.
  destruct (Sha256.be_bytes 4 x) as [|b0 [|b1 [|b2 [|b3 [|]]]]]; try discriminate H.
  reflexivity.
Qed.

Lemma string_length_append (s1 s2 : string) :
  String.length (s1 +:+ s2) = (String.length s1 + String.length s2)%nat.
Proof. induction s1 as [|c s1 IH]; [reflexivity|]. simpl. by rewrite IH. Qed.

Lemma string_append_assoc (s1 s2 s3 : string) :
  (s1 +:+ s2) +:+ s3 = s1 +:+ (s2 +:+ s3).
Proof.
  induction s1 as [|c s1 IH]; [reflexivity|].
  change (String c ((s1 +:+ s2) +:+ s3) = String c (s1 +:+ (s2 +:+ s3))). by rewrite IH.
Qed.

Lemma hexdigest_length s : String.length (Sha256.hexdigest s) = 64%nat.
Proof.
  unfold Sha256.hexdigest. pose proof (digest_length (Sha256.encode s)) as H.
  assert (Hgen : forall ws, String.length
            (fold_right (fun w acc => Sha256.hex_word w +:+ acc) EmptyString ws)
          = (8 * length ws)%nat).
  { induction ws as [|w ws IH]; [done|]. simpl fold_right.
    rewrite string_length_append, hex_word_length, IH. simpl. lia. }
  rewrite Hgen, H. reflexivity.
Qed.

(** X10.  Every cache key is the 10 characters [mcp:cache:] followed by
    64 characters, whatever the size of the parameters and the context,
    and it is never a key under which the learning engine persists tool
    metrics or context scores in the same Redis. *)
Theorem cache_key_shape
    (tool_name : string) (parameters context : list (string * json)) :
  let key := _generate_cache_key tool_name parameters context in
  String.length key = 74%nat
  /\ (exists digest, key = "mcp:cache:" +:+ digest /\ String.length digest = 64%nat)
  /\ (forall name, key <> tool_key name)
  /\ (forall c, key <> context_key c).
Proof.
  intros key. subst key. unfold _generate_cache_key.
  split; [|split; [|split]].
  - rewrite string_length_append, hexdigest_length. reflexivity.
  - eexists. split; [reflexivity|apply hexdigest_length].
  - intros name. unfold tool_key. simpl. discriminate.
  - intros c. unfold context_key. simpl. discriminate.
Qed.

Lemma split_nonempty sep s : split sep s <> [].
Proof.
  destruct s as [|c s]; simpl; [done|].
  destruct (Ascii.eqb c sep); [done|]. by destruct (split sep s).
Qed.

Lemma split_free sep s : free_of sep s -> split sep s = [s].
Proof.
  induction s as [|c s IH]; simpl; [done|]. intros [Hc Hs].
  apply Ascii.eqb_neq in Hc. rewrite Hc, IH; done.
Qed.

Lemma split_at_separator sep a b :
  exists l, l <> [] /\ split sep (a +:+ String sep b) = l ++ split sep b.
Proof.
  induction a as [|c a (l & Hl & IH)]; simpl.
  - rewrite Ascii.eqb_refl. by exists [EmptyString].
  - destruct (Ascii.eqb c sep).
    + exists (EmptyString :: l). split; [done|]. by rewrite IH.
    + rewrite IH. destruct l as [|part parts]; [done|].
      by exists (String c part :: parts).
Qed.

Lemma last_part_app l l' : l' <> [] -> last_part (l ++ l') = last_part l'.
Proof.
  intros Hne. unfold last_part. induction l as [|x l IH]; simpl; [done|].
  destruct (l ++ l') eqn:Happ; [|done].
  apply app_eq_nil in Happ as [_ ->]. done.
Qed.

Lemma tool_name_of_key_cut a name :
  tool_name_of_key (a +:+ String ":" name) = last_part (split ":" name).
Proof.
  unfold tool_name_of_key.
  destruct (split_at_separator ":" a name) as (l & _ & ->).
  apply last_part_app, split_nonempty.
Qed.

(** X11.  The tool name that [_load_from_redis] reads back from a key
    written by [_persist_to_redis] is the tool name itself when it holds
    no colon; of a name with a colon only the part after the last colon
    comes back, so such a tool is restored under another tool's name. *)
Theorem tool_name_round_trip (name : string) :
  free_of ":" name ->
  tool_name_of_key (tool_key name) = name
  /\ forall prefix, tool_name_of_key (tool_key (prefix +:+ String ":" name)) = name.
Proof.
  intros Hfree. split; [|intros prefix].
  - change (tool_key name) with ("mcp:learning:tool" +:+ String ":" name).
    rewrite tool_name_of_key_cut, split_free; done.
  - unfold tool_key. rewrite <- string_append_assoc.
    rewrite tool_name_of_key_cut, split_free; done.
Qed.

End KeyFacts.

(** ** Health monitor: what a run of rounds does to one node *)
Section MeshMore.
Import Mesh.

Lemma health_check_loop_node (rounds : list (string -> ping)) :
  forall (nodes : gmap string MCPNode) (node_id : string),
    _health_check_loop rounds nodes !! node_id
    = fold_left (fun n pings => check_node (pings node_id) n) rounds <$> nodes !! node_id.
Proof.
  induction rounds as [|pings rounds IH]; intros nodes node_id; simpl.
  - by destruct (nodes !! node_id).
  - unfold _health_check_loop in *. simpl. rewrite IH, check_all_nodes_lookup.
    by destruct (nodes !! node_id).
Qed.

(** X12.  The monitor never brings a node back from [OFFLINE]: whatever
    the probes of the following rounds report, healthy ones included, an
    offline node stays offline. *)
Theorem offline_is_absorbing
    (rounds : list (string -> ping)) (nodes : gmap string MCPNode)
    (node_id : string) (node : MCPNode) :
  nodes !! node_id = Some node ->
  status node = OFFLINE ->
  exists node',
    _health_check_loop rounds nodes !! node_id = Some node'
    /\ status node' = OFFLINE.
Proof.
  intros Hnode Hoff. rewrite health_check_loop_node, Hnode. simpl.
  eexists. split; [reflexivity|].
  clear Hnode. revert node Hoff.
  induction rounds as [|pings rounds IH]; intros node Hoff; [done|].
  simpl. apply IH. rewrite check_node_status, Hoff.
  by destruct (pings node_id) as [[|] ?|].
Qed.

Lemma check_node_latency (p : ping) (node : MCPNode) :
  avg_latency (metrics (check_node p node))
  = match p with
    | Pong true latency =>
        Float.add (Float.mul float_0_9 (avg_latency (metrics node)))
                  (Float.mul float_0_1 (Float.Finite latency))
    | _ => avg_latency (metrics node)
    end.
Proof.
  destruct p as [[|] latency|]; simpl; [done| |].
  - by destruct (decide (status node = ONLINE)).
  - by destruct (decide (status node <> OFFLINE)).
Qed.

(** One healthy probe: the new average keeps the order of the old
    averages and of the latencies, and stays non-negative. *)
Lemma rolling_average_monotone (a a' : Float.float) (l l' : Q) :
  Float.le (Float.Finite 0) a -> Float.le a a' -> (0 <= l <= l')%Q ->
  let avg a l := Float.add (Float.mul float_0_9 a)
                           (Float.mul float_0_1 (Float.Finite l)) in
  Float.le (Float.Finite 0) (avg a l) /\ Float.le (avg a l) (avg a' l').
Proof.
  intros Ha Haa Hl avg. unfold avg, float_0_9, float_0_1.
  set (c9 := 8106479329266893 # 9007199254740992).
  set (c1 := 3602879701896397 # 36028797018963968).
  assert (H9 : (0 < c9)%Q) by reflexivity. assert (H1 : (0 < c1)%Q) by reflexivity.
  assert (Hz9 : Float.le (Float.Finite 0) (Float.mul (Float.Finite c9) a)).
  { eapply float_le_trans; [|apply float_mul_monotone; [done|exact Ha]].
    cbn [Float.mul]. apply round_nonneg. lra. }
  assert (Hz1 : Float.le (Float.Finite 0) (Float.mul (Float.Finite c1) (Float.Finite l))).
  { cbn [Float.mul]. apply round_nonneg. nra. }
  apply float_add_monotone; [done|done| |].
  - by apply float_mul_monotone.
  - apply float_mul_monotone; [done|]. cbn [Float.le]. lra.
Qed.

(** X13.  The rolling average keeps the order of what is measured,
    rounding included: of two runs over a node whose probes answer the same
    way, the run that starts from the lower average and measures the lower
    latencies ends with the lower average.  An average that starts
    non-negative, with non-negative latencies, stays non-negative and is
    never NaN.  Probes that report unhealthy or raise do not change it. *)
Theorem avg_latency_monotone
    (rounds rounds' : list (string -> ping)) (nodes nodes' : gmap string MCPNode)
    (node_id : string) (node node' : MCPNode) :
  nodes !! node_id = Some node ->
  nodes' !! node_id = Some node' ->
  Float.le (Float.Finite 0) (avg_latency (metrics node)) ->
  Float.le (avg_latency (metrics node)) (avg_latency (metrics node')) ->
  Forall2 (fun pings pings' =>
             match pings node_id, pings' node_id with
             | Pong is_healthy latency, Pong is_healthy' latency' =>
                 is_healthy = is_healthy'
                 /\ (is_healthy = true -> (0 <= latency <= latency')%Q)
             | PingRaised, PingRaised => True
             | _, _ => False
             end) rounds rounds' ->
  exists final final',
    _health_check_loop rounds nodes !! node_id = Some final
    /\ _health_check_loop rounds' nodes' !! node_id = Some final'
    /\ Float.le (Float.Finite 0) (avg_latency (metrics final))
    /\ Float.le (avg_latency (metrics final)) (avg_latency (metrics final'))
    /\ (Forall (fun pings => failed (pings node_id) = true) rounds ->
        avg_latency (metrics final) = avg_latency (metrics node)).
Proof.
  intros Hnode Hnode' H0 Hle Hrounds. rewrite !health_check_loop_node, Hnode, Hnode'. simpl.
  do 2 eexists. split; [reflexivity|]. split; [reflexivity|].
  clear Hnode Hnode'. revert node node' H0 Hle.
  induction Hrounds as [|pings pings' rounds rounds' Hp _ IH]; intros node node' H0 Hle; [done|].
  simpl.
  assert (Hstep : Float.le (Float.Finite 0)
                    (avg_latency (metrics (check_node (pings node_id) node)))
                  /\ Float.le (avg_latency (metrics (check_node (pings node_id) node)))
                       (avg_latency (metrics (check_node (pings' node_id) node')))).
  { rewrite !check_node_latency.
    destruct (pings node_id) as [[|] l|], (pings' node_id) as [[|] l'|]; cbn beta iota in Hp;
      try (exfalso; exact Hp); try (exfalso; apply proj1 in Hp; discriminate Hp);
      try (split; assumption).
    destruct Hp as [_ Hl]. exact (rolling_average_monotone _ _ _ _ H0 Hle (Hl eq_refl)). }
  destruct Hstep as [Hs0 Hsle].
  destruct (IH _ _ Hs0 Hsle) as (IH0 & IHle & IHfail).
  split; [exact IH0|]. split; [exact IHle|].
  intros Hfailed. apply Forall_cons in Hfailed as [Hf Hfailed].
  rewrite (IHfail Hfailed), check_node_latency.
  by destruct (pings node_id) as [[|] latency|].
Qed.

(** X14.  The monitor neither adds nor drops a node, and what it does
    to a node depends on that node's probes only: two runs whose rounds
    agree on the probes of one node leave that node in the same state. *)
Theorem health_check_keeps_nodes
    (rounds rounds' : list (string -> ping)) (nodes : gmap string MCPNode)
    (node_id : string) :
  Forall2 (fun pings pings' => pings node_id = pings' node_id) rounds rounds' ->
  dom (_health_check_loop rounds nodes) = dom nodes
  /\ _health_check_loop rounds nodes !! node_id
     = _health_check_loop rounds' nodes !! node_id.
Proof.
  intros Hsame. split.
  - apply set_eq. intros i. rewrite !elem_of_dom, health_check_loop_node.
    destruct (nodes !! i); simpl; split; intros [? ?]; by eauto.
  - rewrite !health_check_loop_node. destruct (nodes !! node_id) as [node|]; [|done].
    simpl. f_equal. revert node.
    induction Hsame as [|p p' r r' Hp _ IH]; intros node; [done|].
    simpl. rewrite Hp. apply IH.
Qed.

End MeshMore.

(** ** Batch processor: size of the batches, every record is processed *)
Section LearningMore.
Import Learning.
Context {Rec : Type}.
Variable batch_size : Z.
Variable flush_interval : Z.
Variable process_time : list Rec -> Z.
Hypothesis flush_interval_positive : 0 < flush_interval.

Local Abbreviation step := (iteration batch_size flush_interval process_time).
Local Abbreviation run := (_batch_processor batch_size flush_interval process_time).

(** X15.  Every batch handed to [_process_batch] holds at least one
    record and, for a batch size of at least 1, at most [batch_size]
    records. *)
Theorem processed_batches_bounded (n : nat) (start : Z) (puts : list (Z * Rec)) :
  1 <= batch_size ->
  Forall (fun f => 1 <= Z.of_nat (length (records f)) <= batch_size)
    (processed (_batch_processor batch_size flush_interval process_time n start puts)).
Proof.
  intros Hsize.
  destruct (batch_processor_invariant batch_size flush_interval process_time
              flush_interval_positive n start puts) as [Hdone _].
  eapply Forall_impl; [exact Hdone|].
  intros f (_ & earlier & t & r & Hrec & Hwhy). rewrite Hrec in *.
  rewrite List.length_app in *. simpl in *.
  destruct (why f); [destruct Hwhy as (_ & _ & [Hlt| ->])|]; simpl in *; lia.
Qed.

Hypothesis process_time_nonneg : forall b, 0 <= process_time b.

Lemma iter_step_add (k1 k2 : nat) (st : state Rec) :
  Nat.iter (k1 + k2) step st = Nat.iter k2 step (Nat.iter k1 step st).
Proof. rewrite Nat.add_comm. apply Nat.iter_add. Qed.

(** The record at the head of the queue is taken after finitely many
    iterations, however far ahead its [put] is. *)
Lemma head_is_taken (m : nat) :
  forall (st : state Rec) put_at record rest,
    queue st = (put_at, record) :: rest ->
    put_at - now st <= Z.of_nat m ->
    exists k, queue (Nat.iter k step st) = rest.
Proof.
  induction m as [|m IH]; intros st put_at record rest Hq Hm.
  all: destruct (put_at <? now st + flush_interval) eqn:Hput.
  all: try (exists 1%nat; simpl; unfold iteration; rewrite Hq, Hput;
            by destruct (_ >=? batch_size)).
  - lia.
  - assert (Hnext : queue (step st) = (put_at, record) :: rest
                    /\ now st + flush_interval <= now (step st)).
    { unfold iteration. rewrite Hq, Hput. destruct (batch st) eqn:Hb; simpl; [by split|].
      split; [done|]. specialize (process_time_nonneg (map snd (batch st))).
      rewrite Hb in process_time_nonneg. simpl in *. lia. }
    destruct Hnext as [Hq' Hnow].
    destruct (IH (step st) put_at record rest Hq') as [k Hk]; [lia|].
    exists (S k). by rewrite Nat.iter_succ_r.
Qed.

Lemma queue_is_drained (q : list (Z * Rec)) :
  forall st : state Rec, queue st = q -> exists k, queue (Nat.iter k step st) = [].
Proof.
  induction q as [|[put_at record] rest IH]; intros st Hq; [by exists 0%nat|].
  destruct (head_is_taken (Z.to_nat (put_at - now st)) st put_at record rest Hq) as [k1 Hk1];
    [lia|].
  destruct (IH _ Hk1) as [k2 Hk2].
  exists (k1 + k2)%nat. by rewrite iter_step_add.
Qed.

Lemma iteration_idle (st : state Rec) :
  queue st = [] -> batch st = [] ->
  queue (step st) = [] /\ batch (step st) = [] /\ processed (step st) = processed st.
Proof. intros Hq Hb. unfold iteration. by rewrite Hq, Hb. Qed.

Lemma idle_is_stable (k : nat) (st : state Rec) :
  queue st = [] -> batch st = [] ->
  queue (Nat.iter k step st) = [] /\ batch (Nat.iter k step st) = []
  /\ processed (Nat.iter k step st) = processed st.
Proof.
  intros Hq Hb. induction k as [|k (IHq & IHb & IHp)]; [done|].
  rewrite Nat.iter_succ. destruct (iteration_idle _ IHq IHb) as (Hq' & Hb' & Hp').
  split; [exact Hq'|]. split; [exact Hb'|]. by rewrite Hp'.
Qed.

(** X16.  Every record put on the queue is processed: from some
    iteration on the queue and the pending batch are empty and the batches
    processed hold, in order, exactly the records put; the processor then
    idles without processing anything more. *)
Theorem every_record_is_processed (start : Z) (puts : list (Z * Rec)) :
  exists n, forall m, (n <= m)%nat ->
    let st := _batch_processor batch_size flush_interval process_time m start puts in
    queue st = [] /\ batch st = []
    /\ map snd (concat (map records (processed st))) = map snd puts.
Proof.
  destruct (queue_is_drained puts {| now := start; batch := []; queue := puts; processed := [] |}
              eq_refl) as [k Hk].
  set (st0 := {| now := start; batch := []; queue := puts; processed := [] |}) in *.
  assert (Hflush : queue (Nat.iter (S k) step st0) = []
                   /\ batch (Nat.iter (S k) step st0) = []).
  { rewrite Nat.iter_succ. generalize dependent (Nat.iter k step st0). intros st Hst.
    unfold iteration. rewrite Hst. by destruct (batch st). }
  destruct Hflush as [Hq Hb].
  exists (S k). intros m Hm.
  apply Nat.le_exists_sub in Hm as (j & -> & _).
  destruct (idle_is_stable j (Nat.iter (S k) step st0) Hq Hb) as (Hq' & Hb' & Hp').
  pose proof (batch_processor_conserves_records batch_size flush_interval process_time
                (j + S k) start puts) as Hall.
  unfold _batch_processor in *. fold st0 in Hall |- *.
  rewrite Nat.iter_add in Hall |- *. cbv zeta.
  split; [exact Hq'|]. split; [exact Hb'|].
  unfold all_records in Hall. rewrite Hq', Hb' in Hall. simpl in Hall.
  by rewrite !app_nil_r in Hall.
Qed.

(** X17.  At every moment the records already processed, those in the
    pending batch and those still to be taken from the queue are, in this
    order, exactly the records put: none is lost, duplicated or
    reordered. *)
Theorem no_record_lost_or_duplicated (n : nat) (start : Z) (puts : list (Z * Rec)) :
  let st := _batch_processor batch_size flush_interval process_time n start puts in
  map snd (concat (map records (processed st))) ++ map snd (batch st) ++ map snd (queue st)
  = map snd puts.
Proof.
  exact (batch_processor_conserves_records batch_size flush_interval process_time
           n start puts).
Qed.

End LearningMore.

(** ** Constitutional generation: how often the model is asked *)
Section ConstitutionalFacts.
Import Constitutional.
Context {World Response Principle Critique : Type}.
Variable critique : Response -> Principle -> World -> Critique * World.
Variable revise : Response -> list Critique -> World -> Response * World.
Variable weighted_average : list Critique -> Q.
Variable aligned : Critique -> bool.

Local Abbreviation ccritique := (counted_critique critique).
Local Abbreviation crevise := (counted_revise revise).

Lemma critique_all_counted response ps : forall w nc nr,
  critique_all ccritique response ps (w, (nc, nr))
  = ((critique_all critique response ps w).1,
     ((critique_all critique response ps w).2, ((nc + length ps)%nat, nr))).
Proof.
  induction ps as [|p ps IH]; intros w nc nr; simpl.
  - by rewrite Nat.add_0_r.
  - unfold counted_critique at 1. simpl.
    destruct (critique response p w) as [c w1]. rewrite IH.
    destruct (critique_all critique response ps w1) as [cs w2]. simpl.
    do 3 f_equal. lia.
Qed.

Lemma revise_counted response violations w nc nr :
  crevise response violations (w, (nc, nr))
  = ((revise response violations w).1, ((revise response violations w).2, (nc, S nr))).
Proof. unfold counted_revise. simpl. by destruct (revise response violations w). Qed.

Lemma generate_loop_counts cfg iterations : forall response w nc nr,
  let run := generate_loop ccritique crevise weighted_average aligned cfg
               iterations response (w, (nc, nr)) in
  let p := length (principles cfg) in
  let rounds := (run.2.2.2 - nr)%nat in
  (nr <= run.2.2.2)%nat
  /\ ((rounds = length iterations /\ run.2.2.1 = (nc + rounds * p)%nat)
      \/ ((rounds < length iterations)%nat /\ run.2.2.1 = (nc + (rounds + 1) * p)%nat)).
Proof.
  induction iterations as [|i iterations IH]; intros response w nc nr; cbn [generate_loop].
  - simpl. split; [lia|]. left. split; lia.
  - rewrite critique_all_counted.
    destruct (critique_all critique response (principles cfg) w) as [cs w1]. cbn [fst snd].
    destruct (Qle_bool (threshold cfg) (weighted_average cs)).
    + simpl. split; [lia|]. right. split; [lia|]. replace (nr - nr)%nat with 0%nat by lia. lia.
    + rewrite !revise_counted.
      destruct (revise response _ w1) as [response' w2]. cbn [fst snd].
      specialize (IH response' w2 (nc + length (principles cfg))%nat (S nr)).
      cbv zeta in IH |- *. destruct IH as [Hle [[Hr Hc]|[Hr Hc]]].
      * split; [lia|]. left. simpl length. split; [lia|]. rewrite Hc. nia.
      * split; [lia|]. right. simpl length. split; [lia|]. rewrite Hc. nia.
Qed.

(** X18.  [constitutional_generate] asks for at most [max_iterations]
    revisions.  Either it stops early, and then the response it returns
    has been critiqued against every principle once more than it has been
    revised; or it uses up its iterations, and then the number of critique
    rounds equals the number of revisions: the response returned is the
    last revision and has not been critiqued. *)
Theorem constitutional_generate_budget
    (cfg : settings) (initial_response : Response) (w : World) :
  let run := constitutional_generate ccritique crevise weighted_average aligned cfg
               initial_response (w, (0%nat, 0%nat)) in
  let critiques := run.2.2.1 in
  let revisions := run.2.2.2 in
  let p := length (principles cfg) in
  (revisions <= Z.to_nat (max_iterations cfg))%nat
  /\ ((revisions = Z.to_nat (max_iterations cfg) /\ critiques = (revisions * p)%nat)
      \/ ((revisions < Z.to_nat (max_iterations cfg))%nat
          /\ critiques = ((revisions + 1) * p)%nat)).
Proof.
  intros run critiques revisions p. subst critiques revisions run.
  unfold constitutional_generate.
  pose proof (generate_loop_counts cfg (py_range (max_iterations cfg))
                initial_response w 0%nat 0%nat) as H.
  cbv zeta in H. rewrite length_py_range, Nat.sub_0_r in H. fold p in H.
  destruct H as [_ [[Hr Hc]|[Hr Hc]]]; (split; [lia|]); [left|right]; split; lia || done.
Qed.

Lemma generate_loop_erase cfg iterations : forall response w n,
  (generate_loop ccritique crevise weighted_average aligned cfg iterations response (w, n)).1
  = (generate_loop critique revise weighted_average aligned cfg iterations response w).1.
Proof.
  induction iterations as [|i iterations IH]; intros response w [nc nr]; cbn [generate_loop];
    [done|].
  rewrite critique_all_counted.
  destruct (critique_all critique response (principles cfg) w) as [cs w1]. cbn [fst snd].
  destruct (Qle_bool (threshold cfg) (weighted_average cs)); [done|].
  rewrite !revise_counted.
  destruct (revise response _ w1) as [response' w2]. cbn [fst snd]. apply IH.
Qed.

(** X19.  A response whose first score reaches the threshold is returned
    as it is, with no revision asked for; and with [max_iterations <= 0]
    the initial response is returned without the model being asked
    anything, whatever its alignment. *)
Theorem constitutional_generate_returns_initial
    (cfg : settings) (initial_response : Response) (w : World) :
  (1 <= max_iterations cfg ->
   (threshold cfg <= score_of critique weighted_average cfg initial_response w)%Q ->
   let run := constitutional_generate ccritique crevise weighted_average aligned cfg
                initial_response (w, (0%nat, 0%nat)) in
   run.1 = initial_response /\ run.2.2.2 = 0%nat)
  /\ (max_iterations cfg <= 0 ->
      constitutional_generate critique revise weighted_average aligned cfg
        initial_response w = (initial_response, w)).
Proof.
  unfold constitutional_generate, py_range, score_of. split.
  - intros Hmax Hscore.
    replace (Z.to_nat (max_iterations cfg)) with (S (Z.to_nat (max_iterations cfg - 1))) by lia.
    cbn [seq map generate_loop]. rewrite critique_all_counted.
    destruct (critique_all critique initial_response (principles cfg) w) as [cs w1].
    cbn [fst snd] in *. apply Qle_bool_iff in Hscore. by rewrite Hscore.
  - intros Hmax. by replace (Z.to_nat (max_iterations cfg)) with 0%nat by lia.
Qed.

End ConstitutionalFacts.

(** ** A/B testing: which variant a user gets *)
Section ABTestingFacts.
Import ABTesting.
Variable md5_int : string -> Z.

Lemma first_above_member percentage vs : forall cumulative variant,
  first_above percentage cumulative vs = Some variant -> variant ∈ map fst vs.
Proof.
  induction vs as [|[v t] vs IH]; intros cumulative variant; simpl; [done|].
  destruct (Float.ltb percentage (Float.add cumulative (Float.Finite t))).
  - intros [= <-]. apply elem_of_cons. by left.
  - intros H. apply elem_of_cons. right. by eapply IH.
Qed.

(** X20.  [get_variant] raises [KeyError] for an experiment that was not
    created and [IndexError] for one without variants; in every other case
    it returns one of the experiment's variants. *)
Theorem get_variant_is_declared
    (experiments : gmap string experiment) (experiment_id user_id : string) :
  match experiments !! experiment_id with
  | None => get_variant md5_int experiments experiment_id user_id = KeyError
  | Some e =>
      match variants e with
      | [] => get_variant md5_int experiments experiment_id user_id = IndexError
      | _ => exists variant,
               get_variant md5_int experiments experiment_id user_id = Ok variant
               /\ variant ∈ map fst (variants e)
      end
  end.
Proof.
  unfold get_variant. destruct (experiments !! experiment_id) as [e|]; [|done].
  destruct (variants e) as [|[v t] vs] eqn:Hvs; [done|].
  destruct (first_above _ (Float.Finite 0) ((v, t) :: vs)) as [variant|] eqn:Hfirst.
  - exists variant. split; [done|]. by eapply first_above_member.
  - exists v. split; [done|]. apply elem_of_cons. by left.
Qed.

Lemma percentage_of_values user_id :
  exists k, 0 <= k < 100
    /\ percentage_of md5_int user_id = Float.round (inject_Z k / 100)
    /\ percentage_of md5_int user_id <> Float.NaN.
Proof.
  exists (md5_int user_id mod 100). split; [by apply Z.mod_pos_bound|].
  split; [done|apply round_not_nan].
Qed.

(** The running total only grows along non-negative shares. *)
Lemma cumulative_grows (pre : list (string * Q)) : forall cumulative,
  Float.is_float cumulative -> cumulative <> Float.NaN ->
  Forall (fun v => 0 <= v.2)%Q pre ->
  let after := fold_left (fun c v => Float.add c (Float.Finite v.2)) pre cumulative in
  Float.le cumulative after /\ Float.is_float after /\ after <> Float.NaN.
Proof.
  induction pre as [|[v t] pre IH]; intros cumulative Hfl Hnan Hpos; simpl.
  - split; [by apply float_le_refl|done].
  - apply Forall_cons in Hpos as [Ht Hpos]. simpl in Ht.
    destruct (float_add_nonneg cumulative t Hfl Hnan Ht) as (Hle & Hfl' & Hnan').
    destruct (IH _ Hfl' Hnan' Hpos) as (IH1 & IH2 & IH3).
    split; [by eapply float_le_trans|done].
Qed.

Lemma first_above_skips percentage (pre : list (string * Q)) : forall cumulative rest,
  Float.is_float cumulative -> cumulative <> Float.NaN ->
  Forall (fun v => 0 <= v.2)%Q pre ->
  Float.le (fold_left (fun c v => Float.add c (Float.Finite v.2)) pre cumulative) percentage ->
  first_above percentage cumulative (pre ++ rest)
  = first_above percentage
      (fold_left (fun c v => Float.add c (Float.Finite v.2)) pre cumulative) rest.
Proof.
  induction pre as [|[v t] pre IH]; intros cumulative rest Hfl Hnan Hpos Hle; simpl; [done|].
  apply Forall_cons in Hpos as [Ht Hpos]. simpl in Ht, Hle.
  destruct (float_add_nonneg cumulative t Hfl Hnan Ht) as (_ & Hfl' & Hnan').
  destruct (cumulative_grows pre _ Hfl' Hnan' Hpos) as (Hgrow & _ & _).
  rewrite float_ltb_le; [|by eapply float_le_trans].
  by apply IH.
Qed.

Lemma running_total_snoc pre v :
  running_total (pre ++ [v]) = Float.add (running_total pre) (Float.Finite v.2).
Proof. unfold running_total. by rewrite fold_left_app. Qed.

(** X21.  For non-negative shares, a user gets the variant at which
    the running total of the shares, added up and rounded as the loop does
    it, first exceeds the user's percentage: the total of the variants
    before it is at most the percentage and the total with its own share
    is above.  A user whose percentage is not below the total of all shares
    gets the first variant.  The percentage is one of the floats 0.00,
    0.01, ..., 0.99. *)
Theorem get_variant_by_cumulative_share
    (experiments : gmap string experiment) (experiment_id user_id : string)
    (e : experiment) :
  experiments !! experiment_id = Some e ->
  Forall (fun v => 0 <= v.2)%Q (variants e) ->
  let percentage := percentage_of md5_int user_id in
  (exists k, 0 <= k < 100 /\ percentage = Float.round (inject_Z k / 100))
  /\ (forall pre variant traffic post,
        variants e = pre ++ (variant, traffic) :: post ->
        Float.le (running_total pre) percentage ->
        Float.ltb percentage (running_total (pre ++ [(variant, traffic)])) = true ->
        get_variant md5_int experiments experiment_id user_id = Ok variant)
  /\ (forall variant traffic rest,
        variants e = (variant, traffic) :: rest ->
        Float.le (running_total (variants e)) percentage ->
        get_variant md5_int experiments experiment_id user_id = Ok variant).
Proof.
  intros He Hpos percentage.
  assert (Hzero : Float.is_float (Float.Finite 0)) by (vm_compute; reflexivity).
  split.
  { destruct (percentage_of_values user_id) as (k & Hk & Hp & _). by exists k. }
  unfold get_variant. rewrite He. fold percentage. split.
  - intros pre variant traffic post Hvs Hlo Hhi. rewrite Hvs in *.
    apply Forall_app in Hpos as [Hpre _].
    rewrite (first_above_skips percentage pre (Float.Finite 0)); [|done..].
    rewrite running_total_snoc in Hhi. unfold running_total in Hhi.
    cbn [first_above snd] in *. by rewrite Hhi.
  - intros variant traffic rest Hvs Htot.
    pose proof (first_above_skips percentage (variants e) (Float.Finite 0) []
                  Hzero ltac:(done) Hpos Htot) as Hskip.
    rewrite app_nil_r in Hskip. rewrite Hskip. simpl. by rewrite Hvs.
Qed.

End ABTestingFacts.

(** ** Security check of generated code: what it does not look at *)
Section DynamicToolsFacts.
Import DynamicTools.
Variable parse : string -> option node.

Lemma walk_name_ok id : forallb node_ok (walk (Name id)) = true.
Proof. reflexivity. Qed.

(** X22.  The check rejects a direct call of a dangerous operation by
    its name, but it never looks at a name that is not the callee of a
    call: a program that first binds any dangerous operation to another
    name and then calls that name (the source shape [f = op; f(args)])
    passes, for every operation of the list, as long as [f] is not itself
    on the list and the arguments pass. *)
Theorem alias_of_dangerous_operation_passes
    (code : string) (op f : string) (args : list node) :
  member op dangerous_operations = true ->
  member f dangerous_operations = false ->
  forallb node_ok (flat_map walk args) = true ->
  (parse code = Some (Other [Other [Call (Name op) args]]) ->
   _validate_code_security parse code = false)
  /\ (parse code = Some (Other [Other [Name f; Name op]; Other [Call (Name f) args]]) ->
      _validate_code_security parse code = true).
Proof.
  intros Hop Hf Hargs. unfold _validate_code_security. split; intros ->.
  - cbn [walk flat_map forallb app node_ok]. by rewrite Hop.
  - cbn [walk flat_map forallb app node_ok]. rewrite Hf. simpl.
    rewrite !app_nil_r. by rewrite Hargs.
Qed.

End DynamicToolsFacts.

(** ** The further properties at concrete inputs *)


Example plain_policy_sleeps :
  (Retry.execute_with_retry
     (Retry.logged_func (Orchestrator.traced_func broken))
     (@Retry.logged_random (nat * list Q) nat nat
        (Orchestrator.traced_random (Retry.fixed_draw (3 # 4))))
     (@Retry.logged_sleep (nat * list Q) nat nat
        (Orchestrator.traced_sleep Retry.no_sleep))
     plain_policy None ((0%nat, []), [])).2.1.2
  = [Qmin (1 * 2 ^ 0) 5; Qmin (1 * 2 ^ 1) 5; Qmin (1 * 2 ^ 2) 5].
Proof. vm_compute. reflexivity. Qed.


Lemma broken_always_fails : Orchestrator.always_failing broken None.
Proof. intros w. exists w. split; [done|]. by intros (p & [=] & _). Qed.

Lemma default_policy_in_range (a : Z) :
  0 <= a < Retry.max_retries Retry.default_policy ->
  Retry.power_overflows Retry.default_policy a = false.
Proof. apply no_overflow_below. vm_compute. reflexivity. Qed.

Lemma patient_policy_in_range (b : Z) :
  0 <= b < 1024 -> Retry.power_overflows patient_policy b = false.
Proof. apply no_overflow_below. vm_compute. reflexivity. Qed.

Lemma execute_with_retry_exhausts_attempts_witness :
  (let run := Retry.execute_with_retry (Retry.logged_func broken)
                (@Retry.logged_random nat nat nat (Retry.fixed_draw (3 # 4)))
                (@Retry.logged_sleep nat nat nat Retry.no_sleep)
                Retry.default_policy None (0%nat, []) in
   Z.of_nat (length run.2.2) = 3 + 1)
  /\ (let run := Retry.execute_with_retry (Retry.logged_func broken)
                   (@Retry.logged_random nat nat nat (Retry.fixed_draw (3 # 4)))
                   (@Retry.logged_sleep nat nat nat Retry.no_sleep)
                   patient_policy None (0%nat, []) in
      Z.of_nat (length run.2.2) = 1024 + 1 /\ run.1 = Retry.RaiseOverflowError).
Proof.
  assert (Hmax : 0 <= Retry.max_retries Retry.default_policy) by (vm_compute; discriminate).
  assert (Hmax' : 0 <= Retry.max_retries patient_policy) by (vm_compute; discriminate).
  assert (Ha : 0 <= 1024 < Retry.max_retries patient_policy)
    by (split; vm_compute; [discriminate|reflexivity]).
  assert (Hov : Retry.power_overflows patient_policy 1024 = true) by (vm_compute; reflexivity).
  split.
  - exact (proj1 (proj1 (execute_with_retry_exhausts_attempts broken (Retry.fixed_draw (3 # 4))
             Retry.no_sleep Retry.default_policy None 0%nat Hmax broken_always_fails)
             default_policy_in_range)).
  - exact (proj2 (execute_with_retry_exhausts_attempts broken (Retry.fixed_draw (3 # 4))
             Retry.no_sleep patient_policy None 0%nat Hmax' broken_always_fails)
             1024 Ha Hov patient_policy_in_range).
Defined.


Lemma broken_executor_fails (w : nat) :
  Orchestrator.tool_fails broken_executor sample_call w.
Proof. right. by exists w. Qed.

Lemma tool_call_retries_by_flag_witness :
  Z.of_nat (Orchestrator._execute_tool_call_enhanced
              (Orchestrator.counted_executor broken_executor)
              (Orchestrator.counted_random (Retry.fixed_draw (3 # 4)))
              (Orchestrator.counted_sleep Retry.no_sleep)
              (fun _ : Orchestrator.tool_error nat => false)
              Retry.default_policy sample_call (0%nat, 0%nat)).2.2
  = 3 + 1.
Proof.
  assert (Hmax : 0 <= Retry.max_retries Retry.default_policy) by (vm_compute; discriminate).
  exact (proj1 (tool_call_retries_by_flag broken_executor (Retry.fixed_draw (3 # 4))
           Retry.no_sleep (fun _ => false) Retry.default_policy sample_call 0%nat
           Hmax broken_executor_fails) eq_refl default_policy_in_range).
Defined.

Lemma sample_keys_differ :
  Cache._generate_cache_key "search" sample_params sample_context
  <> Cache._generate_cache_key "crm_lookup" sample_params sample_context.
Proof. vm_compute. discriminate. Qed.

Lemma cache_set_leaves_other_keys_witness :
  (Cache.get (Cache.loads_only sample_result) Cache.new_manager
     (<[Cache._generate_cache_key "search" sample_params sample_context := other_entry]>
        sample_db) 1000 "crm_lookup" sample_params sample_context).1
  = (Cache.get (Cache.loads_only sample_result) Cache.new_manager sample_db 1000
       "crm_lookup" sample_params sample_context).1.
Proof.
  exact (proj1 (cache_set_leaves_other_keys (Cache.loads_only sample_result)
           Cache.new_manager sample_db _ 0 1000 "search" "crm_lookup"
           sample_params sample_context sample_params sample_context
           Json.JNone (Some 60) sample_keys_differ eq_refl)).
Defined.

Lemma cache_set_overwrites_witness :
  (<[Cache._generate_cache_key "search" sample_params sample_context := other_entry]>
     sample_db) !! Cache._generate_cache_key "search" sample_params sample_context
  = Some {| Cache.value := Json.dumps false Json.JNone;
            Cache.expires_at := 0 + 1000 * Cache.effective_ttl Cache.new_manager (Some 60) |}.
Proof.
  exact (proj1 (cache_set_overwrites Cache.new_manager ∅ sample_db _ 0 0 "search"
           sample_params sample_context sample_result Json.JNone (Some 600) (Some 60)
           eq_refl eq_refl)).
Defined.

Lemma tool_name_round_trip_witness :
  LearningStore.tool_name_of_key (LearningStore.tool_key "knowledge_retriever")
  = "knowledge_retriever"
  /\ LearningStore.tool_name_of_key
       (LearningStore.tool_key ("crm" +:+ String ":" "knowledge_retriever"))
     = "knowledge_retriever".
Proof.
  assert (Hfree : LearningStore.free_of ":" "knowledge_retriever")
    by (simpl; repeat split; discriminate).
  pose proof (tool_name_round_trip "knowledge_retriever" Hfree) as [H1 H2].
  split; [exact H1 | exact (H2 "crm")].
Defined.

Lemma offline_is_absorbing_witness :
  exists node',
    Mesh._health_check_loop [healthy_round; healthy_round; healthy_round]
      {[ "node-b" := offline_node ]} !! "node-b" = Some node'
    /\ Mesh.status node' = Mesh.OFFLINE.
Proof.
  exact (offline_is_absorbing [healthy_round; healthy_round; healthy_round]
           {[ "node-b" := offline_node ]} "node-b" offline_node eq_refl eq_refl).
Defined.

(** Why no range is claimed for the average: at an average of 0.3 and a
    latency of 0.3 the new average is the float 0.30000000000000004. *)
Example rolling_average_rounds_up :
  Mesh.avg_latency (Mesh.metrics (Mesh.check_node
    (Mesh.Pong true (5404319552844595 # 18014398509481984))
    {| Mesh.status := Mesh.ONLINE;
       Mesh.metrics := {| Mesh.avg_latency := Float.round (3 # 10) |} |}))
  = Float.Finite (1351079888211149 # 4503599627370496)
  /\ Float.round (3 # 10) = Float.Finite (5404319552844595 # 18014398509481984).
Proof. vm_compute. done. Qed.

Lemma avg_latency_monotone_witness :
  exists final final',
    Mesh._health_check_loop [healthy_round; unhealthy_round; healthy_round]
      sample_nodes !! "node-a" = Some final
    /\ Mesh._health_check_loop [slow_round; unhealthy_round; slow_round]
         sample_nodes !! "node-a" = Some final'
    /\ Float.le (Mesh.avg_latency (Mesh.metrics final))
                (Mesh.avg_latency (Mesh.metrics final')).
Proof.
  assert (H0 : Float.le (Float.Finite 0) (Mesh.avg_latency (Mesh.metrics sample_node)))
    by (vm_compute; discriminate).
  assert (Hle : Float.le (Mesh.avg_latency (Mesh.metrics sample_node))
                  (Mesh.avg_latency (Mesh.metrics sample_node)))
    by (vm_compute; discriminate).
  assert (Hl : (0 <= 3 # 10 <= 1 # 2)%Q) by (split; vm_compute; discriminate).
  assert (Hrounds : Forall2 (fun pings pings' =>
             match pings "node-a", pings' "node-a" with
             | Mesh.Pong is_healthy latency, Mesh.Pong is_healthy' latency' =>
                 is_healthy = is_healthy'
                 /\ (is_healthy = true -> (0 <= latency <= latency')%Q)
             | Mesh.PingRaised, Mesh.PingRaised => True
             | _, _ => False
             end) [healthy_round; unhealthy_round; healthy_round]
                  [slow_round; unhealthy_round; slow_round]).
  { repeat constructor; try done; simpl; intros _; exact Hl. }
  destruct (avg_latency_monotone [healthy_round; unhealthy_round; healthy_round]
              [slow_round; unhealthy_round; slow_round] sample_nodes sample_nodes
              "node-a" sample_node sample_node eq_refl eq_refl H0 Hle Hrounds)
    as (final & final' & H1 & H2 & _ & H3 & _).
  exists final, final'. split; [exact H1|]. split; [exact H2|exact H3].
Defined.

Lemma health_check_keeps_nodes_witness :
  dom (Mesh._health_check_loop [healthy_round; unhealthy_round] sample_nodes)
  = dom sample_nodes.
Proof.
  exact (proj1 (health_check_keeps_nodes [healthy_round; unhealthy_round]
           [healthy_round; unhealthy_round] sample_nodes "node-a"
           ltac:(repeat constructor))).
Defined.

Lemma processed_batches_bounded_witness :
  Forall (fun f => 1 <= Z.of_nat (length (Learning.records f)) <= 2)
    (Learning.processed
       (Learning._batch_processor 2 5000 (fun _ => 10) 6 0
          [(0, "r1"); (100, "r2"); (105, "r3")])).
Proof.
  exact (processed_batches_bounded 2 5000 (fun _ : list string => 10) eq_refl 6 0
           [(0, "r1"); (100, "r2"); (105, "r3")] ltac:(vm_compute; discriminate)).
Defined.

Lemma every_record_is_processed_witness :
  exists n, forall m, (n <= m)%nat ->
    let st := Learning._batch_processor 2 5000 (fun _ => 10) m 0
                [(0, "r1"); (100, "r2"); (105, "r3")] in
    Learning.queue st = [] /\ Learning.batch st = []
    /\ map snd (concat (map Learning.records (Learning.processed st)))
       = ["r1"; "r2"; "r3"].
Proof.
  exact (every_record_is_processed 2 5000 (fun _ : list string => 10) eq_refl
           (fun _ => ltac:(vm_compute; discriminate)) 0
           [(0, "r1"); (100, "r2"); (105, "r3")]).
Defined.

Lemma constitutional_generate_returns_initial_witness :
  Constitutional.constitutional_generate
    (fun (r : string) (p : string) (w : nat) => (true, S w))
    (fun (r : string) (v : list bool) (w : nat) => (r +:+ "!", S w))
    (fun cs : list bool => 1%Q) (fun c : bool => c)
    {| Constitutional.principles := ["honesty"; "respect"];
       Constitutional.max_iterations := 0; Constitutional.threshold := 4 # 5 |}
    "Buy now" 0%nat
  = ("Buy now", 0%nat).
Proof.
  exact (proj2 (constitutional_generate_returns_initial
           (fun (r : string) (p : string) (w : nat) => (true, S w))
           (fun (r : string) (v : list bool) (w : nat) => (r +:+ "!", S w))
           (fun cs : list bool => 1%Q) (fun c : bool => c)
           {| Constitutional.principles := ["honesty"; "respect"];
              Constitutional.max_iterations := 0; Constitutional.threshold := 4 # 5 |}
           "Buy now" 0%nat) ltac:(vm_compute; discriminate)).
Defined.

Lemma get_variant_by_cumulative_share_witness :
  ABTesting.get_variant sample_hash {[ "recommendation_strategy" := sample_experiment ]}
    "recommendation_strategy" "user-1" = ABTesting.Ok "control".
Proof.
  assert (Hpos : Forall (fun v : string * Q => (0 <= v.2)%Q)
                   (ABTesting.variants sample_experiment)).
  { repeat constructor; vm_compute; discriminate. }
  assert (Hlo : Float.le (ABTesting.running_total [])
                  (ABTesting.percentage_of sample_hash "user-1"))
    by (vm_compute; discriminate).
  assert (Hhi : Float.ltb (ABTesting.percentage_of sample_hash "user-1")
                  (ABTesting.running_total ([] ++ [("control", (1 # 2)%Q)])) = true)
    by (vm_compute; reflexivity).
  exact (proj1 (proj2 (get_variant_by_cumulative_share sample_hash
            {[ "recommendation_strategy" := sample_experiment ]}
            "recommendation_strategy" "user-1" sample_experiment eq_refl Hpos))
            [] "control" (1 # 2)%Q _ eq_refl Hlo Hhi).
Defined.

(** Shares of 0.1, 0.2 and 0.7 and a user at 0.30: the running total after
    the second variant is the float 0.30000000000000004, above 0.3, and the
    user gets the second variant, not the third. *)
Example get_variant_rounded_total :
  ABTesting.running_total (take 2 (ABTesting.variants rounded_experiment))
  = Float.Finite (1351079888211149 # 4503599627370496)
  /\ ABTesting.percentage_of (fun _ => 30) "user-1"
     = Float.Finite (5404319552844595 # 18014398509481984)
  /\ ABTesting.get_variant (fun _ => 30) {[ "pricing" := rounded_experiment ]}
       "pricing" "user-1" = ABTesting.Ok "b".
Proof. vm_compute. done. Qed.

Lemma alias_of_dangerous_operation_passes_witness :
  DynamicTools._validate_code_security
    (fun _ => Some (DynamicTools.Other
       [DynamicTools.Other [DynamicTools.Name "f"; DynamicTools.Name "eval"];
        DynamicTools.Other [DynamicTools.Call (DynamicTools.Name "f")
                              [DynamicTools.Other []]]]))
    "f = eval; f(1)" = true.
Proof.
  exact (proj2 (alias_of_dangerous_operation_passes
           (fun _ => Some (DynamicTools.Other
              [DynamicTools.Other [DynamicTools.Name "f"; DynamicTools.Name "eval"];
               DynamicTools.Other [DynamicTools.Call (DynamicTools.Name "f")
                                     [DynamicTools.Other []]]]))
           "f = eval; f(1)" "eval" "f" [DynamicTools.Other []]
           eq_refl eq_refl eq_refl) eq_refl).
Defined.

(** ** The cache in front of a tool call *)
Section CachedCallFacts.
Import Json Cache CachedCall.
Context {World E : Type}.
Variable json_loads : string -> option json.
Variable execute_tool : World -> (json + E) * World.

Local Abbreviation cached_call := (_execute_tool_call_cached json_loads execute_tool).

Lemma executed_stores self db w now tool_name parameters context result st :
  cached_call self db w now tool_name parameters context = (Executed result, st) ->
  st.1.2 !! _generate_cache_key tool_name parameters context
  = Some {| value := dumps false result; expires_at := now + 1000 * 600 |}.
Proof.
  unfold _execute_tool_call_cached, set_tool_result, redis_setex. simpl.
  destruct (get_tool_result _ _ _ _ _ _ _) as [[cached self1] db1].
  destruct (execute_tool w) as [[r|e] w1].
  - destruct cached as [payload| |]; [destruct (py_truthy payload)| |];
      intros [= <- <-]; simpl; apply lookup_insert_eq.
  - destruct cached as [payload| |]; [destruct (py_truthy payload)| |]; discriminate.
Qed.

(** X23.  After a call that ran the tool, the same call made again
    within 600 seconds is answered from the cache without running the tool
    when the result is truthy (and [json.loads] reads it back); a falsy
    result, such as an empty dict, is stored and counted as a hit but not
    used: the tool is run again. *)
Theorem cached_call_reuses_truthy_results
    (self : MCPCacheManager) (db : gmap string entry) (w : World) (t0 t : Z)
    (tool_name : string) (parameters context : list (string * json))
    (result : json) (st : MCPCacheManager * gmap string entry * World) :
  cached_call self db w t0 tool_name parameters context = (Executed result, st) ->
  json_loads (dumps false result) = Some result ->
  t0 <= t < t0 + 600000 ->
  let again := cached_call st.1.1 st.1.2 st.2 t tool_name parameters context in
  hit_count again.2.1.1 = hit_count st.1.1 + 1
  /\ (py_truthy result = true ->
      again = (FromCache result, (count_hit st.1.1, st.1.2, st.2)))
  /\ (py_truthy result = false ->
      again.2.2 = (execute_tool st.2).2
      /\ match (execute_tool st.2).1 with
         | inl result' => again.1 = Executed result'
         | inr e => again.1 = ToolFailed e
         end).
Proof.
  intros Hfirst Hloads Ht again. subst again.
  pose proof (executed_stores _ _ _ _ _ _ _ _ _ Hfirst) as Hstored.
  destruct st as [[self1 db1] w1]. simpl in *.
  unfold _execute_tool_call_cached, get_tool_result, redis_get. rewrite Hstored. simpl.
  replace (t <? t0 + 1000 * 600) with true by lia.
  rewrite dumps_truthy, Hloads.
  destruct (py_truthy result).
  - split; [done|]. split; [done|discriminate].
  - destruct (execute_tool w1) as [[r|e] w2]; simpl.
    + unfold set_tool_result, redis_setex. simpl. by repeat split.
    + by repeat split.
Qed.

End CachedCallFacts.

Lemma cached_call_reuses_truthy_results_witness :
  CachedCall._execute_tool_call_cached (Cache.loads_only sample_result)
    (fun w : nat => (inl sample_result : Json.json + nat, S w))
    Cache.new_manager sample_db 1%nat 599999 "search" sample_params sample_context
  = (CachedCall.FromCache sample_result,
     (Cache.count_hit Cache.new_manager, sample_db, 1%nat)).
Proof.
  assert (Hloads : Cache.loads_only sample_result (Json.dumps false sample_result)
                   = Some sample_result).
  { unfold Cache.loads_only. apply decide_True. reflexivity. }
  assert (Hfirst : CachedCall._execute_tool_call_cached (Cache.loads_only sample_result)
                     (fun w : nat => (inl sample_result : Json.json + nat, S w))
                     Cache.new_manager ∅ 0%nat 0 "search" sample_params sample_context
                   = (CachedCall.Executed sample_result,
                      (Cache.new_manager, sample_db, 1%nat))) by reflexivity.
  assert (Ht : 0 <= 599999 < 0 + 600000) by lia.
  assert (Htruthy : CachedCall.py_truthy sample_result = true) by reflexivity.
  pose proof (cached_call_reuses_truthy_results (Cache.loads_only sample_result)
                (fun w : nat => (inl sample_result : Json.json + nat, S w))
                Cache.new_manager ∅ 0%nat 0 599999 "search" sample_params sample_context
                sample_result (Cache.new_manager, sample_db, 1%nat) Hfirst Hloads Ht) as H.
  exact (proj1 (proj2 H) Htruthy).
Defined.
